(** * audioconvert: caps negotiation of gst/audioconvert/gstaudioconvert.c

    A shallow embedding of the negotiation code of the audioconvert element:
    parsing of fixed caps, the expansion of one input structure into the
    ranked list of acceptable output structures, and the fixation of an
    intersected candidate against the fixed input.

    A [GstStructure] is a name and a bag of named fields; its fields are
    kept in a finite map.  The [gint] of the C code is a 32-bit signed
    integer and is represented in [Z]; where the code does arithmetic on it
    the wrap-around is written out.

    After the negotiation come the rest of the element (setting the caps,
    converting a buffer, the buffer of silence) and the set of file
    descriptors of gst/tcp/gstfdset.c. *)

From Stdlib Require Import ZArith Bool Lia.
From stdpp Require Import gmap strings list.

#[local] Set Warnings "-register-all,-clear-no-such-hyp".
#[local] Open Scope Z_scope.

(** ** Machine integers *)

Definition G_MININT : Z := - 2 ^ 31.
Definition G_MAXINT : Z := 2 ^ 31 - 1.

(** A value stored into a [gint], wrapped to 32 bits two's complement. *)
Definition gint_wrap (z : Z) : Z := (z + 2 ^ 31) `mod` 2 ^ 32 - 2 ^ 31.

(** A [gint] converted to [guint] (the conversion C applies when a [gint]
    meets a [guint] in a comparison or a call). *)
Definition guint_of_gint (z : Z) : Z := z `mod` 2 ^ 32.

(** A [gint] converted to [gsize]; [gsize] is 64 bits wide on the LP64
    platforms GLib targets. *)
Definition gsize_of_gint (z : Z) : Z := z `mod` 2 ^ 64.

(** glib's byte-order tags. *)
Definition G_LITTLE_ENDIAN : Z := 1234.
Definition G_BIG_ENDIAN : Z := 4321.

(** ** Values and structures *)

(** The channel positions this file names.  The enumeration itself is
    declared in multichannel.h. *)
Inductive GstAudioChannelPosition :=
  | GST_AUDIO_CHANNEL_POSITION_FRONT_MONO
  | GST_AUDIO_CHANNEL_POSITION_FRONT_LEFT
  | GST_AUDIO_CHANNEL_POSITION_FRONT_RIGHT
  | GST_AUDIO_CHANNEL_POSITION_REAR_CENTER
  | GST_AUDIO_CHANNEL_POSITION_REAR_LEFT
  | GST_AUDIO_CHANNEL_POSITION_REAR_RIGHT
  | GST_AUDIO_CHANNEL_POSITION_LFE
  | GST_AUDIO_CHANNEL_POSITION_FRONT_CENTER
  | GST_AUDIO_CHANNEL_POSITION_SIDE_LEFT
  | GST_AUDIO_CHANNEL_POSITION_SIDE_RIGHT
  | GST_AUDIO_CHANNEL_POSITION_NONE.

Definition is_position_none (p : GstAudioChannelPosition) : bool :=
  match p with GST_AUDIO_CHANNEL_POSITION_NONE => true | _ => false end.

(** The GValue types the element meets in audio caps: a fixed integer or
    boolean, an integer range, a list of alternatives, an array (the
    channel layout) and a channel position. *)
Inductive GValue :=
  | VInt (n : Z)
  | VBoolean (b : bool)
  | VIntRange (lo hi : Z)
  | VList (l : list GValue)
  | VArray (l : list GValue)
  | VPosition (p : GstAudioChannelPosition).

Record GstStructure := mkStructure {
  name : string;
  fields : gmap string GValue
}.

(** Caps are an ordered list of structures, the preferred ones first. *)
Abbreviation GstCaps := (list GstStructure).

(** ** The GstStructure and GValue interface

    These functions belong to the GStreamer core library; the element only
    calls them.  They follow the data model of the specification: a field
    is fixed, a range, a list of alternatives, or absent. *)

(** Modelled from the spec: gst_value_is_fixed, "a descriptor is fixed iff
    every present field is Fixed"; a range or a list is not fixed, an array
    is fixed when its elements are. *)
Fixpoint gst_value_is_fixed (v : GValue) : bool :=
  match v with
  | VIntRange _ _ => false
  | VList _ => false
  | VArray l => forallb gst_value_is_fixed l
  | _ => true
  end.

(** Modelled from the spec: gst_structure_get_value, field access; [None]
    is the NULL the C function returns for an absent field. *)
Definition gst_structure_get_value (s : GstStructure) (f : string) : option GValue :=
  fields s !! f.

(** Modelled from the spec: gst_structure_has_field, "Absent" or not. *)
Definition gst_structure_has_field (s : GstStructure) (f : string) : bool :=
  match fields s !! f with Some _ => true | None => false end.

(** Modelled from the spec: gst_structure_get_int succeeds exactly on a
    field holding a fixed integer. *)
Definition gst_structure_get_int (s : GstStructure) (f : string) : option Z :=
  match fields s !! f with Some (VInt n) => Some n | _ => None end.

(** Modelled from the spec: gst_structure_get_boolean succeeds exactly on a
    field holding a fixed boolean. *)
Definition gst_structure_get_boolean (s : GstStructure) (f : string) : option bool :=
  match fields s !! f with Some (VBoolean b) => Some b | _ => None end.

(** Modelled from the spec: gst_structure_set_value and gst_structure_set,
    the builder operation that stores a value under a field name. *)
Definition gst_structure_set_value (s : GstStructure) (f : string) (v : GValue) : GstStructure :=
  mkStructure (name s) (<[f := v]> (fields s)).

(** Modelled from the spec: gst_structure_remove_field, [remove_field]. *)
Definition gst_structure_remove_field (s : GstStructure) (f : string) : GstStructure :=
  mkStructure (name s) (delete f (fields s)).

(** Modelled from the spec: gst_structure_set_name, the kind of the
    descriptor. *)
Definition gst_structure_set_name (s : GstStructure) (n : string) : GstStructure :=
  mkStructure n (fields s).

(** Modelled from the spec: gst_structure_empty_new, a descriptor without
    fields. *)
Definition gst_structure_empty_new (n : string) : GstStructure :=
  mkStructure n ∅.

(** Modelled from the spec: gst_caps_is_fixed, one structure whose present
    fields are all fixed. *)
Definition gst_caps_is_fixed (caps : GstCaps) : bool :=
  match caps with
  | [s] => bool_decide (map_Forall (λ _ v, gst_value_is_fixed v = true) (fields s))
  | _ => false
  end.

(** *** Nearest-value fixation *)

(** The nearest value of a closed range: the target clamped into it. *)
Definition nearest_in_range (lo hi target : Z) : Z :=
  if target <? lo then lo else if hi <? target then hi else target.

(** Of two allowed values the one nearer to the target, the lower one on a
    tie. *)
Definition nearer (target best x : Z) : Z :=
  if Z.abs (target - x) <? Z.abs (target - best) then x
  else if (Z.abs (target - x) =? Z.abs (target - best)) && (x <? best) then x
  else best.

Fixpoint nearest_in_list (target : Z) (l : list GValue) (best : option Z) : option Z :=
  match l with
  | [] => best
  | VInt x :: l' =>
      nearest_in_list target l'
        (Some (match best with Some b => nearer target b x | None => x end))
  | _ :: l' => nearest_in_list target l' best
  end.

(** The value a field constraint is fixated to, if fixation changes it. *)
Definition nearest_int (c : GValue) (target : Z) : option Z :=
  match c with
  | VIntRange lo hi => Some (nearest_in_range lo hi target)
  | VList l => nearest_in_list target l None
  | _ => None
  end.

(** Modelled from the spec: gst_structure_fixate_field_nearest_int,
    "fixate to the value in the candidate's allowed set/range numerically
    nearest to the input's fixed value (ties broken toward the lower
    value)"; a field that is already fixed is left alone. *)
Definition gst_structure_fixate_field_nearest_int
    (s : GstStructure) (f : string) (target : Z) : GstStructure :=
  match fields s !! f with
  | Some c =>
      match nearest_int c target with
      | Some v => gst_structure_set_value s f (VInt v)
      | None => s
      end
  | None => s
  end.

Fixpoint first_boolean (l : list GValue) : option bool :=
  match l with
  | [] => None
  | VBoolean b :: _ => Some b
  | _ :: l' => first_boolean l'
  end.

Fixpoint has_boolean (target : bool) (l : list GValue) : bool :=
  match l with
  | [] => false
  | VBoolean b :: l' => Bool.eqb b target || has_boolean target l'
  | _ :: l' => has_boolean target l'
  end.

(** Modelled from the spec: gst_structure_fixate_field_boolean, "fixate to
    the input's boolean value if the candidate still allows a choice"; when
    the list does not offer the target, its first boolean is taken. *)
Definition gst_structure_fixate_field_boolean
    (s : GstStructure) (f : string) (target : bool) : GstStructure :=
  match fields s !! f with
  | Some (VList l) =>
      if has_boolean target l then gst_structure_set_value s f (VBoolean target)
      else match first_boolean l with
           | Some b => gst_structure_set_value s f (VBoolean b)
           | None => s
           end
  | _ => s
  end.

(** Modelled from the spec: gst_audio_set_channel_positions (multichannel.c),
    "adopt the built-in default positional layout for that channel count":
    the layout stored is the array of the first [channels] positions of
    [pos], [channels] being read from the structure. *)
Definition gst_audio_set_channel_positions
    (s : GstStructure) (pos : list GstAudioChannelPosition) : GstStructure :=
  match gst_structure_get_int s "channels" with
  | Some n =>
      gst_structure_set_value s "channel-positions"
        (VArray (VPosition <$> take (Z.to_nat n) pos))
  | None => s
  end.

(** ** Parsing fixed caps: gst_audio_convert_parse_caps *)

(** The fields of [AudioConvertFmt] that the parser fills in. *)
Record AudioConvertFmt := mkFmt {
  is_int : bool;
  endianness : Z;
  width : Z;
  rate : Z;
  channels : Z;
  pos : list GstAudioChannelPosition;
  unpositioned_layout : bool;
  sign : bool;
  depth : Z;
  unit_size : Z
}.

(** The three ways the parser returns FALSE: the precondition check on the
    caps, and the labels [no_values] and [not_allowed].  This is the parser
    as its callers see it: they read the format after a TRUE only.  What a
    failure leaves in the format is in [gst_audio_convert_parse_caps_fmt]
    below. *)
Inductive ParseError := not_fixed | no_values | not_allowed.

Definition fixed_channel_positions_value (val : option GValue) : bool :=
  match val with
  | Some v => gst_value_is_fixed v
  | None => false
  end.

(** Assignments to the fields of [*fmt]. *)
Definition set_is_int (fmt : AudioConvertFmt) (v : bool) : AudioConvertFmt :=
  mkFmt v (endianness fmt) (width fmt) (rate fmt) (channels fmt) (pos fmt)
    (unpositioned_layout fmt) (sign fmt) (depth fmt) (unit_size fmt).

Definition set_endianness (fmt : AudioConvertFmt) (v : Z) : AudioConvertFmt :=
  mkFmt (is_int fmt) v (width fmt) (rate fmt) (channels fmt) (pos fmt)
    (unpositioned_layout fmt) (sign fmt) (depth fmt) (unit_size fmt).

Definition set_width (fmt : AudioConvertFmt) (v : Z) : AudioConvertFmt :=
  mkFmt (is_int fmt) (endianness fmt) v (rate fmt) (channels fmt) (pos fmt)
    (unpositioned_layout fmt) (sign fmt) (depth fmt) (unit_size fmt).

Definition set_rate (fmt : AudioConvertFmt) (v : Z) : AudioConvertFmt :=
  mkFmt (is_int fmt) (endianness fmt) (width fmt) v (channels fmt) (pos fmt)
    (unpositioned_layout fmt) (sign fmt) (depth fmt) (unit_size fmt).

Definition set_channels (fmt : AudioConvertFmt) (v : Z) : AudioConvertFmt :=
  mkFmt (is_int fmt) (endianness fmt) (width fmt) (rate fmt) v (pos fmt)
    (unpositioned_layout fmt) (sign fmt) (depth fmt) (unit_size fmt).

Definition set_pos (fmt : AudioConvertFmt) (v : list GstAudioChannelPosition)
    : AudioConvertFmt :=
  mkFmt (is_int fmt) (endianness fmt) (width fmt) (rate fmt) (channels fmt) v
    (unpositioned_layout fmt) (sign fmt) (depth fmt) (unit_size fmt).

Definition set_unpositioned_layout (fmt : AudioConvertFmt) (v : bool)
    : AudioConvertFmt :=
  mkFmt (is_int fmt) (endianness fmt) (width fmt) (rate fmt) (channels fmt) (pos fmt)
    v (sign fmt) (depth fmt) (unit_size fmt).

Definition set_sign (fmt : AudioConvertFmt) (v : bool) : AudioConvertFmt :=
  mkFmt (is_int fmt) (endianness fmt) (width fmt) (rate fmt) (channels fmt) (pos fmt)
    (unpositioned_layout fmt) v (depth fmt) (unit_size fmt).

Definition set_depth (fmt : AudioConvertFmt) (v : Z) : AudioConvertFmt :=
  mkFmt (is_int fmt) (endianness fmt) (width fmt) (rate fmt) (channels fmt) (pos fmt)
    (unpositioned_layout fmt) (sign fmt) v (unit_size fmt).

Definition set_unit_size (fmt : AudioConvertFmt) (v : Z) : AudioConvertFmt :=
  mkFmt (is_int fmt) (endianness fmt) (width fmt) (rate fmt) (channels fmt) (pos fmt)
    (unpositioned_layout fmt) (sign fmt) (depth fmt) v.

Section Parse.

(** gst_audio_get_channel_positions (multichannel.c): the positions of the
    structure's channels, or NULL. *)
Variable gst_audio_get_channel_positions :
  GstStructure → option (list GstAudioChannelPosition).

(** The byte order of the host, [G_BYTE_ORDER]. *)
Variable G_BYTE_ORDER : Z.

(** audio_convert_clean_fmt (audioconvert.c): the format it leaves. *)
Variable audio_convert_clean_fmt : AudioConvertFmt → AudioConvertFmt.

(** [None] is the FALSE return, which leaves [*unpositioned_layout]
    untouched; [Some u] is TRUE with [*unpositioned_layout = u]. *)
Definition structure_has_fixed_channel_positions (s : GstStructure) : option bool :=
  match gst_structure_get_int s "channels" with
  | None => None
  | Some channels =>
      let val := gst_structure_get_value s "channel-positions" in
      if negb (fixed_channel_positions_value val) && (channels <=? 8) then None
      else if negb (fixed_channel_positions_value val) then Some true
      else
        match gst_audio_get_channel_positions s with
        | Some (p :: _) => Some (is_position_none p)
        | _ => Some false
        end
  end.

Definition gst_audio_convert_parse_caps (caps : GstCaps) : AudioConvertFmt + ParseError :=
  if negb (gst_caps_is_fixed caps) then inr not_fixed else
  match caps with
  | [] => inr not_fixed
  | structure :: _ =>
    let is_int := String.eqb (name structure) "audio/x-raw-int" in
    match gst_structure_get_int structure "channels" with
    | None => inr no_values
    | Some channels =>
    match gst_audio_get_channel_positions structure with
    | None => inr no_values
    | Some pos =>
    let unpositioned_layout :=
      match structure_has_fixed_channel_positions structure with
      | Some u => u
      | None => false
      end in
    match gst_structure_get_int structure "width" with
    | None => inr no_values
    | Some width =>
    match gst_structure_get_int structure "rate" with
    | None => inr no_values
    | Some rate =>
    match (if negb (width =? 8) then gst_structure_get_int structure "endianness"
           else Some G_BYTE_ORDER) with
    | None => inr no_values
    | Some endianness =>
    let unit_size := gint_wrap (width * channels) ÷ 8 in
    if is_int then
      match gst_structure_get_boolean structure "signed" with
      | None => inr no_values
      | Some sign =>
      match gst_structure_get_int structure "depth" with
      | None => inr no_values
      | Some depth =>
          if depth >? width then inr not_allowed
          else inl (mkFmt is_int endianness width rate channels pos
                      unpositioned_layout sign depth unit_size)
      end
      end
    else
      (* a float format keeps the zeroes the callers initialise with *)
      inl (mkFmt is_int endianness width rate channels pos
             unpositioned_layout false 0 unit_size)
    end
    end
    end
    end
    end
  end.

(** The parser with its out-parameter: the return value and [*fmt] after
    the call, for [*fmt] as the caller hands it in.  The fields are written
    one by one as the code writes them, and both error labels end in
    audio_convert_clean_fmt.  A library getter that fails leaves its
    destination as it was; for a width of 8 the endianness is not read and
    stays the byte order of the host; the positions [NULL] are the empty
    list. *)
Definition gst_audio_convert_parse_caps_fmt (caps : GstCaps) (fmt : AudioConvertFmt)
    : bool * AudioConvertFmt :=
  if negb (gst_caps_is_fixed caps) then (false, fmt) else
  match caps with
  | [] => (false, fmt)
  | structure :: _ =>
    let fmt := audio_convert_clean_fmt fmt in
    let fmt := set_endianness fmt G_BYTE_ORDER in
    let fmt := set_is_int fmt (String.eqb (name structure) "audio/x-raw-int") in
    match gst_structure_get_int structure "channels" with
    | None => (false, audio_convert_clean_fmt fmt)
    | Some channels =>
    let fmt := set_channels fmt channels in
    match gst_audio_get_channel_positions structure with
    | None => (false, audio_convert_clean_fmt (set_pos fmt []))
    | Some pos =>
    let fmt := set_pos fmt pos in
    let fmt := set_unpositioned_layout fmt false in
    let fmt :=
      match structure_has_fixed_channel_positions structure with
      | Some u => set_unpositioned_layout fmt u
      | None => fmt
      end in
    match gst_structure_get_int structure "width" with
    | None => (false, audio_convert_clean_fmt fmt)
    | Some width =>
    let fmt := set_width fmt width in
    match gst_structure_get_int structure "rate" with
    | None => (false, audio_convert_clean_fmt fmt)
    | Some rate =>
    let fmt := set_rate fmt rate in
    match (if negb (width =? 8) then gst_structure_get_int structure "endianness"
           else Some (endianness fmt)) with
    | None => (false, audio_convert_clean_fmt fmt)
    | Some endianness =>
    let fmt := set_endianness fmt endianness in
    let unit_size := gint_wrap (width * channels) ÷ 8 in
    if is_int fmt then
      match gst_structure_get_boolean structure "signed" with
      | None => (false, audio_convert_clean_fmt fmt)
      | Some sign =>
      let fmt := set_sign fmt sign in
      match gst_structure_get_int structure "depth" with
      | None => (false, audio_convert_clean_fmt fmt)
      | Some depth =>
          let fmt := set_depth fmt depth in
          if depth >? width then (false, audio_convert_clean_fmt fmt)
          else (true, set_unit_size fmt unit_size)
      end
      end
    else (true, set_unit_size fmt unit_size)
    end
    end
    end
    end
    end
  end.

(** [*size = fmt.unit_size] stores the [gint] in a [gsize]. *)
Definition gst_audio_convert_get_unit_size (caps : GstCaps) : option Z :=
  match gst_audio_convert_parse_caps caps with
  | inl fmt => Some (gsize_of_gint (unit_size fmt))
  | inr _ => None
  end.

End Parse.

(** The number of samples of an input buffer in gst_audio_convert_transform:
    [gst_buffer_get_size (inbuf) / this->ctx.in.unit_size], a [gsize]
    divided by a [gint] and stored in a [gint].  [None] is the division by
    zero. *)
Definition transform_samples (buffer_size unit_size : Z) : option Z :=
  if gsize_of_gint unit_size =? 0 then None
  else Some (gint_wrap (buffer_size / gsize_of_gint unit_size)).

(** ** Fixation: gst_audio_convert_fixate_caps *)

(** The table [default_positions]: row [n - 1] is the layout for [n]
    channels.  Each row of the C table has eight slots; the slots after the
    ones written here are never read, because row [n - 1] is only used for
    [n] channels. *)
Definition default_positions : list (list GstAudioChannelPosition) :=
  [ [ GST_AUDIO_CHANNEL_POSITION_FRONT_MONO ];
    [ GST_AUDIO_CHANNEL_POSITION_FRONT_LEFT;
      GST_AUDIO_CHANNEL_POSITION_FRONT_RIGHT ];
    [ GST_AUDIO_CHANNEL_POSITION_FRONT_LEFT;
      GST_AUDIO_CHANNEL_POSITION_FRONT_RIGHT;
      GST_AUDIO_CHANNEL_POSITION_LFE ];
    [ GST_AUDIO_CHANNEL_POSITION_FRONT_LEFT;
      GST_AUDIO_CHANNEL_POSITION_FRONT_RIGHT;
      GST_AUDIO_CHANNEL_POSITION_REAR_LEFT;
      GST_AUDIO_CHANNEL_POSITION_REAR_RIGHT ];
    [ GST_AUDIO_CHANNEL_POSITION_FRONT_LEFT;
      GST_AUDIO_CHANNEL_POSITION_FRONT_RIGHT;
      GST_AUDIO_CHANNEL_POSITION_REAR_LEFT;
      GST_AUDIO_CHANNEL_POSITION_REAR_RIGHT;
      GST_AUDIO_CHANNEL_POSITION_FRONT_CENTER ];
    [ GST_AUDIO_CHANNEL_POSITION_FRONT_LEFT;
      GST_AUDIO_CHANNEL_POSITION_FRONT_RIGHT;
      GST_AUDIO_CHANNEL_POSITION_REAR_LEFT;
      GST_AUDIO_CHANNEL_POSITION_REAR_RIGHT;
      GST_AUDIO_CHANNEL_POSITION_FRONT_CENTER;
      GST_AUDIO_CHANNEL_POSITION_LFE ];
    [ GST_AUDIO_CHANNEL_POSITION_FRONT_LEFT;
      GST_AUDIO_CHANNEL_POSITION_FRONT_RIGHT;
      GST_AUDIO_CHANNEL_POSITION_REAR_LEFT;
      GST_AUDIO_CHANNEL_POSITION_REAR_RIGHT;
      GST_AUDIO_CHANNEL_POSITION_FRONT_CENTER;
      GST_AUDIO_CHANNEL_POSITION_LFE;
      GST_AUDIO_CHANNEL_POSITION_REAR_CENTER ];
    [ GST_AUDIO_CHANNEL_POSITION_FRONT_LEFT;
      GST_AUDIO_CHANNEL_POSITION_FRONT_RIGHT;
      GST_AUDIO_CHANNEL_POSITION_REAR_LEFT;
      GST_AUDIO_CHANNEL_POSITION_REAR_RIGHT;
      GST_AUDIO_CHANNEL_POSITION_FRONT_CENTER;
      GST_AUDIO_CHANNEL_POSITION_LFE;
      GST_AUDIO_CHANNEL_POSITION_SIDE_LEFT;
      GST_AUDIO_CHANNEL_POSITION_SIDE_RIGHT ] ].

(** [GST_VALUE_HOLDS_ARRAY (val) && gst_value_array_get_size (val) == chans],
    [chans] being a [guint]. *)
Definition holds_array_of_size (val : GValue) (chans : Z) : bool :=
  match val with
  | VArray l => Z.of_nat (length l) =? chans
  | _ => false
  end.

Definition holds_list (val : GValue) : bool :=
  match val with VList _ => true | _ => false end.

Fixpoint find_suitable_channel_layout (val : GValue) (chans : Z) : option GValue :=
  match val with
  | VArray l => if Z.of_nat (length l) =? chans then Some val else None
  | VList l =>
      (fix go (l : list GValue) : option GValue :=
         match l with
         | [] => None
         | v :: l' =>
             match find_suitable_channel_layout v chans with
             | Some ret => Some ret
             | None => go l'
             end
         end) l
  | _ => None
  end.

(** The last step of gst_audio_convert_fixate_channels: the default layout
    is stored when the table has a row for [out_chans], that is when
    [out_chans > 0 && out_chans <= G_N_ELEMENTS (default_positions[0])]. *)
Definition fixate_channels_default (outs : GstStructure) (out_chans : Z) : GstStructure :=
  if (0 <? out_chans) && (out_chans <=? 8) then
    match default_positions !! Z.to_nat (out_chans - 1) with
    | Some row => gst_audio_set_channel_positions outs row
    | None => outs
    end
  else outs.

(** The end of gst_audio_convert_fixate_channels, entered with the current
    [out_layout]: a list is searched for a layout of the right size, a
    layout of the right size is stored, and otherwise the default layout is
    used. *)
Definition fixate_channels_tail
    (outs : GstStructure) (out_chans : Z) (out_layout : option GValue) : GstStructure :=
  let out_layout :=
    match out_layout with
    | Some v =>
        if holds_list v then find_suitable_channel_layout v (guint_of_gint out_chans)
        else Some v
    | None => None
    end in
  match out_layout with
  | Some v =>
      if holds_array_of_size v (guint_of_gint out_chans)
      then gst_structure_set_value outs "channel-positions" v
      else fixate_channels_default outs out_chans
  | None => fixate_channels_default outs out_chans
  end.

Section Fixate.

(** gst_value_intersect: whether the two values have a value in common
    (the code drops the intersection itself). *)
Variable gst_value_intersect : GValue → GValue → bool.

Definition gst_audio_convert_fixate_channels (ins outs : GstStructure) : GstStructure :=
  match gst_structure_get_int ins "channels" with
  | None => outs
  | Some in_chans =>
    if negb (gst_structure_has_field outs "channels")
    then gst_structure_remove_field outs "channel-positions"
    else
      let outs := gst_structure_fixate_field_nearest_int outs "channels" in_chans in
      match gst_structure_get_int outs "channels" with
      | None => gst_structure_remove_field outs "channel-positions"
      | Some out_chans =>
        let out_layout := gst_structure_get_value outs "channel-positions" in
        let in_layout := gst_structure_get_value ins "channel-positions" in
        if bool_decide (out_layout = None) && (out_chans <=? 2)
           && (negb (in_chans =? out_chans) || bool_decide (in_layout = None))
        then outs
        else
          match (if in_chans =? out_chans then in_layout else None) with
          | Some in_layout =>
              match out_layout with
              | None => gst_structure_set_value outs "channel-positions" in_layout
              | Some out_layout =>
                  if holds_array_of_size out_layout (guint_of_gint out_chans) then outs
                  else if gst_value_intersect in_layout out_layout
                  then gst_structure_set_value outs "channel-positions" in_layout
                  else
                    match find_suitable_channel_layout out_layout (guint_of_gint out_chans) with
                    | Some found => gst_structure_set_value outs "channel-positions" found
                    | None => fixate_channels_tail outs out_chans None
                    end
              end
          | None => fixate_channels_tail outs out_chans out_layout
          end
      end
  end.

(** [ins] is the fixed input structure, [outs] the candidate.
    [stack_width] is the content of the local [width] when the input has
    no fixed width: the variable is then read without having been
    written. *)
Definition fixate_structure (stack_width : Z) (ins outs : GstStructure) : GstStructure :=
  let outs := gst_audio_convert_fixate_channels ins outs in
  let outs :=
    match gst_structure_get_int ins "rate" with
    | Some rate =>
        if gst_structure_has_field outs "rate"
        then gst_structure_fixate_field_nearest_int outs "rate" rate else outs
    | None => outs
    end in
  let outs :=
    match gst_structure_get_int ins "endianness" with
    | Some endianness =>
        if gst_structure_has_field outs "endianness"
        then gst_structure_fixate_field_nearest_int outs "endianness" endianness else outs
    | None => outs
    end in
  let width :=
    match gst_structure_get_int ins "width" with
    | Some width => width
    | None => stack_width
    end in
  let outs :=
    match gst_structure_get_int ins "width" with
    | Some _ =>
        if gst_structure_has_field outs "width"
        then gst_structure_fixate_field_nearest_int outs "width" width else outs
    | None => outs
    end in
  let outs :=
    match gst_structure_get_int ins "depth" with
    | Some depth =>
        if gst_structure_has_field outs "depth"
        then gst_structure_fixate_field_nearest_int outs "depth" depth else outs
    | None =>
        if gst_structure_has_field outs "depth"
        then gst_structure_fixate_field_nearest_int outs "depth" width else outs
    end in
  match gst_structure_get_boolean ins "signed" with
  | Some signedness =>
      if gst_structure_has_field outs "signed"
      then gst_structure_fixate_field_boolean outs "signed" signedness else outs
  | None => outs
  end.

(** The result is [othercaps] after the call: its first structure is
    fixated in place. *)
Definition gst_audio_convert_fixate_caps
    (stack_width : Z) (caps othercaps : GstCaps) : GstCaps :=
  if negb (gst_caps_is_fixed caps) then othercaps else
  match caps, othercaps with
  | ins :: _, outs :: rest => fixate_structure stack_width ins outs :: rest
  | _, _ => othercaps
  end.

End Fixate.

(** ** Expansion: gst_audio_convert_transform_caps *)

(** The loop of set_structure_widths, [for (width = min; width <= max;
    width += 8)].  [fuel] bounds the number of iterations. *)
Fixpoint widths_loop (fuel : nat) (width max : Z) : list GValue :=
  match fuel with
  | O => []
  | S fuel' =>
      if width <=? max then VInt width :: widths_loop fuel' (width + 8) max else []
  end.

Definition set_structure_widths (s : GstStructure) (min max : Z) : GstStructure :=
  if min =? max then gst_structure_set_value s "width" (VInt min)
  else gst_structure_set_value s "width"
         (VList (widths_loop (Z.to_nat (max - min + 1)) min max)).

Definition set_structure_widths_32_and_64 (s : GstStructure) : GstStructure :=
  gst_structure_set_value s "width" (VList [VInt 32; VInt 64]).

Definition make_lossless_changes (s : GstStructure) (isfloat : bool) : GstStructure :=
  let s := gst_structure_set_value s "endianness"
             (VList [VInt G_LITTLE_ENDIAN; VInt G_BIG_ENDIAN]) in
  if isfloat then
    let s := gst_structure_remove_field s "depth" in
    let s := gst_structure_remove_field s "signed" in
    set_structure_widths_32_and_64 s
  else
    gst_structure_set_value s "signed" (VList [VBoolean true; VBoolean false]).

Definition is_width_64 (v : GValue) : bool :=
  match v with VInt n => n =? 64 | _ => false end.

Definition strip_width_64 (s : GstStructure) : GstStructure :=
  match gst_structure_get_value s "width" with
  | Some (VList l) =>
      gst_structure_set_value s "width" (VList (filter (λ v, is_width_64 v = false) l))
  | _ => s
  end.

(** The structure append_with_other_format hands to
    gst_caps_merge_structure. *)
Definition other_format (s : GstStructure) (isfloat : bool) : GstStructure :=
  if isfloat then
    strip_width_64 (make_lossless_changes (gst_structure_set_name s "audio/x-raw-int") false)
  else
    make_lossless_changes (gst_structure_set_name s "audio/x-raw-float") true.

Definition fields_used : list string :=
  ["width"; "depth"; "rate"; "channels"; "endianness"; "signed"].

(** The body of the loop over [fields_used]: a field of [structure] is
    copied to [s] when [structure] has it. *)
Definition copy_field (structure s : GstStructure) (f : string) : GstStructure :=
  match gst_structure_get_value structure f with
  | Some v => gst_structure_set_value s f v
  | None => s
  end.

(** The block that lets width and depth grow up to 32 bits, for an integer
    input whose width and depth are fixed. *)
Definition grow_width_depth (structure s : GstStructure) : GstStructure :=
  let s :=
    match gst_structure_get_int structure "width" with
    | Some width => set_structure_widths s width 32
    | None => s
    end in
  match gst_structure_get_int structure "depth" with
  | Some depth =>
      if depth =? 32 then gst_structure_set_value s "depth" (VInt 32)
      else gst_structure_set_value s "depth" (VIntRange depth 32)
  | None => s
  end.

(** The stages of the expansion, one for each structure handed to
    gst_caps_merge_structure: the lossless variants (A), growing width,
    depth and channels (B), reducing the depth down to 16 bits (C), reducing
    channels (D) and any supported width and depth (E); a primed tier is the
    float/int counterpart built by append_with_other_format. *)
Inductive Tier :=
  | TierA | TierA' | TierB | TierB' | TierC | TierD | TierD' | TierE.

Section Transform.

Variable gst_audio_get_channel_positions :
  GstStructure → option (list GstAudioChannelPosition).

(** gst_structure_is_subset, used by gst_caps_merge_structure. *)
Variable gst_structure_is_subset : GstStructure → GstStructure → bool.

(** gst_caps_is_subset_structure. *)
Variable gst_caps_is_subset_structure : GstCaps → GstStructure → bool.

(** gst_caps_intersect_full with GST_CAPS_INTERSECT_FIRST. *)
Variable gst_caps_intersect_full : GstCaps → GstCaps → GstCaps.

(** Modelled from the spec: gst_caps_merge_structure, "descriptors later
    found to be subsets of earlier ones are redundant and may be
    dropped"; otherwise the structure is appended. *)
Definition gst_caps_merge_structure (caps : GstCaps) (s : GstStructure) : GstCaps :=
  if existsb (gst_structure_is_subset s) caps then caps else caps ++ [s].

(** The working structure [s] before the first merge. *)
Definition stripped (structure : GstStructure) : GstStructure :=
  let isfloat := String.eqb (name structure) "audio/x-raw-float" in
  let s :=
    foldl (copy_field structure)
          (gst_structure_empty_new (name structure)) fields_used in
  if negb isfloat then
    if negb (gst_structure_has_field s "depth") then
      match gst_structure_get_int s "width" with
      | Some width => gst_structure_set_value s "depth" (VInt width)
      | None => s
      end
    else s
  else s.

(** [channels] after [gst_structure_get_int (structure, "channels",
    &channels)]; the variable lives outside the loop over the structures
    and keeps its value [channels0] when the call fails. *)
Definition channels_of (channels0 : Z) (structure : GstStructure) : Z :=
  match gst_structure_get_int structure "channels" with
  | Some c => c
  | None => channels0
  end.

Definition allow_mixing (structure : GstStructure) : bool :=
  match gst_structure_get_int structure "channels" with
  | Some _ =>
      match structure_has_fixed_channel_positions
              gst_audio_get_channel_positions structure with
      | Some unpositioned => negb unpositioned
      | None => true
      end
  | None => true
  end.

(** Pinning the channels and the layout of the input, the branch taken
    when mixing is not allowed. *)
Definition pin_channels (s structure : GstStructure) (channels : Z) : GstStructure :=
  let s := gst_structure_set_value s "channels" (VInt channels) in
  match gst_structure_get_value structure "channel-positions" with
  | Some v => gst_structure_set_value s "channel-positions" v
  | None => s
  end.

Definition tierA_structure (structure : GstStructure) : GstStructure :=
  make_lossless_changes (stripped structure)
    (String.eqb (name structure) "audio/x-raw-float").

Definition tierB_structure (channels0 : Z) (structure : GstStructure) : GstStructure :=
  let isfloat := String.eqb (name structure) "audio/x-raw-float" in
  let s := tierA_structure structure in
  let s := if negb isfloat then grow_width_depth structure s else s in
  let channels := channels_of channels0 structure in
  if negb (allow_mixing structure) then pin_channels s structure channels
  else
    let s :=
      if channels =? 0 then gst_structure_set_value s "channels" (VIntRange 1 11)
      else if channels =? 11 then gst_structure_set_value s "channels" (VInt 11)
      else gst_structure_set_value s "channels" (VIntRange channels 11) in
    gst_structure_remove_field s "channel-positions".

(** The structures merged between tiers B and D. *)
Definition tierC_structures (channels0 : Z) (structure : GstStructure)
    : list (Tier * GstStructure) :=
  let isfloat := String.eqb (name structure) "audio/x-raw-float" in
  let s := tierB_structure channels0 structure in
  if match gst_structure_get_int structure "width" with
     | Some width => width >? 16
     | None => true
     end
  then
    if isfloat then [(TierC, other_format (set_structure_widths_32_and_64 s) true)]
    else [(TierC, gst_structure_set_value (set_structure_widths s 16 32)
                    "depth" (VIntRange 16 32))]
  else [].

Definition tierD_structure (channels0 : Z) (structure : GstStructure) : GstStructure :=
  let s := tierB_structure channels0 structure in
  if allow_mixing structure then
    gst_structure_remove_field
      (gst_structure_set_value s "channels" (VIntRange 1 11)) "channel-positions"
  else pin_channels s structure (channels_of channels0 structure).

Definition tierE_structure (channels0 : Z) (structure : GstStructure) : GstStructure :=
  let isfloat := String.eqb (name structure) "audio/x-raw-float" in
  let s := tierD_structure channels0 structure in
  let s := gst_structure_set_value (set_structure_widths s 8 32) "depth" (VIntRange 1 32) in
  if isfloat then other_format s true else s.

(** The structures one input structure hands to gst_caps_merge_structure,
    in the order of the calls. *)
Definition transform_structure (channels0 : Z) (structure : GstStructure)
    : list (Tier * GstStructure) :=
  let isfloat := String.eqb (name structure) "audio/x-raw-float" in
  [ (TierA, tierA_structure structure);
    (TierA', other_format (tierA_structure structure) isfloat);
    (TierB, tierB_structure channels0 structure);
    (TierB', other_format (tierB_structure channels0 structure) isfloat) ]
  ++ tierC_structures channels0 structure ++
  [ (TierD, tierD_structure channels0 structure);
    (TierD', other_format (tierD_structure channels0 structure) isfloat);
    (TierE, tierE_structure channels0 structure) ].

(** The loop over the structures of [caps]; [j] is the index of the
    current structure, [ret] the caps built so far and [channels] the
    local variable of that name. *)
Fixpoint transform_loop (j : nat) (structures : list GstStructure)
    (ret : GstCaps) (channels : Z) : GstCaps :=
  match structures with
  | [] => ret
  | structure :: rest =>
      if bool_decide (0 < j)%nat && gst_caps_is_subset_structure ret structure
      then transform_loop (S j) rest ret channels
      else
        transform_loop (S j) rest
          (foldl gst_caps_merge_structure ret (transform_structure channels structure).*2)
          (channels_of channels structure)
  end.

Definition gst_audio_convert_transform_caps (caps : GstCaps) (filter : option GstCaps)
    : GstCaps :=
  let ret := transform_loop 0 caps [] 0 in
  match filter with
  | Some filter => gst_caps_intersect_full filter ret
  | None => ret
  end.

End Transform.

(** ** Vocabulary of the statements *)

(** The integers a field constraint allows. *)
Definition allowed (c : GValue) (x : Z) : Prop :=
  match c with
  | VInt n => x = n
  | VIntRange lo hi => lo ≤ x ≤ hi
  | VList l => VInt x ∈ l
  | _ => False
  end.

(** A candidate has freedom in a field when fixation has something to
    choose from: a range that is not empty, or a list that offers an
    integer. *)
Definition has_freedom (c : GValue) : Prop :=
  match c with
  | VIntRange lo hi => lo ≤ hi
  | VList l => ∃ x, VInt x ∈ l
  | _ => False
  end.

(** [v] is the value of [P] nearest to [target], the lower one of two values
    at the same distance. *)
Definition nearest_of (P : Z → Prop) (target v : Z) : Prop :=
  P v ∧ ∀ x, P x →
    Z.abs (target - v) < Z.abs (target - x)
    ∨ (Z.abs (target - v) = Z.abs (target - x) ∧ v ≤ x).

Definition is_nearest (c : GValue) (target v : Z) : Prop :=
  nearest_of (allowed c) target v.

(** The layout of the default table for a channel count the table covers. *)
Definition default_layout (chans : Z) : option GValue :=
  (λ row, VArray (VPosition <$> row)) <$> default_positions !! Z.to_nat (chans - 1).

(** The candidate after the fixation of its channel count alone. *)
Definition with_fixated_channels (outs : GstStructure) (in_chans : Z) : GstStructure :=
  gst_structure_fixate_field_nearest_int outs "channels" in_chans.

(** No layout can be taken from the candidate or from the input: the
    candidate's layout constraint, if there is one, holds no layout for
    [out_chans] channels, and the input's layout cannot be used, because
    the counts differ, or the input has none, or it does not intersect the
    candidate's constraint. *)
Definition no_layout_resolved (intersect : GValue → GValue → bool)
    (ins outs : GstStructure) (in_chans out_chans : Z) : Prop :=
  match gst_structure_get_value outs "channel-positions" with
  | None =>
      in_chans ≠ out_chans ∨ gst_structure_get_value ins "channel-positions" = None
  | Some v =>
      find_suitable_channel_layout v (guint_of_gint out_chans) = None
      ∧ (in_chans = out_chans →
         ∀ iv, gst_structure_get_value ins "channel-positions" = Some iv →
               intersect iv v = false)
  end.

(** The channels constraint of tier B when mixing is allowed, for the
    input's channel count. *)
Definition grown_channels (channels : Z) : GValue :=
  if channels =? 0 then VIntRange 1 11
  else if channels =? 11 then VInt 11
  else VIntRange channels 11.

(** ** Sample inputs *)

(** A reader of the layout field, the simplest function that can stand for
    gst_audio_get_channel_positions: the positions of an array of
    positions. *)
Definition position_of_value (v : GValue) : option GstAudioChannelPosition :=
  match v with VPosition p => Some p | _ => None end.

Definition read_channel_positions (s : GstStructure)
    : option (list GstAudioChannelPosition) :=
  match gst_structure_get_value s "channel-positions" with
  | Some (VArray l) => mapM position_of_value l
  | _ => None
  end.

Definition raw_int (l : list (string * GValue)) : GstStructure :=
  mkStructure "audio/x-raw-int" (list_to_map l).

(** 16-bit stereo at 44100 Hz, without a layout. *)
Definition cd_stereo : GstStructure :=
  raw_int [("rate", VInt 44100); ("channels", VInt 2); ("endianness", VInt 1234);
           ("width", VInt 16); ("depth", VInt 16); ("signed", VBoolean true)].

(** A depth of 24 bits in a width of 16. *)
Definition cd_mono_bad_depth : GstStructure :=
  raw_int [("rate", VInt 44100); ("channels", VInt 1); ("endianness", VInt 1234);
           ("width", VInt 16); ("depth", VInt 24); ("signed", VBoolean true)].

(** Six channels without a layout. *)
Definition six_channels : GstStructure :=
  raw_int [("rate", VInt 48000); ("channels", VInt 6); ("endianness", VInt 1234);
           ("width", VInt 16); ("depth", VInt 16); ("signed", VBoolean true)].

(** Ten channels without a layout. *)
Definition ten_channels : GstStructure :=
  raw_int [("rate", VInt 48000); ("channels", VInt 10); ("endianness", VInt 1234);
           ("width", VInt 16); ("depth", VInt 16); ("signed", VBoolean true)].

(** Five channels, none of them positioned. *)
Definition unpositioned_five : GstStructure :=
  raw_int [("rate", VInt 48000); ("channels", VInt 5); ("endianness", VInt 1234);
           ("width", VInt 16); ("depth", VInt 16); ("signed", VBoolean true);
           ("channel-positions",
            VArray (replicate 5 (VPosition GST_AUDIO_CHANNEL_POSITION_NONE)))].

(** An input of width 8 that leaves the depth out, and a candidate that
    only offers wider samples. *)
Definition narrow_input : GstStructure := raw_int [("width", VInt 8)].

Definition wide_candidate : GstStructure :=
  raw_int [("width", VIntRange 16 32); ("depth", VIntRange 1 32)].

(** An input of width 24 and a candidate offering 16 and 32 bits. *)
Definition input_24 : GstStructure :=
  raw_int [("rate", VInt 44100); ("width", VInt 24)].

Definition candidate_16_32 : GstStructure :=
  raw_int [("rate", VIntRange 8000 48000); ("width", VList [VInt 16; VInt 32])].

(** Channel counts alone: two fixed channels, and six to eight. *)
Definition two_channels : GstStructure := raw_int [("channels", VInt 2)].

Definition six_to_eight_channels : GstStructure :=
  raw_int [("channels", VIntRange 6 8)].

(** A structure that leaves the channels out. *)
Definition no_channel_count : GstStructure :=
  raw_int [("rate", VInt 8000); ("endianness", VInt 1234);
           ("width", VInt 16); ("depth", VInt 16); ("signed", VBoolean true)].

(** The format a caller declares with [AudioConvertFmt fmt = { 0 }]. *)
Definition zero_fmt : AudioConvertFmt := mkFmt false 0 0 0 0 [] false false 0 0.

(** The positions of one channel, whatever the structure, and a cleaner
    that releases the positions and leaves the other fields: functions that
    gst_audio_get_channel_positions and audio_convert_clean_fmt can be. *)
Definition mono_positions (s : GstStructure) : option (list GstAudioChannelPosition) :=
  default_positions !! 0%nat.

Definition release_positions (fmt : AudioConvertFmt) : AudioConvertFmt :=
  set_pos fmt [].

(** ** Setting the caps: gst_audio_convert_set_caps *)

(** The dithering and noise-shaping modes the element registers. *)
Inductive GstAudioConvertDithering :=
  | DITHER_NONE | DITHER_RPDF | DITHER_TPDF | DITHER_TPDF_HF.

Inductive GstAudioConvertNoiseShaping :=
  | NOISE_SHAPING_NONE | NOISE_SHAPING_ERROR_FEEDBACK
  | NOISE_SHAPING_SIMPLE | NOISE_SHAPING_MEDIUM | NOISE_SHAPING_HIGH.

(** The part of [AudioConvertCtx] the element reads: the input and the
    output format. *)
Record AudioConvertCtx := mkCtx {
  ctx_in : AudioConvertFmt;
  ctx_out : AudioConvertFmt
}.

Record GstAudioConvert := mkConvert {
  dither : GstAudioConvertDithering;
  ns : GstAudioConvertNoiseShaping;
  ctx : AudioConvertCtx
}.

Section SetCaps.

Variable gst_audio_get_channel_positions :
  GstStructure → option (list GstAudioChannelPosition).

Variable G_BYTE_ORDER : Z.

(** audio_convert_prepare_context (audioconvert.c): its return value and
    the context it leaves. *)
Variable audio_convert_prepare_context :
  AudioConvertCtx → AudioConvertFmt → AudioConvertFmt →
  GstAudioConvertDithering → GstAudioConvertNoiseShaping → bool * AudioConvertCtx.

Definition gst_audio_convert_set_caps (this : GstAudioConvert) (incaps outcaps : GstCaps)
    : bool * GstAudioConvert :=
  match gst_audio_convert_parse_caps gst_audio_get_channel_positions G_BYTE_ORDER incaps with
  | inr _ => (false, this)
  | inl in_ac_caps =>
      match gst_audio_convert_parse_caps gst_audio_get_channel_positions G_BYTE_ORDER
              outcaps with
      | inr _ => (false, this)
      | inl out_ac_caps =>
          let '(ok, ctx') :=
            audio_convert_prepare_context (ctx this) in_ac_caps out_ac_caps
              (dither this) (ns this) in
          (ok, mkConvert (dither this) (ns this) ctx')
      end
  end.

End SetCaps.

(** ** Vocabulary of the further statements *)

(** What make_lossless_changes leaves of a float structure: the widths 32
    and 64, and neither depth nor signedness. *)
Definition float_shape (d : GstStructure) : Prop :=
  gst_structure_get_value d "width" = Some (VList [VInt 32; VInt 64])
  ∧ gst_structure_has_field d "depth" = false
  ∧ gst_structure_has_field d "signed" = false.

(** [layout_in r val]: [r] is [val] itself or is reached from [val] through
    lists of alternatives. *)
Inductive layout_in (r : GValue) : GValue → Prop :=
  | layout_in_here : layout_in r r
  | layout_in_list l v : v ∈ l → layout_in r v → layout_in r (VList l).

(** A field of the candidate that fixation against [ins] settles: it is
    fixed already, or the code has a value of the input to aim at and the
    field something to choose from. *)
Definition fixable (ins : GstStructure) (f : string) (v : GValue) : Prop :=
  gst_value_is_fixed v = true
  ∨ (f ∈ ["channels"; "rate"; "endianness"; "width"]
     ∧ has_freedom v ∧ is_Some (gst_structure_get_int ins f))
  ∨ (f = "depth" ∧ has_freedom v)
  ∨ (f = "signed" ∧ (∃ l, v = VList l ∧ is_Some (first_boolean l))
     ∧ is_Some (gst_structure_get_boolean ins "signed")).

(** ** Silence: gst_audio_convert_create_silence_buffer *)

(** Memory is a list of bytes.  A store outside the list is a write outside
    the buffer in C; the list functions used here then change nothing, or,
    for [memset], let the list grow, so the statements below keep the sizes
    within the buffer. *)

(** A counting loop [for (i = start; i < bound; i += step) body], bounded
    by [fuel]. *)
Fixpoint for_loop {A} (fuel : nat) (i bound step : Z) (body : Z → A → A) (a : A) : A :=
  match fuel with
  | O => a
  | S fuel' =>
      if i <? bound then for_loop fuel' (i + step) bound step body (body i a) else a
  end.

Definition memset (dst : list Z) (c : Z) (n : Z) : list Z :=
  replicate (Z.to_nat n) c ++ drop (Z.to_nat n) dst.

Definition GUINT16_SWAP_LE_BE (x : Z) : Z := (x `mod` 256) * 256 + (x / 256) `mod` 256.

Definition GUINT32_SWAP_LE_BE (x : Z) : Z :=
  (x `mod` 256) * 2 ^ 24 + ((x / 2 ^ 8) `mod` 256) * 2 ^ 16
  + ((x / 2 ^ 16) `mod` 256) * 2 ^ 8 + (x / 2 ^ 24) `mod` 256.

(** The bytes of a 16-bit and of a 32-bit word in the memory of a host of
    byte order [host]. *)
Definition host_bytes16 (host x : Z) : list Z :=
  if host =? G_LITTLE_ENDIAN then [x `mod` 256; (x / 256) `mod` 256]
  else [(x / 256) `mod` 256; x `mod` 256].

Definition host_bytes32 (host x : Z) : list Z :=
  if host =? G_LITTLE_ENDIAN
  then [x `mod` 256; (x / 2 ^ 8) `mod` 256; (x / 2 ^ 16) `mod` 256; (x / 2 ^ 24) `mod` 256]
  else [(x / 2 ^ 24) `mod` 256; (x / 2 ^ 16) `mod` 256; (x / 2 ^ 8) `mod` 256; x `mod` 256].

Section Silence.

(** The byte order of the host, [G_BYTE_ORDER]. *)
Variable G_BYTE_ORDER : Z.

Definition GUINT16_TO_LE (x : Z) : Z :=
  if G_BYTE_ORDER =? G_LITTLE_ENDIAN then x else GUINT16_SWAP_LE_BE x.

Definition GUINT16_TO_BE (x : Z) : Z :=
  if G_BYTE_ORDER =? G_LITTLE_ENDIAN then GUINT16_SWAP_LE_BE x else x.

Definition GUINT32_TO_LE (x : Z) : Z :=
  if G_BYTE_ORDER =? G_LITTLE_ENDIAN then x else GUINT32_SWAP_LE_BE x.

Definition GUINT32_TO_BE (x : Z) : Z :=
  if G_BYTE_ORDER =? G_LITTLE_ENDIAN then GUINT32_SWAP_LE_BE x else x.

(** [data[i] = x] through a [guint16 *] and through a [guint32 *]. *)
Definition store16 (data : list Z) (i x : Z) : list Z :=
  list_inserts (Z.to_nat (2 * i)) (host_bytes16 G_BYTE_ORDER x) data.

Definition store32 (data : list Z) (i x : Z) : list Z :=
  list_inserts (Z.to_nat (4 * i)) (host_bytes32 G_BYTE_ORDER x) data.

(** [data[i] = x] through a [guint8 *]. *)
Definition store8 (data : list Z) (i x : Z) : list Z :=
  <[Z.to_nat i := x `mod` 256]> data.

(** [out] is [this->ctx.out]. *)
Definition gst_audio_convert_create_silence_buffer
    (out : AudioConvertFmt) (dst : list Z) (size : Z) : list Z :=
  if is_int out && negb (sign out) then
    if width out =? 8 then
      let zero := (Z.shiftr 128 (8 - depth out)) `mod` 2 ^ 8 in
      memset dst zero size
    else if width out =? 16 then
      let zero := (Z.shiftr 32768 (16 - depth out)) `mod` 2 ^ 16 in
      let zero :=
        if endianness out =? G_LITTLE_ENDIAN then GUINT16_TO_LE zero
        else GUINT16_TO_BE zero in
      let size := size ÷ 2 in
      for_loop (Z.to_nat size) 0 size 1 (λ i data, store16 data i zero) dst
    else if width out =? 24 then
      let zero := (Z.shiftr 8388608 (24 - depth out)) `mod` 2 ^ 32 in
      if endianness out =? G_LITTLE_ENDIAN then
        for_loop (Z.to_nat size) 0 size 3
          (λ i data,
             let data := store8 data i (Z.land zero 255) in
             let data := store8 data (i + 1) (Z.land (Z.shiftr zero 8) 255) in
             store8 data (i + 2) (Z.land (Z.shiftr zero 16) 255))
          dst
      else
        for_loop (Z.to_nat size) 0 size 3
          (λ i data,
             let data := store8 data (i + 2) (Z.land zero 255) in
             let data := store8 data (i + 1) (Z.land (Z.shiftr zero 8) 255) in
             store8 data i (Z.land (Z.shiftr zero 16) 255))
          dst
    else if width out =? 32 then
      let zero := (Z.shiftr 2147483648 (32 - depth out)) `mod` 2 ^ 32 in
      let zero :=
        if endianness out =? G_LITTLE_ENDIAN then GUINT32_TO_LE zero
        else GUINT32_TO_BE zero in
      let size := size ÷ 4 in
      for_loop (Z.to_nat size) 0 size 1 (λ i data, store32 data i zero) dst
    else memset dst 0 size
  else memset dst 0 size.

End Silence.

(** ** Converting a buffer: gst_audio_convert_transform *)

(** A buffer: its bytes, the GAP flag and whether it is writable. *)
Record GstBuffer := mkBuffer {
  buf_data : list Z;
  buf_flag_gap : bool;
  buf_writable : bool
}.

Inductive GstFlowReturn := GST_FLOW_OK | GST_FLOW_ERROR.

Section TransformBuffer.

Variable G_BYTE_ORDER : Z.

(** audio_convert_get_sizes (audioconvert.c): the input and the output size
    for a number of samples, or a failure. *)
Variable audio_convert_get_sizes : AudioConvertCtx → Z → option (Z * Z).

(** audio_convert_convert (audioconvert.c): its return value and the
    destination memory it leaves. *)
Variable audio_convert_convert :
  AudioConvertCtx → list Z → list Z → Z → bool → bool * list Z.

(** The result is the flow return and the memory of [outbuf] after the
    call; [None] is the division by a unit size of zero. *)
Definition gst_audio_convert_transform
    (this : GstAudioConvert) (inbuf : GstBuffer) (outbuf : list Z)
    : option (GstFlowReturn * list Z) :=
  match transform_samples (Z.of_nat (length (buf_data inbuf)))
          (unit_size (ctx_in (ctx this))) with
  | None => None
  | Some samples =>
      match audio_convert_get_sizes (ctx this) samples with
      | None => Some (GST_FLOW_ERROR, outbuf)
      | Some (insize, outsize) =>
          if (insize =? 0) || (outsize =? 0) then Some (GST_FLOW_OK, outbuf)
          else
            let src := buf_data inbuf in
            let dst := outbuf in
            let srcsize := Z.of_nat (length src) in
            let dstsize := Z.of_nat (length dst) in
            if srcsize <? gsize_of_gint insize then Some (GST_FLOW_ERROR, dst)
            else if dstsize <? gsize_of_gint outsize then Some (GST_FLOW_ERROR, dst)
            else if negb (buf_flag_gap inbuf) then
              let '(ok, dst') :=
                audio_convert_convert (ctx this) src dst samples (buf_writable inbuf) in
              Some (if ok then GST_FLOW_OK else GST_FLOW_ERROR, dst')
            else
              Some (GST_FLOW_OK,
                    gst_audio_convert_create_silence_buffer G_BYTE_ORDER
                      (ctx_out (ctx this)) dst outsize)
      end
  end.

End TransformBuffer.

(** ** Vocabulary of the statements about samples *)

(** The value of a little-endian and of a big-endian sequence of bytes. *)
Definition decode_le (bs : list Z) : Z := foldr (λ b acc, b + 256 * acc) 0 bs.

Definition decode_be (bs : list Z) : Z := decode_le (reverse bs).

(** Sample [k] of a memory of samples of [bps] bytes each, read in the byte
    order [endianness]. *)
Definition read_sample (endianness : Z) (mem : list Z) (bps k : nat) : Z :=
  let bytes := take bps (drop (k * bps) mem) in
  if endianness =? G_LITTLE_ENDIAN then decode_le bytes else decode_be bytes.

(** The bytes one sample of silence takes, by width, for a host byte order
    and the byte order of the format ([le]: little endian). *)
Definition silence_bytes (host : Z) (le : bool) (w d : Z) : list Z :=
  if w =? 8 then [(Z.shiftr 128 (8 - d)) `mod` 2 ^ 8]
  else if w =? 16 then
    let zero := (Z.shiftr 32768 (16 - d)) `mod` 2 ^ 16 in
    host_bytes16 host (if le then GUINT16_TO_LE host zero else GUINT16_TO_BE host zero)
  else if w =? 24 then
    let zero := (Z.shiftr 8388608 (24 - d)) `mod` 2 ^ 32 in
    let lo := (Z.land zero 255) `mod` 256 in
    let mid := (Z.land (Z.shiftr zero 8) 255) `mod` 256 in
    let hi := (Z.land (Z.shiftr zero 16) 255) `mod` 256 in
    if le then [lo; mid; hi] else [hi; mid; lo]
  else
    let zero := (Z.shiftr 2147483648 (32 - d)) `mod` 2 ^ 32 in
    host_bytes32 host (if le then GUINT32_TO_LE host zero else GUINT32_TO_BE host zero).

(** ** Further sample inputs *)

(** [cd_stereo] with a field the element does not know. *)
Definition cd_stereo_tagged : GstStructure :=
  raw_int [("rate", VInt 44100); ("channels", VInt 2); ("endianness", VInt 1234);
           ("width", VInt 16); ("depth", VInt 16); ("signed", VBoolean true);
           ("buffer-frames", VInt 0)].

(** 32-bit float stereo at 44100 Hz. *)
Definition float_stereo : GstStructure :=
  mkStructure "audio/x-raw-float"
    (list_to_map [("rate", VInt 44100); ("channels", VInt 2);
                  ("endianness", VInt 1234); ("width", VInt 32)]).

(** The format [cd_stereo] parses to when the layout is the default one,
    and an unsigned big-endian format of 12 bits in 16. *)
Definition s16_stereo_format : AudioConvertFmt :=
  mkFmt true 1234 16 44100 2
    [GST_AUDIO_CHANNEL_POSITION_FRONT_LEFT; GST_AUDIO_CHANNEL_POSITION_FRONT_RIGHT]
    false true 16 4.

Definition u12_stereo_format : AudioConvertFmt :=
  mkFmt true 4321 16 44100 2
    [GST_AUDIO_CHANNEL_POSITION_FRONT_LEFT; GST_AUDIO_CHANNEL_POSITION_FRONT_RIGHT]
    false false 12 4.

(** An element that converts [s16_stereo_format] to itself, a converter
    whose sizes are the number of samples times the unit sizes, and an input
    buffer of two samples with the GAP flag. *)
Definition stereo_convert : GstAudioConvert :=
  mkConvert DITHER_NONE NOISE_SHAPING_NONE (mkCtx s16_stereo_format s16_stereo_format).

Definition prepare_formats (c : AudioConvertCtx) (fin fout : AudioConvertFmt)
    (d : GstAudioConvertDithering) (n : GstAudioConvertNoiseShaping)
    : bool * AudioConvertCtx :=
  (true, mkCtx fin fout).

Definition sizes_by_unit (c : AudioConvertCtx) (samples : Z) : option (Z * Z) :=
  Some (samples * unit_size (ctx_in c), samples * unit_size (ctx_out c)).

Definition convert_by_copy (c : AudioConvertCtx) (src dst : list Z) (samples : Z)
    (writable : bool) : bool * list Z :=
  (true, src).

Definition gap_buffer : GstBuffer := mkBuffer (replicate 8 7) true false.

(** A layout for two channels, and a constraint that offers a layout for one
    channel and that one. *)
Definition stereo_layout : GValue :=
  VArray [VPosition GST_AUDIO_CHANNEL_POSITION_FRONT_LEFT;
          VPosition GST_AUDIO_CHANNEL_POSITION_FRONT_RIGHT].

Definition mono_or_stereo_layout : GValue :=
  VList [VArray [VPosition GST_AUDIO_CHANNEL_POSITION_FRONT_MONO]; stereo_layout].

(** Two channels in [stereo_layout], and a candidate for one or two
    channels in [mono_or_stereo_layout]. *)
Definition stereo_positioned : GstStructure :=
  raw_int [("channels", VInt 2); ("channel-positions", stereo_layout)].


(** * The set of file descriptors of gst/tcp/gstfdset.c

    The fd_set of select is a finite set of descriptors; it has room for the
    descriptors below FD_SETSIZE only.  The array of
    [struct pollfd] is a list that holds the whole allocation: entry [i] is
    [set->pollfds[i]], and the entries the code has not written yet hold
    whatever the allocator left there.  An access outside the allocation
    makes an operation fail ([None]). *)

Module FDSet.

Definition MIN_POLLFDS : Z := 64.

(** [sizeof (struct pollfd)]: an [int] and two [short]s. *)
Definition sizeof_pollfd : Z := 8.

(** The event bits of <sys/poll.h>, as Linux defines them. *)
Definition POLLIN : Z := 1.
Definition POLLPRI : Z := 2.
Definition POLLOUT : Z := 4.
Definition POLLERR : Z := 8.
Definition POLLHUP : Z := 16.
Definition POLLNVAL : Z := 32.

Inductive GstFDSetMode :=
  | GST_FDSET_MODE_SELECT | GST_FDSET_MODE_POLL | GST_FDSET_MODE_EPOLL.

Record pollfd := mkPollfd {
  pollfd_fd : Z;
  events : Z;
  revents : Z
}.

(** [GstFD] of gstfdset.h: the descriptor and its index in the array. *)
Record GstFD := mkFD {
  fd : Z;
  idx : Z
}.

Record GstFDSet := mkSet {
  mode : GstFDSetMode;
  pollfds : list pollfd;
  last_pollfds : Z;
  size : Z;
  free : Z;
  readfds : gset Z;
  writefds : gset Z;
  testreadfds : gset Z;
  testwritefds : gset Z
}.

(** The macros of <sys/select.h>; a descriptor outside [0, FD_SETSIZE) is an
    access outside the fd_set. *)
Definition FD_SETSIZE : Z := 1024.

Definition fd_in_range (x : Z) : bool := (0 <=? x) && (x <? FD_SETSIZE).

Definition FD_SET (x : Z) (s : gset Z) : option (gset Z) :=
  if fd_in_range x then Some ({[x]} ∪ s) else None.

Definition FD_CLR (x : Z) (s : gset Z) : option (gset Z) :=
  if fd_in_range x then Some (s ∖ {[x]}) else None.

Definition FD_ISSET (x : Z) (s : gset Z) : option bool :=
  if fd_in_range x then Some (bool_decide (x ∈ s)) else None.

(** A value stored into a [guint]. *)
Definition guint_wrap (z : Z) : Z := z `mod` 2 ^ 32.

(** The loop of nearest_pow, [while (n < num) n <<= 1], on a [gint] that
    wraps around; [None] when [fuel] iterations do not end it. *)
Fixpoint nearest_pow_loop (fuel : nat) (n num : Z) : option Z :=
  match fuel with
  | O => None
  | S fuel' =>
      if n <? num then nearest_pow_loop fuel' (gint_wrap (n * 2)) num else Some n
  end.

Definition nearest_pow (num : Z) : option Z := nearest_pow_loop 64 1 num.

Section Allocator.

(** What the allocator leaves in the entries it adds to the array. *)
Variable uninitialized : nat → pollfd.

(** g_realloc of the array to [need] bytes: the entries that fit are kept,
    new entries are not initialised. *)
Definition g_realloc (l : list pollfd) (need : Z) : list pollfd :=
  let entries := Z.to_nat (need / sizeof_pollfd) in
  take entries l ++ (uninitialized <$> seq (length l) (entries - length l)).

Definition ensure_size (set : GstFDSet) (len : Z) : option GstFDSet :=
  let need := guint_wrap (len * sizeof_pollfd) in
  if need >? guint_of_gint (size set) then
    match nearest_pow (gint_wrap need) with
    | None => None
    | Some p =>
        let need := guint_wrap p in
        let need := guint_wrap (Z.max need (MIN_POLLFDS * sizeof_pollfd)) in
        Some (mkSet (mode set) (g_realloc (pollfds set) need) (last_pollfds set)
                (gint_wrap need) (free set)
                (readfds set) (writefds set) (testreadfds set) (testwritefds set))
    end
  else Some set.

(** g_new0 clears the whole structure. *)
Definition gst_fdset_new (mode : GstFDSetMode) : option GstFDSet :=
  let nset := mkSet mode [] 0 0 0 ∅ ∅ ∅ ∅ in
  match mode with
  | GST_FDSET_MODE_SELECT => Some nset
  | GST_FDSET_MODE_POLL => ensure_size nset MIN_POLLFDS
  | GST_FDSET_MODE_EPOLL => Some nset
  end.

(** The search for a free entry in gst_fdset_add_fd,
    [while (idx < set->last_pollfds) { idx++; if (set->pollfds[idx].fd == -1)
    break; }]. *)
Fixpoint find_free (fuel : nat) (idx last : Z) (l : list pollfd) : option Z :=
  match fuel with
  | O => None
  | S fuel' =>
      if idx <? last then
        let idx := idx + 1 in
        if idx <? 0 then None else
        match l !! Z.to_nat idx with
        | None => None
        | Some p => if pollfd_fd p =? -1 then Some idx else find_free fuel' idx last l
        end
      else Some idx
  end.

(** An assignment to [set->pollfds[i]]. *)
Definition write_pollfd (l : list pollfd) (i : Z) (p : pollfd) : option (list pollfd) :=
  if (i <? 0) || (Z.of_nat (length l) <=? i) then None
  else Some (<[Z.to_nat i := p]> l).

Definition read_pollfd (l : list pollfd) (i : Z) : option pollfd :=
  if i <? 0 then None else l !! Z.to_nat i.

Definition gst_fdset_add_fd (set : GstFDSet) (fd_ : GstFD) : option (GstFDSet * GstFD) :=
  match mode set with
  | GST_FDSET_MODE_SELECT => Some (set, fd_)
  | GST_FDSET_MODE_POLL =>
      match ensure_size set (last_pollfds set + 1) with
      | None => None
      | Some set =>
          match (if free set =? -1
                 then find_free (Z.to_nat (last_pollfds set + 2)) (free set)
                        (last_pollfds set) (pollfds set)
                 else Some (free set)) with
          | None => None
          | Some idx =>
              match write_pollfd (pollfds set) idx (mkPollfd (fd fd_) 0 0) with
              | None => None
              | Some l =>
                  Some (mkSet (mode set) l (Z.max (idx + 1) (last_pollfds set))
                          (size set) (-1)
                          (readfds set) (writefds set)
                          (testreadfds set) (testwritefds set),
                        mkFD (fd fd_) idx)
              end
          end
      end
  | GST_FDSET_MODE_EPOLL => Some (set, fd_)
  end.

End Allocator.

Definition gst_fdset_remove_fd (set : GstFDSet) (fd_ : GstFD) : option (GstFDSet * GstFD) :=
  match mode set with
  | GST_FDSET_MODE_SELECT =>
      match FD_CLR (fd fd_) (writefds set) with
      | None => None
      | Some w =>
          match FD_CLR (fd fd_) (readfds set) with
          | None => None
          | Some r =>
              Some (mkSet (mode set) (pollfds set) (last_pollfds set) (size set)
                      (free set) r w (testreadfds set) (testwritefds set),
                    fd_)
          end
      end
  | GST_FDSET_MODE_POLL =>
      match write_pollfd (pollfds set) (idx fd_) (mkPollfd (-1) 0 0) with
      | None => None
      | Some l =>
          let last :=
            if idx fd_ + 1 =? last_pollfds set then last_pollfds set - 1
            else last_pollfds set in
          (* [fd->idx] is -1 from here on *)
          let fd_idx := -1 in
          let free := if free set =? -1 then fd_idx else Z.min (free set) fd_idx in
          Some (mkSet (mode set) l last (size set) free
                  (readfds set) (writefds set) (testreadfds set) (testwritefds set),
                mkFD (fd fd_) fd_idx)
      end
  | GST_FDSET_MODE_EPOLL => Some (set, fd_)
  end.

(** [set->pollfds[fd->idx].events = ev]. *)
Definition set_events (set : GstFDSet) (fd_ : GstFD) (ev : Z) : option GstFDSet :=
  match read_pollfd (pollfds set) (idx fd_) with
  | None => None
  | Some p =>
      match write_pollfd (pollfds set) (idx fd_)
              (mkPollfd (pollfd_fd p) ev (revents p)) with
      | None => None
      | Some l =>
          Some (mkSet (mode set) l (last_pollfds set) (size set) (free set)
                  (readfds set) (writefds set) (testreadfds set) (testwritefds set))
      end
  end.

Definition gst_fdset_fd_ctl_write (set : GstFDSet) (fd_ : GstFD) (active : bool)
    : option GstFDSet :=
  match mode set with
  | GST_FDSET_MODE_SELECT =>
      match (if active then FD_SET else FD_CLR) (fd fd_) (writefds set) with
      | None => None
      | Some w =>
          Some (mkSet (mode set) (pollfds set) (last_pollfds set) (size set)
                  (free set) (readfds set) w (testreadfds set) (testwritefds set))
      end
  | GST_FDSET_MODE_POLL => set_events set fd_ (if active then POLLOUT else 0)
  | GST_FDSET_MODE_EPOLL => Some set
  end.

Definition gst_fdset_fd_ctl_read (set : GstFDSet) (fd_ : GstFD) (active : bool)
    : option GstFDSet :=
  match mode set with
  | GST_FDSET_MODE_SELECT =>
      match (if active then FD_SET else FD_CLR) (fd fd_) (readfds set) with
      | None => None
      | Some r =>
          Some (mkSet (mode set) (pollfds set) (last_pollfds set) (size set)
                  (free set) r (writefds set) (testreadfds set) (testwritefds set))
      end
  | GST_FDSET_MODE_POLL =>
      set_events set fd_ (if active then Z.lor POLLIN POLLPRI else 0)
  | GST_FDSET_MODE_EPOLL => Some set
  end.

(** [(set->pollfds[fd->idx].revents & mask) != 0]. *)
Definition test_revents (set : GstFDSet) (fd_ : GstFD) (mask : Z) : option bool :=
  match read_pollfd (pollfds set) (idx fd_) with
  | None => None
  | Some p => Some (negb (Z.land (revents p) mask =? 0))
  end.

Definition gst_fdset_fd_has_closed (set : GstFDSet) (fd_ : GstFD) : option bool :=
  match mode set with
  | GST_FDSET_MODE_SELECT => Some false
  | GST_FDSET_MODE_POLL => test_revents set fd_ POLLHUP
  | GST_FDSET_MODE_EPOLL => Some false
  end.

Definition gst_fdset_fd_has_error (set : GstFDSet) (fd_ : GstFD) : option bool :=
  match mode set with
  | GST_FDSET_MODE_SELECT => Some false
  | GST_FDSET_MODE_POLL => test_revents set fd_ (Z.lor POLLERR POLLNVAL)
  | GST_FDSET_MODE_EPOLL => Some false
  end.

Definition gst_fdset_fd_can_read (set : GstFDSet) (fd_ : GstFD) : option bool :=
  match mode set with
  | GST_FDSET_MODE_SELECT => FD_ISSET (fd fd_) (testreadfds set)
  | GST_FDSET_MODE_POLL => test_revents set fd_ (Z.lor POLLIN POLLPRI)
  | GST_FDSET_MODE_EPOLL => Some false
  end.

Definition gst_fdset_fd_can_write (set : GstFDSet) (fd_ : GstFD) : option bool :=
  match mode set with
  | GST_FDSET_MODE_SELECT => FD_ISSET (fd fd_) (testwritefds set)
  | GST_FDSET_MODE_POLL => test_revents set fd_ POLLOUT
  | GST_FDSET_MODE_EPOLL => Some false
  end.

Section Wait.

(** select: from the two sets and the timeout ([None] for a NULL pointer,
    otherwise [tv_sec] and [tv_usec]) to its return value and the two sets
    as it leaves them. *)
Variable select : gset Z → gset Z → option (Z * Z) → Z * gset Z * gset Z.

(** poll: from the array, the number of entries and the timeout to its
    return value and the array as it leaves it. *)
Variable poll : list pollfd → Z → Z → Z * list pollfd.

Definition gst_fdset_wait (set : GstFDSet) (timeout : Z) : Z * GstFDSet :=
  match mode set with
  | GST_FDSET_MODE_SELECT =>
      let tvptr :=
        if timeout >? 0 then Some (timeout ÷ 1000, Z.rem timeout 1000) else None in
      let '(res, r, w) := select (readfds set) (writefds set) tvptr in
      (res, mkSet (mode set) (pollfds set) (last_pollfds set) (size set) (free set)
              (readfds set) (writefds set) r w)
  | GST_FDSET_MODE_POLL =>
      let '(res, l) := poll (pollfds set) (last_pollfds set) timeout in
      (res, mkSet (mode set) l (last_pollfds set) (size set) (free set)
              (readfds set) (writefds set) (testreadfds set) (testwritefds set))
  | GST_FDSET_MODE_EPOLL => (-1, set)
  end.

End Wait.

(** ** Vocabulary of the statements *)

(** A set in poll mode as the operations keep it: the array is the whole
    allocation of [size] bytes, the entries in use fit into it, and the hint
    [free] is -1 except in a set that has not been used yet. *)
Definition poll_invariant (set : GstFDSet) : Prop :=
  mode set = GST_FDSET_MODE_POLL
  ∧ 0 ≤ last_pollfds set
  ∧ last_pollfds set * sizeof_pollfd ≤ size set
  ∧ Z.of_nat (length (pollfds set)) * sizeof_pollfd = size set
  ∧ size set ≤ 2 ^ 30
  ∧ (free set = -1 ∨ (free set = 0 ∧ last_pollfds set = 0)).

(** Entry [i] of the array is free. *)
Definition free_entry (set : GstFDSet) (i : Z) : Prop :=
  ∃ p, read_pollfd (pollfds set) i = Some p ∧ pollfd_fd p = -1.

(** ** Sample inputs *)

(** An allocator that hands out cleared memory. *)
Definition cleared_memory (_ : nat) : pollfd := mkPollfd 0 0 0.

(** A set in poll mode with descriptors 5 and 9 in entries 0 and 2 and a
    free entry between them. *)
Definition three_entries : GstFDSet :=
  mkSet GST_FDSET_MODE_POLL
    ([mkPollfd 5 0 0; mkPollfd (-1) 0 0; mkPollfd 9 POLLIN POLLHUP]
       ++ replicate 61 (mkPollfd 0 0 0))
    3 512 (-1) ∅ ∅ ∅ ∅.

(** A set in select mode that watches descriptor 5 for reading and
    descriptor 9 for writing. *)
Definition select_set : GstFDSet :=
  mkSet GST_FDSET_MODE_SELECT [] 0 0 0 {[5]} {[9]} ∅ ∅.

(** [select_set] after a wait that found descriptor 5 readable. *)
Definition select_set_waited : GstFDSet :=
  mkSet GST_FDSET_MODE_SELECT [] 0 0 0 {[5]} {[9]} {[5]} ∅.

(** A select that finds every descriptor of the read set ready and none of
    the write set. *)
Definition select_all_readable (r w : gset Z) (tv : option (Z * Z))
    : Z * gset Z * gset Z :=
  (Z.of_nat (length (elements r)), r, ∅).

Definition poll_nothing (l : list pollfd) (nfds timeout : Z) : Z * list pollfd :=
  (0, l).

End FDSet.

(** ** Properties *)

(** *** The loop of set_structure_widths *)

(** The fuel [set_structure_widths] gives the loop is enough: more fuel
    yields the same list. *)
Lemma widths_loop_enough fuel : ∀ fuel' width max,
  (Z.to_nat (max - width + 1) ≤ fuel)%nat →
  (Z.to_nat (max - width + 1) ≤ fuel')%nat →
  widths_loop fuel width max = widths_loop fuel' width max.
Proof.
  induction fuel as [|fuel IH]; intros fuel' width max Hfuel Hfuel'.
  - destruct fuel' as [|fuel']; [done|]. simpl.
    destruct (Z.leb_spec width max); [lia|done].
  - simpl. destruct (Z.leb_spec width max) as [Hle|Hgt].
    + destruct fuel' as [|fuel']; [lia|]. simpl.
      destruct (Z.leb_spec width max); [|lia].
      f_equal. apply IH; lia.
    + destruct fuel' as [|fuel']; [done|]. simpl.
      by destruct (Z.leb_spec width max); [lia|].
Qed.

Example widths_8_to_32 :
  widths_loop (Z.to_nat (32 - 8 + 1)) 8 32 = [VInt 8; VInt 16; VInt 24; VInt 32].
Proof. reflexivity. Qed.

Example tiers_of_cd_stereo :
  (transform_structure read_channel_positions 0 cd_stereo).*1
  = [TierA; TierA'; TierB; TierB'; TierD; TierD'; TierE].
Proof. reflexivity. Qed.

Example tiers_of_six_channels_24 :
  (transform_structure read_channel_positions 0
     (gst_structure_set_value six_channels "width" (VInt 24))).*1
  = [TierA; TierA'; TierB; TierB'; TierC; TierD; TierD'; TierE].
Proof. reflexivity. Qed.

Example find_suitable_nested :
  find_suitable_channel_layout
    (VList [VList [VArray [VPosition GST_AUDIO_CHANNEL_POSITION_FRONT_MONO]];
            VArray [VPosition GST_AUDIO_CHANNEL_POSITION_FRONT_LEFT;
                    VPosition GST_AUDIO_CHANNEL_POSITION_FRONT_RIGHT]]) 2
  = Some (VArray [VPosition GST_AUDIO_CHANNEL_POSITION_FRONT_LEFT;
                  VPosition GST_AUDIO_CHANNEL_POSITION_FRONT_RIGHT]).
Proof. reflexivity. Qed.

(** *** Nearest values *)

Lemma nearest_in_range_spec lo hi target :
  lo ≤ hi → nearest_of (λ x, lo ≤ x ≤ hi) target (nearest_in_range lo hi target).
Proof.
  intros Hle. unfold nearest_of, nearest_in_range.
  destruct (Z.ltb_spec target lo); [|destruct (Z.ltb_spec hi target)];
    (split; [lia|intros x Hx; lia]).
Qed.

Lemma nearer_spec target (P : Z → Prop) b x :
  nearest_of P target b →
  nearest_of (λ y, P y ∨ y = x) target (nearer target b x).
Proof.
  intros [Hb Hmin]. unfold nearer.
  destruct (Z.ltb_spec (Z.abs (target - x)) (Z.abs (target - b))) as [Hlt|Hge].
  - split; [by right|]. intros y [Hy| ->]; [|lia].
    destruct (Hmin y Hy) as [?|[? ?]]; lia.
  - destruct (Z.eqb_spec (Z.abs (target - x)) (Z.abs (target - b))) as [Heq|Hne];
      [destruct (Z.ltb_spec x b) as [Hxb|Hxb]|]; simpl.
    + split; [by right|]. intros y [Hy| ->]; [|lia].
      destruct (Hmin y Hy) as [?|[? ?]]; lia.
    + split; [by left|]. intros y [Hy| ->]; [by apply Hmin|lia].
    + split; [by left|]. intros y [Hy| ->]; [by apply Hmin|lia].
Qed.

Lemma nearest_of_ext (P Q : Z → Prop) target v :
  (∀ x, P x ↔ Q x) → nearest_of P target v → nearest_of Q target v.
Proof.
  intros Heq [Hv Hmin]. split; [by apply Heq|].
  intros x Hx. apply Hmin. by apply Heq.
Qed.

Lemma nearest_in_list_some target l : ∀ (P : Z → Prop) b,
  nearest_of P target b →
  ∃ v, nearest_in_list target l (Some b) = Some v
       ∧ nearest_of (λ x, P x ∨ VInt x ∈ l) target v.
Proof.
  induction l as [|a l IH]; intros P b Hb; simpl.
  - exists b. split; [done|]. eapply nearest_of_ext; [|exact Hb].
    intros x. split; [by left|]. intros [?|Hin]; [done|]. by apply elem_of_nil in Hin.
  - destruct a as [n| | | | |];
      try (destruct (IH P b Hb) as (v & Hv & Hn); exists v; split; [done|];
           eapply nearest_of_ext; [|exact Hn]; intros x; simpl;
           rewrite elem_of_cons; naive_solver).
    destruct (IH _ _ (nearer_spec target P b n Hb)) as (v & Hv & Hn).
    exists v. split; [done|]. eapply nearest_of_ext; [|exact Hn].
    intros x; simpl. rewrite elem_of_cons. naive_solver.
Qed.

Lemma nearest_in_list_none target l :
  (∃ x, VInt x ∈ l) →
  ∃ v, nearest_in_list target l None = Some v
       ∧ nearest_of (λ x, VInt x ∈ l) target v.
Proof.
  induction l as [|a l IH]; intros [x Hx].
  - by apply elem_of_nil in Hx.
  - destruct a as [n| | | | |];
      try (simpl; destruct IH as (v & Hv & Hn);
             [exists x; apply elem_of_cons in Hx as [?|?]; [done|done]|];
           exists v; split; [done|]; eapply nearest_of_ext; [|exact Hn];
           intros y; simpl; rewrite elem_of_cons; naive_solver).
    simpl.
    destruct (nearest_in_list_some target l (λ y, y = n) n) as (v & Hv & Hn).
    { split; [done|]. intros y ->. right. lia. }
    exists v. split; [done|]. eapply nearest_of_ext; [|exact Hn].
    intros y; simpl. rewrite elem_of_cons. naive_solver.
Qed.

Lemma nearest_int_spec c target :
  has_freedom c → ∃ v, nearest_int c target = Some v ∧ is_nearest c target v.
Proof.
  destruct c as [| |lo hi|l| |]; simpl; try done.
  - intros Hle. eexists; split; [done|]. by apply nearest_in_range_spec.
  - intros Hex. by apply nearest_in_list_none.
Qed.

Lemma nearest_int_fixed c target :
  gst_value_is_fixed c = true → nearest_int c target = None.
Proof. by destruct c. Qed.

(** *** Fields the fixation leaves alone *)

Lemma fixate_nearest_lookup_ne s f g target :
  f ≠ g →
  fields (gst_structure_fixate_field_nearest_int s f target) !! g = fields s !! g.
Proof.
  intros Hne. unfold gst_structure_fixate_field_nearest_int.
  repeat case_match; simpl; by rewrite ?lookup_insert_ne.
Qed.

Lemma fixate_nearest_lookup s f target c v :
  fields s !! f = Some c → nearest_int c target = Some v →
  fields (gst_structure_fixate_field_nearest_int s f target) !! f = Some (VInt v).
Proof.
  intros Hc Hv. unfold gst_structure_fixate_field_nearest_int.
  rewrite Hc, Hv. simpl. by rewrite lookup_insert_eq.
Qed.

Lemma fixate_nearest_guarded s f target :
  (if gst_structure_has_field s f
   then gst_structure_fixate_field_nearest_int s f target else s)
  = gst_structure_fixate_field_nearest_int s f target.
Proof.
  unfold gst_structure_has_field, gst_structure_fixate_field_nearest_int.
  by destruct (fields s !! f).
Qed.

Lemma fixate_boolean_lookup_ne s f g target :
  f ≠ g →
  fields (gst_structure_fixate_field_boolean s f target) !! g = fields s !! g.
Proof.
  intros Hne. unfold gst_structure_fixate_field_boolean.
  repeat case_match; simpl; by rewrite ?lookup_insert_ne.
Qed.

Lemma fixate_boolean_guarded s f target :
  (if gst_structure_has_field s f
   then gst_structure_fixate_field_boolean s f target else s)
  = gst_structure_fixate_field_boolean s f target.
Proof.
  unfold gst_structure_has_field, gst_structure_fixate_field_boolean.
  by destruct (fields s !! f).
Qed.

Lemma set_channel_positions_lookup_ne s row g :
  g ≠ "channel-positions" →
  fields (gst_audio_set_channel_positions s row) !! g = fields s !! g.
Proof.
  intros Hne. unfold gst_audio_set_channel_positions.
  case_match; simpl; by rewrite ?lookup_insert_ne.
Qed.

Lemma fixate_channels_default_lookup_ne s c g :
  g ≠ "channel-positions" →
  fields (fixate_channels_default s c) !! g = fields s !! g.
Proof.
  intros Hne. unfold fixate_channels_default.
  repeat case_match; by rewrite ?set_channel_positions_lookup_ne.
Qed.

Lemma fixate_channels_tail_lookup_ne s c ol g :
  g ≠ "channel-positions" →
  fields (fixate_channels_tail s c ol) !! g = fields s !! g.
Proof.
  intros Hne. unfold fixate_channels_tail.
  repeat case_match; simpl;
    by rewrite ?fixate_channels_default_lookup_ne, ?lookup_insert_ne.
Qed.

Lemma fixate_channels_lookup_ne intersect ins outs g :
  g ≠ "channels" → g ≠ "channel-positions" →
  fields (gst_audio_convert_fixate_channels intersect ins outs) !! g = fields outs !! g.
Proof.
  intros Hc Hp. unfold gst_audio_convert_fixate_channels.
  repeat case_match; simpl;
    rewrite ?fixate_channels_tail_lookup_ne, ?lookup_insert_ne, ?lookup_delete_ne,
      ?fixate_nearest_lookup_ne by done; done.
Qed.

(** The steps of [fixate_structure], with the guards on the presence of
    the candidate's field folded into the fixation functions. *)
Lemma fixate_structure_unfold intersect stack_width ins outs :
  fixate_structure intersect stack_width ins outs =
    let width := default stack_width (gst_structure_get_int ins "width") in
    let o1 := gst_audio_convert_fixate_channels intersect ins outs in
    let o2 := from_option (gst_structure_fixate_field_nearest_int o1 "rate") o1
                (gst_structure_get_int ins "rate") in
    let o3 := from_option (gst_structure_fixate_field_nearest_int o2 "endianness") o2
                (gst_structure_get_int ins "endianness") in
    let o4 := from_option (λ _, gst_structure_fixate_field_nearest_int o3 "width" width) o3
                (gst_structure_get_int ins "width") in
    let o5 := gst_structure_fixate_field_nearest_int o4 "depth"
                (default width (gst_structure_get_int ins "depth")) in
    from_option (gst_structure_fixate_field_boolean o5 "signed") o5
      (gst_structure_get_boolean ins "signed").
Proof.
  unfold fixate_structure.
  destruct (gst_structure_get_int ins "rate"), (gst_structure_get_int ins "endianness"),
    (gst_structure_get_int ins "width"), (gst_structure_get_int ins "depth"),
    (gst_structure_get_boolean ins "signed"); simpl;
    by rewrite ?fixate_nearest_guarded, ?fixate_boolean_guarded.
Qed.

Lemma fixate_structure_lookup_numeric intersect stack_width ins outs f :
  f ∈ ["rate"; "endianness"; "width"; "depth"] →
  fields (fixate_structure intersect stack_width ins outs) !! f =
    let target :=
      match gst_structure_get_int ins f with
      | Some v => Some v
      | None =>
          if String.eqb f "depth"
          then Some (default stack_width (gst_structure_get_int ins "width"))
          else None
      end in
    match target, fields outs !! f with
    | Some t, Some c =>
        match nearest_int c t with Some v => Some (VInt v) | None => Some c end
    | _, o => o
    end.
Proof.
  intros Hf. rewrite fixate_structure_unfold.
  assert (∀ s t, fields (gst_structure_fixate_field_nearest_int s f t) !! f
            = match fields s !! f with
              | Some c => match nearest_int c t with
                          | Some v => Some (VInt v) | None => Some c end
              | None => None end) as Hsame.
  { intros s t. unfold gst_structure_fixate_field_nearest_int.
    repeat case_match; simpl; rewrite ?lookup_insert_eq; congruence. }
  repeat (apply elem_of_cons in Hf as [->|Hf]); [| | | |by apply elem_of_nil in Hf];
  cbn zeta;
  destruct (gst_structure_get_int ins "rate"), (gst_structure_get_int ins "endianness"),
    (gst_structure_get_int ins "width"), (gst_structure_get_int ins "depth"),
    (gst_structure_get_boolean ins "signed"); cbn [from_option default String.eqb Ascii.eqb Bool.eqb];
  rewrite ?fixate_boolean_lookup_ne, ?fixate_nearest_lookup_ne by done;
  rewrite ?Hsame;
  rewrite ?fixate_boolean_lookup_ne, ?fixate_nearest_lookup_ne by done;
  rewrite ?fixate_channels_lookup_ne by done;
  try done; by repeat case_match.
Qed.

Lemma fixate_caps_single intersect stack_width ins outs rest :
  gst_caps_is_fixed [ins] = true →
  gst_audio_convert_fixate_caps intersect stack_width [ins] (outs :: rest)
  = fixate_structure intersect stack_width ins outs :: rest.
Proof. intros Hfix. unfold gst_audio_convert_fixate_caps. by rewrite Hfix. Qed.

(** *** Fixation of fixed values *)

Lemma set_value_id s f v :
  fields s !! f = Some v → gst_structure_set_value s f v = s.
Proof.
  intros Hv. destruct s as [n m]. unfold gst_structure_set_value. simpl in *.
  by rewrite insert_id.
Qed.

Lemma fixate_nearest_fixed s f target :
  (∀ c, fields s !! f = Some c → gst_value_is_fixed c = true) →
  gst_structure_fixate_field_nearest_int s f target = s.
Proof.
  intros Hfix. unfold gst_structure_fixate_field_nearest_int.
  destruct (fields s !! f) as [c|] eqn:Hc; [|done].
  by rewrite nearest_int_fixed by by apply Hfix.
Qed.

Lemma fixate_boolean_fixed s f target :
  (∀ c, fields s !! f = Some c → gst_value_is_fixed c = true) →
  gst_structure_fixate_field_boolean s f target = s.
Proof.
  intros Hfix. unfold gst_structure_fixate_field_boolean.
  destruct (fields s !! f) as [c|] eqn:Hc; [|done].
  specialize (Hfix c eq_refl). by destruct c.
Qed.

Lemma caps_is_fixed_lookup s f c :
  gst_caps_is_fixed [s] = true → fields s !! f = Some c → gst_value_is_fixed c = true.
Proof.
  unfold gst_caps_is_fixed. intros Hfix%bool_decide_eq_true Hc.
  by apply (Hfix f c).
Qed.

(** *** The default layout *)

Lemma fixate_channels_default_covered s c :
  gst_structure_get_int s "channels" = Some c → 1 ≤ c ≤ 8 →
  ∃ layout, default_layout c = Some layout
    ∧ fixate_channels_default s c = gst_structure_set_value s "channel-positions" layout.
Proof.
  intros Hc Hrange. unfold fixate_channels_default, default_layout.
  assert (c = 1 ∨ c = 2 ∨ c = 3 ∨ c = 4 ∨ c = 5 ∨ c = 6 ∨ c = 7 ∨ c = 8) as Hcases by lia.
  destruct_or!; subst c; simpl; unfold gst_audio_set_channel_positions;
    rewrite Hc; eexists; (split; [reflexivity|reflexivity]).
Qed.

Lemma fixate_channels_default_beyond s c :
  c ≤ 0 ∨ 8 < c → fixate_channels_default s c = s.
Proof.
  intros Hc. unfold fixate_channels_default.
  destruct (Z.ltb_spec 0 c), (Z.leb_spec c 8); simpl; try done. lia.
Qed.

Lemma fixate_channels_tail_unresolved s c ol :
  match ol with
  | Some v => find_suitable_channel_layout v (guint_of_gint c) = None
  | None => True
  end →
  fixate_channels_tail s c ol = fixate_channels_default s c.
Proof.
  unfold fixate_channels_tail. destruct ol as [v|]; [|done].
  intros Hnone. destruct v; simpl in *; try done.
  - by rewrite Hnone.
  - by destruct (_ =? _).
Qed.

Section Channels.
Variable intersect : GValue → GValue → bool.

Lemma fixate_channels_unresolved ins outs in_chans out_chans :
  gst_structure_get_int ins "channels" = Some in_chans →
  gst_structure_get_int (with_fixated_channels outs in_chans) "channels" = Some out_chans →
  no_layout_resolved intersect ins outs in_chans out_chans →
  gst_audio_convert_fixate_channels intersect ins outs =
    if bool_decide (gst_structure_get_value outs "channel-positions" = None)
       && (out_chans <=? 2)
    then with_fixated_channels outs in_chans
    else fixate_channels_default (with_fixated_channels outs in_chans) out_chans.
Proof.
  intros Hin Hout Hno. unfold gst_audio_convert_fixate_channels, no_layout_resolved in *.
  unfold with_fixated_channels in *. rewrite Hin.
  assert (gst_structure_has_field outs "channels" = true) as ->.
  { unfold gst_structure_has_field.
    destruct (fields outs !! "channels") eqn:Hch; [done|]. exfalso.
    unfold gst_structure_get_int, gst_structure_fixate_field_nearest_int in Hout.
    rewrite Hch in Hout. by rewrite Hch in Hout. }
  cbn [negb]. cbv zeta. rewrite Hout.
  unfold gst_structure_get_value in *.
  rewrite fixate_nearest_lookup_ne by done.
  destruct (fields outs !! "channel-positions") as [v|] eqn:Hol; simpl.
  - destruct Hno as [Hfind Hint].
    assert (holds_array_of_size v (guint_of_gint out_chans) = false) as Harr.
    { destruct v; simpl in *; try done. by destruct (_ =? _). }
    destruct (Z.eqb_spec in_chans out_chans) as [->|Hne].
    + destruct (fields ins !! "channel-positions") as [iv|] eqn:Hil.
      * rewrite Harr, (Hint eq_refl iv eq_refl), Hfind.
        by apply fixate_channels_tail_unresolved.
      * by apply fixate_channels_tail_unresolved.
    + by apply fixate_channels_tail_unresolved.
  - destruct (Z.leb_spec out_chans 2); simpl.
    + destruct (Z.eqb_spec in_chans out_chans) as [->|Hne]; simpl; [|done].
      destruct Hno as [?|Hil]; [done|]. by rewrite Hil.
    + destruct (Z.eqb_spec in_chans out_chans) as [->|Hne]; simpl.
      * destruct Hno as [?|Hil]; [done|]. rewrite Hil. simpl.
        by apply fixate_channels_tail_unresolved.
      * by apply fixate_channels_tail_unresolved.
Qed.
End Channels.

Lemma fixate_channels_self intersect d :
  (∀ v, intersect v v = true) →
  gst_caps_is_fixed [d] = true →
  (gst_structure_has_field d "channel-positions" = true
   ∨ ∀ c, gst_structure_get_int d "channels" = Some c → c ≤ 2 ∨ 8 < c) →
  gst_audio_convert_fixate_channels intersect d d = d.
Proof.
  intros Hrefl Hfix Hcase. unfold gst_audio_convert_fixate_channels.
  destruct (gst_structure_get_int d "channels") as [c|] eqn:Hc; [|done].
  assert (fields d !! "channels" = Some (VInt c)) as Hch.
  { unfold gst_structure_get_int in Hc. by repeat case_match; simplify_eq. }
  unfold gst_structure_has_field in *. rewrite Hch. cbn [negb]. cbv zeta.
  rewrite fixate_nearest_fixed
    by (intros ? ?; by eapply caps_is_fixed_lookup).
  rewrite Hc, Z.eqb_refl. unfold gst_structure_get_value. simpl.
  destruct (fields d !! "channel-positions") as [v|] eqn:Hv; simpl.
  - destruct (holds_array_of_size v (guint_of_gint c)); [done|].
    rewrite Hrefl. by apply set_value_id.
  - destruct Hcase as [?|Hcase]; [done|].
    destruct (Hcase c eq_refl).
    + destruct (Z.leb_spec c 2); [done|lia].
    + destruct (Z.leb_spec c 2); [done|]. simpl.
      rewrite (fixate_channels_tail_unresolved d c None I).
      apply fixate_channels_default_beyond. lia.
Qed.

(** *** The parser *)

Lemma gint_wrap_small z : G_MININT ≤ z ≤ G_MAXINT → gint_wrap z = z.
Proof.
  unfold G_MININT, G_MAXINT, gint_wrap. intros Hz.
  rewrite Z.mod_small by lia. lia.
Qed.

Section ParseFacts.
Variable get_positions : GstStructure → option (list GstAudioChannelPosition).
Variable byte_order : Z.

Lemma parse_caps_inv caps fmt :
  gst_audio_convert_parse_caps get_positions byte_order caps = inl fmt →
  ∃ structure,
    caps = [structure]
    ∧ gst_structure_get_int structure "width" = Some (width fmt)
    ∧ gst_structure_get_int structure "channels" = Some (channels fmt)
    ∧ unit_size fmt = gint_wrap (width fmt * channels fmt) ÷ 8
    ∧ (is_int fmt = true →
       gst_structure_get_int structure "depth" = Some (depth fmt)
       ∧ depth fmt ≤ width fmt).
Proof.
  unfold gst_audio_convert_parse_caps. intros Hparse.
  destruct (gst_caps_is_fixed caps) eqn:Hfix; [|done]. simpl in Hparse.
  destruct caps as [|structure [|??]]; try done. exists structure.
  repeat case_match; simplify_eq; simpl; repeat split; try done; lia.
Qed.
End ParseFacts.

(** *** Fields the expansion leaves alone *)

(** Lookups of a field other than the ones just written or removed. *)
Ltac lookup_other :=
  repeat first [rewrite lookup_insert_ne by done | rewrite lookup_delete_ne by done].

Lemma set_structure_widths_lookup_ne s min max f :
  f ≠ "width" → fields (set_structure_widths s min max) !! f = fields s !! f.
Proof.
  intros Hne. unfold set_structure_widths.
  case_match; simpl; by rewrite lookup_insert_ne.
Qed.

Lemma make_lossless_changes_lookup_ne s isfloat f :
  f ≠ "endianness" → f ≠ "depth" → f ≠ "signed" → f ≠ "width" →
  fields (make_lossless_changes s isfloat) !! f = fields s !! f.
Proof.
  intros. unfold make_lossless_changes, set_structure_widths_32_and_64.
  destruct isfloat; simpl;
    by lookup_other.
Qed.

Lemma make_lossless_changes_int_lookup_ne s f :
  f ≠ "endianness" → f ≠ "signed" →
  fields (make_lossless_changes s false) !! f = fields s !! f.
Proof. intros. simpl. by rewrite !lookup_insert_ne. Qed.

Lemma strip_width_64_lookup_ne s f :
  f ≠ "width" → fields (strip_width_64 s) !! f = fields s !! f.
Proof.
  intros. unfold strip_width_64. repeat case_match; simpl; by rewrite ?lookup_insert_ne.
Qed.

Lemma other_format_lookup_ne s isfloat f :
  f ≠ "endianness" → f ≠ "depth" → f ≠ "signed" → f ≠ "width" →
  fields (other_format s isfloat) !! f = fields s !! f.
Proof.
  intros. unfold other_format. destruct isfloat.
  - rewrite strip_width_64_lookup_ne by done.
    by rewrite make_lossless_changes_lookup_ne.
  - by rewrite make_lossless_changes_lookup_ne.
Qed.

Lemma copy_fields_lookup structure l : ∀ s f,
  fields (foldl (copy_field structure) s l) !! f =
    if decide (f ∈ l)
    then match fields structure !! f with Some v => Some v | None => fields s !! f end
    else fields s !! f.
Proof.
  induction l as [|g l IH]; intros s f.
  - cbn [foldl]. case_decide as Hin; [by apply elem_of_nil in Hin|done].
  - cbn [foldl]. rewrite IH. unfold copy_field, gst_structure_get_value.
    destruct (decide (f = g)) as [->|Hne].
    + rewrite (decide_True (P := g ∈ g :: l)) by (apply elem_of_cons; by left).
      destruct (fields structure !! g) eqn:Hg; simpl.
      * case_decide; [done|]. by rewrite lookup_insert_eq.
      * by case_decide.
    + assert (fields (match fields structure !! g with
                      | Some v => gst_structure_set_value s g v
                      | None => s end) !! f = fields s !! f) as ->.
      { destruct (fields structure !! g); [|done]. simpl. by rewrite lookup_insert_ne. }
      repeat case_decide; try done.
      * exfalso. apply H0. apply elem_of_cons. by right.
      * exfalso. apply elem_of_cons in H0 as [?|?]; done.
Qed.

Lemma stripped_lookup structure f :
  f ≠ "depth" →
  fields (stripped structure) !! f =
    if decide (f ∈ fields_used) then fields structure !! f else None.
Proof.
  intros Hne. unfold stripped.
  assert (fields (foldl (copy_field structure)
                    (gst_structure_empty_new (name structure)) fields_used) !! f
          = if decide (f ∈ fields_used) then fields structure !! f else None) as Hcopy.
  { rewrite copy_fields_lookup. simpl. rewrite lookup_empty.
    destruct (decide _); [|done]. by destruct (fields structure !! f). }
  destruct (negb _); [|done]. destruct (negb _); [|done].
  destruct (gst_structure_get_int _ _); [|done]. simpl. by rewrite lookup_insert_ne.
Qed.

Lemma stripped_lookup_depth structure d :
  fields structure !! "depth" = Some d →
  fields (stripped structure) !! "depth" = Some d.
Proof.
  intros Hd. unfold stripped.
  assert (fields (foldl (copy_field structure)
                    (gst_structure_empty_new (name structure)) fields_used) !! "depth"
          = Some d) as Hcopy.
  { rewrite copy_fields_lookup, Hd. case_decide as Hin; [done|].
    exfalso. apply Hin. unfold fields_used. set_solver. }
  unfold gst_structure_has_field. rewrite Hcopy. simpl. by destruct (negb _).
Qed.

Lemma tierA_lookup structure f :
  f ≠ "endianness" → f ≠ "depth" → f ≠ "signed" → f ≠ "width" →
  fields (tierA_structure structure) !! f =
    if decide (f ∈ fields_used) then fields structure !! f else None.
Proof.
  intros. unfold tierA_structure.
  rewrite make_lossless_changes_lookup_ne by done. by apply stripped_lookup.
Qed.

Lemma grow_width_depth_lookup_ne structure s f :
  f ≠ "width" → f ≠ "depth" →
  fields (grow_width_depth structure s) !! f = fields s !! f.
Proof.
  intros. unfold grow_width_depth.
  repeat case_match; simpl; lookup_other;
    by rewrite ?set_structure_widths_lookup_ne.
Qed.

Lemma not_used_layout : "channel-positions" ∉ fields_used.
Proof. unfold fields_used. set_solver. Qed.

Section TransformFacts.
Variable get_positions : GstStructure → option (list GstAudioChannelPosition).

(** The working structure of tier B before its channels are set. *)
Lemma grown_lookup_layout structure :
  fields (if negb (String.eqb (name structure) "audio/x-raw-float")
          then grow_width_depth structure (tierA_structure structure)
          else tierA_structure structure) !! "channel-positions" = None.
Proof.
  destruct (negb _); rewrite ?grow_width_depth_lookup_ne by done;
    rewrite tierA_lookup by done; by rewrite decide_False by apply not_used_layout.
Qed.

Lemma pin_channels_lookup s structure c :
  fields s !! "channel-positions" = None →
  fields (pin_channels s structure c) !! "channels" = Some (VInt c)
  ∧ fields (pin_channels s structure c) !! "channel-positions"
    = fields structure !! "channel-positions".
Proof.
  intros Hnone. unfold pin_channels, gst_structure_get_value.
  destruct (fields structure !! "channel-positions") as [v|] eqn:Hv; simpl.
  - split; [by lookup_other; rewrite lookup_insert_eq|by rewrite lookup_insert_eq].
  - split; [by rewrite lookup_insert_eq|by lookup_other].
Qed.

Lemma pin_channels_again s structure c :
  fields s !! "channel-positions" = fields structure !! "channel-positions" →
  fields (pin_channels s structure c) !! "channels" = Some (VInt c)
  ∧ fields (pin_channels s structure c) !! "channel-positions"
    = fields structure !! "channel-positions".
Proof.
  intros Hsame. unfold pin_channels, gst_structure_get_value.
  destruct (fields structure !! "channel-positions") as [v|] eqn:Hv; simpl.
  - split; [by lookup_other; rewrite lookup_insert_eq|by rewrite lookup_insert_eq].
  - split; [by rewrite lookup_insert_eq|by lookup_other].
Qed.

Lemma tierB_pinned channels0 structure :
  allow_mixing get_positions structure = false →
  fields (tierB_structure get_positions channels0 structure) !! "channels"
    = Some (VInt (channels_of channels0 structure))
  ∧ fields (tierB_structure get_positions channels0 structure) !! "channel-positions"
    = fields structure !! "channel-positions".
Proof.
  intros Hmix. unfold tierB_structure. rewrite Hmix. cbn [negb]. cbv zeta.
  apply pin_channels_lookup, grown_lookup_layout.
Qed.

Lemma tierD_pinned channels0 structure :
  allow_mixing get_positions structure = false →
  fields (tierD_structure get_positions channels0 structure) !! "channels"
    = Some (VInt (channels_of channels0 structure))
  ∧ fields (tierD_structure get_positions channels0 structure) !! "channel-positions"
    = fields structure !! "channel-positions".
Proof.
  intros Hmix. unfold tierD_structure. rewrite Hmix. cbv zeta.
  apply pin_channels_again. by apply tierB_pinned.
Qed.

Lemma tierB_mixing channels0 structure :
  allow_mixing get_positions structure = true →
  fields (tierB_structure get_positions channels0 structure) !! "channels"
    = Some (grown_channels (channels_of channels0 structure))
  ∧ fields (tierB_structure get_positions channels0 structure) !! "channel-positions"
    = None.
Proof.
  intros Hmix. unfold tierB_structure, grown_channels. rewrite Hmix. cbn [negb]. cbv zeta.
  split.
  - repeat case_match; simpl; lookup_other; by rewrite lookup_insert_eq.
  - simpl. by rewrite lookup_delete_eq.
Qed.

Lemma transform_structure_tiers channels0 structure t d :
  (t, d) ∈ transform_structure get_positions channels0 structure →
  let isfloat := String.eqb (name structure) "audio/x-raw-float" in
  (t = TierB → d = tierB_structure get_positions channels0 structure)
  ∧ (t = TierB' →
     d = other_format (tierB_structure get_positions channels0 structure) isfloat)
  ∧ (t = TierD → d = tierD_structure get_positions channels0 structure)
  ∧ (t = TierD' →
     d = other_format (tierD_structure get_positions channels0 structure) isfloat).
Proof.
  unfold transform_structure, tierC_structures. cbv zeta.
  rewrite !elem_of_app, !elem_of_cons.
  intros Hin. repeat case_match; rewrite ?elem_of_cons, ?elem_of_nil in Hin;
    destruct_or!; simplify_eq; try done; repeat split; congruence.
Qed.

Lemma transform_structure_emits channels0 structure :
  let isfloat := String.eqb (name structure) "audio/x-raw-float" in
  (TierA, tierA_structure structure)
    ∈ transform_structure get_positions channels0 structure
  ∧ (TierB, tierB_structure get_positions channels0 structure)
    ∈ transform_structure get_positions channels0 structure
  ∧ (TierD, tierD_structure get_positions channels0 structure)
    ∈ transform_structure get_positions channels0 structure.
Proof.
  unfold transform_structure. cbv zeta.
  rewrite !elem_of_app, !elem_of_cons. naive_solver.
Qed.

Lemma transform_structure_pinned channels0 structure t d :
  allow_mixing get_positions structure = false →
  (t, d) ∈ transform_structure get_positions channels0 structure →
  t ∈ [TierB; TierB'; TierD; TierD'] →
  gst_structure_get_value d "channels" = Some (VInt (channels_of channels0 structure))
  ∧ gst_structure_get_value d "channel-positions"
    = gst_structure_get_value structure "channel-positions".
Proof.
  intros Hmix Hin Ht. unfold gst_structure_get_value.
  destruct (transform_structure_tiers _ _ _ _ Hin) as (HB & HB' & HD & HD').
  rewrite !elem_of_cons, elem_of_nil in Ht. destruct_or!; try done; subst t.
  - rewrite (HB eq_refl). by apply tierB_pinned.
  - rewrite (HB' eq_refl), !other_format_lookup_ne by done. by apply tierB_pinned.
  - rewrite (HD eq_refl). by apply tierD_pinned.
  - rewrite (HD' eq_refl), !other_format_lookup_ne by done. by apply tierD_pinned.
Qed.
End TransformFacts.

(** *** The merged caps *)

Lemma merge_keeps_head subset ss : ∀ x l,
  ∃ l', foldl (gst_caps_merge_structure subset) (x :: l) ss = x :: l'.
Proof.
  induction ss as [|s ss IH]; intros x l; simpl; [by eexists|].
  unfold gst_caps_merge_structure at 2.
  destruct (existsb _ _); [apply IH|apply (IH x (l ++ [s]))].
Qed.

Lemma copy_fields_name structure l : ∀ s,
  name (foldl (copy_field structure) s l) = name s.
Proof.
  induction l as [|f l IH]; intros s; simpl; [done|].
  rewrite IH. unfold copy_field. by case_match.
Qed.

Lemma stripped_name structure : name (stripped structure) = name structure.
Proof.
  unfold stripped.
  pose proof (copy_fields_name structure fields_used
                (gst_structure_empty_new (name structure))) as Hname.
  by repeat case_match.
Qed.

Lemma make_lossless_changes_name s isfloat :
  name (make_lossless_changes s isfloat) = name s.
Proof. by destruct isfloat. Qed.

Lemma make_lossless_changes_endianness s isfloat :
  fields (make_lossless_changes s isfloat) !! "endianness"
  = Some (VList [VInt G_LITTLE_ENDIAN; VInt G_BIG_ENDIAN]).
Proof.
  unfold make_lossless_changes, set_structure_widths_32_and_64.
  destruct isfloat; simpl; lookup_other; by rewrite lookup_insert_eq.
Qed.

Lemma make_lossless_changes_signed s :
  fields (make_lossless_changes s false) !! "signed"
  = Some (VList [VBoolean true; VBoolean false]).
Proof. simpl. by rewrite lookup_insert_eq. Qed.

Lemma merge_first_head subset s ss :
  ∃ l', foldl (gst_caps_merge_structure subset) [] (s :: ss) = s :: l'.
Proof. simpl. apply merge_keeps_head. Qed.

Lemma transform_caps_single get_positions subset caps_subset intersect structure :
  gst_audio_convert_transform_caps get_positions subset caps_subset intersect
    [structure] None
  = foldl (gst_caps_merge_structure subset) []
      (transform_structure get_positions 0 structure).*2.
Proof. reflexivity. Qed.

Lemma allow_mixing_unpositioned get_positions structure c :
  gst_structure_get_int structure "channels" = Some c →
  structure_has_fixed_channel_positions get_positions structure = Some true →
  allow_mixing get_positions structure = false.
Proof. intros Hc Hu. unfold allow_mixing. by rewrite Hc, Hu. Qed.



(** ** Results on the fixation of the numeric fields *)

(** C2.  For rate, endianness and width: when the input holds a fixed
    value [v] for the field and the candidate has freedom [c] in it, the
    fixated candidate holds the value of [c] nearest to [v], the lower one
    on a tie.  In particular a candidate width of [16, 32] becomes 24 for an
    input width of 24 and 16 for an input width of 8. *)
Theorem fixate_caps_nearest_input_value :
  (∀ intersect stack_width ins outs rest f v c,
      f ∈ ["rate"; "endianness"; "width"] →
      gst_caps_is_fixed [ins] = true →
      gst_structure_get_int ins f = Some v →
      gst_structure_get_value outs f = Some c →
      has_freedom c →
      ∃ outs' r,
        gst_audio_convert_fixate_caps intersect stack_width [ins] (outs :: rest)
          = outs' :: rest
        ∧ gst_structure_get_value outs' f = Some (VInt r)
        ∧ is_nearest c v r)
  ∧ (∀ intersect stack_width ins outs rest w,
      gst_caps_is_fixed [ins] = true →
      gst_structure_get_value outs "width" = Some (VIntRange 16 32) →
      gst_structure_get_int ins "width" = Some w →
      ∃ outs',
        gst_audio_convert_fixate_caps intersect stack_width [ins] (outs :: rest)
          = outs' :: rest
        ∧ (w = 24 → gst_structure_get_value outs' "width" = Some (VInt 24))
        ∧ (w = 8 → gst_structure_get_value outs' "width" = Some (VInt 16))).
Proof.
  split.
  - intros intersect stack_width ins outs rest f v c Hf Hfix Hv Hc Hfree.
    destruct (nearest_int_spec c v Hfree) as (r & Hr & Hnear).
    exists (fixate_structure intersect stack_width ins outs), r.
    split; [by apply fixate_caps_single|]. split; [|done].
    unfold gst_structure_get_value in *.
    rewrite fixate_structure_lookup_numeric
      by (rewrite !elem_of_cons in Hf; rewrite !elem_of_cons; naive_solver).
    cbn zeta. by rewrite Hv, Hc, Hr.
  - intros intersect stack_width ins outs rest w Hfix Hc Hw.
    exists (fixate_structure intersect stack_width ins outs).
    split; [by apply fixate_caps_single|].
    unfold gst_structure_get_value in *.
    rewrite fixate_structure_lookup_numeric by (rewrite !elem_of_cons; naive_solver).
    cbn zeta. rewrite Hw, Hc. by split; intros ->.
Qed.

Lemma fixate_caps_nearest_input_value_witness :
  ∃ outs' r,
    gst_audio_convert_fixate_caps (λ _ _, false) 0 [input_24] [candidate_16_32]
      = [outs']
    ∧ gst_structure_get_value outs' "width" = Some (VInt r)
    ∧ is_nearest (VList [VInt 16; VInt 32]) 24 r.
Proof.
  apply (proj1 fixate_caps_nearest_input_value (λ _ _, false) 0
           input_24 candidate_16_32 [] "width" 24 (VList [VInt 16; VInt 32])).
  - rewrite !elem_of_cons. tauto.
  - vm_compute. reflexivity.
  - vm_compute. reflexivity.
  - vm_compute. reflexivity.
  - exists 16. apply elem_of_cons. by left.
Defined.

(** C1, as the code has it.  When the candidate has freedom [c] in its
    depth, the fixated candidate holds the value of [c] nearest to the
    input's depth if the input has a fixed depth, and otherwise the value
    nearest to the input's width. *)
Theorem fixate_caps_depth_nearest intersect stack_width ins outs rest c :
  gst_caps_is_fixed [ins] = true →
  gst_structure_get_value outs "depth" = Some c →
  has_freedom c →
  ∃ outs' r,
    gst_audio_convert_fixate_caps intersect stack_width [ins] (outs :: rest)
      = outs' :: rest
    ∧ gst_structure_get_value outs' "depth" = Some (VInt r)
    ∧ (∀ d, gst_structure_get_int ins "depth" = Some d → is_nearest c d r)
    ∧ (gst_structure_get_int ins "depth" = None →
       ∀ w, gst_structure_get_int ins "width" = Some w → is_nearest c w r).
Proof.
  intros Hfix Hc Hfree.
  set (t := default (default stack_width (gst_structure_get_int ins "width"))
              (gst_structure_get_int ins "depth")).
  destruct (nearest_int_spec c t Hfree) as (r & Hr & Hnear).
  exists (fixate_structure intersect stack_width ins outs), r.
  split; [by apply fixate_caps_single|].
  unfold gst_structure_get_value in *.
  rewrite fixate_structure_lookup_numeric by (rewrite !elem_of_cons; naive_solver).
  cbn zeta. rewrite Hc. subst t.
  destruct (gst_structure_get_int ins "depth") as [d|]; simpl in *.
  - rewrite Hr. split; [done|]. split; [by intros ? [= <-]|done].
  - rewrite Hr. split; [done|]. split; [done|]. intros _ w Hw.
    by rewrite Hw in Hnear.
Qed.

Lemma fixate_caps_depth_nearest_witness :
  ∃ outs' r,
    gst_audio_convert_fixate_caps (λ _ _, false) 0 [narrow_input] [wide_candidate]
      = [outs']
    ∧ gst_structure_get_value outs' "depth" = Some (VInt r)
    ∧ (∀ d, gst_structure_get_int narrow_input "depth" = Some d →
         is_nearest (VIntRange 1 32) d r)
    ∧ (gst_structure_get_int narrow_input "depth" = None →
       ∀ w, gst_structure_get_int narrow_input "width" = Some w →
         is_nearest (VIntRange 1 32) w r).
Proof.
  apply (fixate_caps_depth_nearest (λ _ _, false) 0
           narrow_input wide_candidate [] (VIntRange 1 32)).
  - vm_compute. reflexivity.
  - vm_compute. reflexivity.
  - simpl. lia.
Defined.

(** C1 as stated fails.  The input has width 8 and no depth; the candidate
    offers widths [16, 32] and depths [1, 32].  The width is fixated to 16
    and the depth to 8, the value nearest to the input's width, while the
    depth nearest to the fixated output width is 16. *)
Lemma fixate_caps_depth_ignores_output_width :
  gst_caps_is_fixed [narrow_input] = true
  ∧ gst_structure_has_field narrow_input "depth" = false
  ∧ has_freedom (VIntRange 1 32)
  ∧ gst_audio_convert_fixate_caps (λ _ _, false) 0 [narrow_input] [wide_candidate]
    = [raw_int [("width", VInt 16); ("depth", VInt 8)]]
  ∧ is_nearest (VIntRange 1 32) 16 16
  ∧ ¬ is_nearest (VIntRange 1 32) 16 8.
Proof.
  split; [by vm_compute|]. split; [by vm_compute|]. split; [simpl; lia|].
  split; [by vm_compute|]. split.
  - split; [simpl; lia|]. intros x Hx. simpl in Hx. lia.
  - intros [_ Hmin]. destruct (Hmin 16) as [?|[? ?]]; simpl; lia.
Qed.

(** ** Results on the fixation of the channel layout *)

(** C8, as the code has it.  Let the fixated channel count be [out_chans]
    and let no layout be resolved from the candidate or the input.  If
    [out_chans] is between 1 and 8 and either exceeds 2 or the candidate
    carries a layout constraint, the layout of the default table for
    [out_chans] is stored; if the candidate carries no layout constraint
    and [out_chans] is at most 2, no layout is stored; if [out_chans]
    exceeds 8 the layout field is left as it was.  The default layout for
    six channels is front-left, front-right, rear-left, rear-right,
    front-center, lfe. *)
Theorem fixate_channels_default_layout intersect ins outs in_chans out_chans :
  gst_structure_get_int ins "channels" = Some in_chans →
  gst_structure_get_int (with_fixated_channels outs in_chans) "channels" = Some out_chans →
  no_layout_resolved intersect ins outs in_chans out_chans →
  (1 ≤ out_chans ≤ 8 →
   2 < out_chans ∨ gst_structure_get_value outs "channel-positions" ≠ None →
   ∃ layout,
     default_layout out_chans = Some layout
     ∧ gst_audio_convert_fixate_channels intersect ins outs
       = gst_structure_set_value (with_fixated_channels outs in_chans)
           "channel-positions" layout)
  ∧ (out_chans ≤ 2 → gst_structure_get_value outs "channel-positions" = None →
     gst_audio_convert_fixate_channels intersect ins outs
       = with_fixated_channels outs in_chans
     ∧ gst_structure_get_value
         (gst_audio_convert_fixate_channels intersect ins outs) "channel-positions"
       = None)
  ∧ (8 < out_chans →
     gst_audio_convert_fixate_channels intersect ins outs
       = with_fixated_channels outs in_chans
     ∧ gst_structure_get_value
         (gst_audio_convert_fixate_channels intersect ins outs) "channel-positions"
       = gst_structure_get_value outs "channel-positions")
  ∧ default_layout 6 =
      Some (VArray [VPosition GST_AUDIO_CHANNEL_POSITION_FRONT_LEFT;
                    VPosition GST_AUDIO_CHANNEL_POSITION_FRONT_RIGHT;
                    VPosition GST_AUDIO_CHANNEL_POSITION_REAR_LEFT;
                    VPosition GST_AUDIO_CHANNEL_POSITION_REAR_RIGHT;
                    VPosition GST_AUDIO_CHANNEL_POSITION_FRONT_CENTER;
                    VPosition GST_AUDIO_CHANNEL_POSITION_LFE]).
Proof.
  intros Hin Hout Hno.
  rewrite (fixate_channels_unresolved intersect ins outs in_chans out_chans Hin Hout Hno).
  assert (fields (with_fixated_channels outs in_chans) !! "channel-positions"
          = fields outs !! "channel-positions") as Hsame
    by by apply fixate_nearest_lookup_ne.
  unfold gst_structure_get_value in *.
  split; [|split; [|split; [|done]]].
  - intros Hrange Hcase.
    destruct (fixate_channels_default_covered _ _ Hout Hrange) as (layout & Hl & Hd).
    exists layout. split; [done|]. rewrite <- Hd.
    destruct (Z.leb_spec out_chans 2); [|by rewrite andb_false_r].
    destruct Hcase as [?|Hsome]; [lia|]. by rewrite bool_decide_eq_false_2.
  - intros Hle Hnone. rewrite bool_decide_eq_true_2 by done.
    destruct (Z.leb_spec out_chans 2); [|lia]. simpl. by rewrite Hsame.
  - intros Hgt. rewrite fixate_channels_default_beyond by lia.
    by destruct (_ && _).
Qed.

Lemma fixate_channels_default_layout_witness :
  ∃ layout,
    default_layout 6 = Some layout
    ∧ gst_audio_convert_fixate_channels (λ _ _, false) two_channels six_to_eight_channels
      = gst_structure_set_value (with_fixated_channels six_to_eight_channels 2)
          "channel-positions" layout.
Proof.
  apply (proj1 (fixate_channels_default_layout (λ _ _, false)
                  two_channels six_to_eight_channels 2 6
                  ltac:(vm_compute; reflexivity) ltac:(vm_compute; reflexivity)
                  ltac:(left; lia))); [lia|left; lia].
Defined.

(** C8 as stated fails.  Input and candidate both have two channels and no
    layout: no layout is resolved from either, the fixated count is 2, and
    the candidate comes back without a layout, although the default table
    has the layout front-left, front-right for two channels. *)
Lemma fixate_channels_stereo_without_layout :
  gst_structure_get_int two_channels "channels" = Some 2
  ∧ gst_structure_get_int (with_fixated_channels two_channels 2) "channels" = Some 2
  ∧ no_layout_resolved (λ _ _, false) two_channels two_channels 2 2
  ∧ gst_audio_convert_fixate_channels (λ _ _, false) two_channels two_channels
    = two_channels
  ∧ gst_structure_get_value two_channels "channel-positions" = None
  ∧ default_layout 2 =
      Some (VArray [VPosition GST_AUDIO_CHANNEL_POSITION_FRONT_LEFT;
                    VPosition GST_AUDIO_CHANNEL_POSITION_FRONT_RIGHT]).
Proof.
  split; [by vm_compute|]. split; [by vm_compute|]. split; [right; by vm_compute|].
  repeat split; by vm_compute.
Qed.

(** A layout of the default table is a fixed value. *)
Lemma default_layout_fixed c layout :
  default_layout c = Some layout → gst_value_is_fixed layout = true.
Proof.
  unfold default_layout. destruct (default_positions !! Z.to_nat (c - 1)) as [row|];
    [|done].
  intros [= <-]. simpl. by induction row.
Qed.

(** A fixed descriptor with three to eight channels and no layout gets the
    default layout from gst_audio_convert_fixate_channels. *)
Lemma fixate_channels_self_default intersect d c :
  gst_caps_is_fixed [d] = true →
  gst_structure_has_field d "channel-positions" = false →
  gst_structure_get_int d "channels" = Some c → 3 ≤ c ≤ 8 →
  ∃ layout,
    default_layout c = Some layout
    ∧ gst_audio_convert_fixate_channels intersect d d
      = gst_structure_set_value d "channel-positions" layout.
Proof.
  intros Hfix Hnone Hc Hrange.
  assert (fields d !! "channel-positions" = None) as Hpos.
  { unfold gst_structure_has_field in Hnone.
    by destruct (fields d !! "channel-positions"). }
  assert (with_fixated_channels d c = d) as Hsame.
  { apply fixate_nearest_fixed. intros ? ?. by eapply caps_is_fixed_lookup. }
  rewrite (fixate_channels_unresolved intersect d d c c); [|done|by rewrite Hsame|].
  - rewrite Hsame. destruct (Z.leb_spec c 2); [lia|]. rewrite andb_false_r.
    apply fixate_channels_default_covered; [done|lia].
  - unfold no_layout_resolved, gst_structure_get_value. rewrite Hpos. by right.
Qed.

(** Once the channels are settled on a structure whose fields are all
    fixed, the rest of the fixation changes nothing. *)
Lemma fixate_structure_after_channels intersect stack_width ins outs s :
  gst_audio_convert_fixate_channels intersect ins outs = s →
  (∀ f v, fields s !! f = Some v → gst_value_is_fixed v = true) →
  fixate_structure intersect stack_width ins outs = s.
Proof.
  intros Hch Hfixed. rewrite fixate_structure_unfold. cbv zeta. rewrite Hch.
  assert (∀ f t, gst_structure_fixate_field_nearest_int s f t = s) as Hn.
  { intros f t. apply fixate_nearest_fixed. intros ? ?. by eapply Hfixed. }
  assert (∀ f t, gst_structure_fixate_field_boolean s f t = s) as Hb.
  { intros f t. apply fixate_boolean_fixed. intros ? ?. by eapply Hfixed. }
  destruct (gst_structure_get_int ins "rate"), (gst_structure_get_int ins "endianness"),
    (gst_structure_get_int ins "width"), (gst_structure_get_boolean ins "signed"); simpl;
    by rewrite ?Hn, ?Hb.
Qed.

(** C9, as the code has it.  A fixed descriptor fixated against itself
    comes back unchanged when it carries a channel layout, or when its
    channel count is at most 2 or above 8 (or not an integer);
    gst_value_intersect is taken to find that a value intersects itself.  A
    fixed descriptor with three to eight channels and no layout comes back
    with the layout of the default table for its channel count added, and
    so not unchanged. *)
Theorem fixate_caps_fixed_self intersect stack_width d :
  gst_caps_is_fixed [d] = true →
  ((∀ v, intersect v v = true) →
   (gst_structure_has_field d "channel-positions" = true
    ∨ ∀ c, gst_structure_get_int d "channels" = Some c → c ≤ 2 ∨ 8 < c) →
   gst_audio_convert_fixate_caps intersect stack_width [d] [d] = [d])
  ∧ (∀ c,
       gst_structure_has_field d "channel-positions" = false →
       gst_structure_get_int d "channels" = Some c → 3 ≤ c ≤ 8 →
       ∃ layout,
         default_layout c = Some layout
         ∧ gst_audio_convert_fixate_caps intersect stack_width [d] [d]
           = [gst_structure_set_value d "channel-positions" layout]
         ∧ gst_audio_convert_fixate_caps intersect stack_width [d] [d] ≠ [d]).
Proof.
  intros Hfix. rewrite fixate_caps_single by done. split.
  - intros Hrefl Hcase. f_equal. apply fixate_structure_after_channels.
    + by apply fixate_channels_self.
    + intros f v. by apply caps_is_fixed_lookup.
  - intros c Hnone Hc Hrange.
    destruct (fixate_channels_self_default intersect d c Hfix Hnone Hc Hrange)
      as (layout & Hlayout & Hch).
    exists layout. split; [done|].
    assert (fixate_structure intersect stack_width d d
            = gst_structure_set_value d "channel-positions" layout) as ->.
    { apply fixate_structure_after_channels; [done|].
      intros f v. unfold gst_structure_set_value. cbn [fields].
      intros [[_ <-]|[_ Hv]]%lookup_insert_Some.
      - by eapply default_layout_fixed.
      - by eapply caps_is_fixed_lookup. }
    split; [done|]. intros [= Heq].
    unfold gst_structure_has_field in Hnone.
    apply (f_equal (λ s, fields s !! "channel-positions")) in Heq.
    cbn [gst_structure_set_value fields] in Heq.
    rewrite lookup_insert_eq in Heq. by rewrite <- Heq in Hnone.
Qed.

Lemma fixate_caps_fixed_self_witness :
  gst_audio_convert_fixate_caps (λ _ _, true) 0 [unpositioned_five] [unpositioned_five]
  = [unpositioned_five]
  ∧ ∃ layout,
      default_layout 6 = Some layout
      ∧ gst_audio_convert_fixate_caps (λ _ _, true) 0 [six_channels] [six_channels]
        = [gst_structure_set_value six_channels "channel-positions" layout]
      ∧ gst_audio_convert_fixate_caps (λ _ _, true) 0 [six_channels] [six_channels]
        ≠ [six_channels].
Proof.
  split.
  - apply (proj1 (fixate_caps_fixed_self (λ _ _, true) 0 unpositioned_five
                    ltac:(vm_compute; reflexivity))).
    + done.
    + left. vm_compute. reflexivity.
  - apply (proj2 (fixate_caps_fixed_self (λ _ _, true) 0 six_channels
                    ltac:(vm_compute; reflexivity)) 6).
    + vm_compute. reflexivity.
    + vm_compute. reflexivity.
    + lia.
Defined.

(** C9 as stated fails.  A fixed descriptor with six channels and no layout,
    fixated against itself, comes back with the default layout for six
    channels added. *)
Lemma fixate_caps_six_channels_gains_layout :
  gst_caps_is_fixed [six_channels] = true
  ∧ gst_structure_get_value six_channels "channel-positions" = None
  ∧ gst_audio_convert_fixate_caps (λ _ _, true) 0 [six_channels] [six_channels]
    = [gst_structure_set_value six_channels "channel-positions"
         (VArray [VPosition GST_AUDIO_CHANNEL_POSITION_FRONT_LEFT;
                  VPosition GST_AUDIO_CHANNEL_POSITION_FRONT_RIGHT;
                  VPosition GST_AUDIO_CHANNEL_POSITION_REAR_LEFT;
                  VPosition GST_AUDIO_CHANNEL_POSITION_REAR_RIGHT;
                  VPosition GST_AUDIO_CHANNEL_POSITION_FRONT_CENTER;
                  VPosition GST_AUDIO_CHANNEL_POSITION_LFE])]
  ∧ gst_audio_convert_fixate_caps (λ _ _, true) 0 [six_channels] [six_channels]
    ≠ [six_channels].
Proof.
  split; [by vm_compute|]. split; [by vm_compute|]. split; [by vm_compute|].
  intros Heq.
  apply (f_equal (λ caps, head caps ≫= λ s, gst_structure_get_value s "channel-positions"))
    in Heq.
  vm_compute in Heq. discriminate.
Qed.

(** ** Results on parsing and sizes *)

(** *** The parser and its out-parameter *)

(** The two forms of the parser agree: a TRUE comes with the format of the
    first form, where a float format keeps the signedness and the depth the
    cleaned format of the caller had, and a FALSE is a FALSE. *)
Lemma parse_caps_fmt_agrees get_positions byte_order clean caps fmt0 :
  match gst_audio_convert_parse_caps get_positions byte_order caps with
  | inl f =>
      gst_audio_convert_parse_caps_fmt get_positions byte_order clean caps fmt0
      = (true,
         mkFmt (is_int f) (endianness f) (width f) (rate f) (channels f) (pos f)
           (unpositioned_layout f)
           (if is_int f then sign f else sign (clean fmt0))
           (if is_int f then depth f else depth (clean fmt0))
           (unit_size f))
  | inr _ =>
      (gst_audio_convert_parse_caps_fmt get_positions byte_order clean caps fmt0).1
      = false
  end.
Proof.
  unfold gst_audio_convert_parse_caps, gst_audio_convert_parse_caps_fmt.
  destruct (gst_caps_is_fixed caps); [|done]. cbn [negb].
  destruct caps as [|structure rest]; [done|]. cbv zeta.
  destruct (gst_structure_get_int structure "channels") as [c|]; [|done].
  destruct (get_positions structure) as [p|]; [|done].
  destruct (gst_structure_get_int structure "width") as [w|]; [|done].
  destruct (gst_structure_get_int structure "rate") as [r|]; [|done].
  destruct (structure_has_fixed_channel_positions get_positions structure) as [u|];
    (destruct (negb (w =? 8));
     [destruct (gst_structure_get_int structure "endianness") as [e|]; [|done]|]);
    cbn [is_int set_endianness set_rate set_width set_unpositioned_layout set_pos
         set_channels set_is_int];
    (destruct (String.eqb (name structure) "audio/x-raw-int"); [|done]);
    (destruct (gst_structure_get_boolean structure "signed") as [b|]; [|done]);
    (destruct (gst_structure_get_int structure "depth") as [d|]; [|done]);
    by destruct (d >? w).
Qed.

(** C6, as the code has it.  A fixed integer descriptor whose depth exceeds
    its width is not parsed: the parser returns FALSE, and the unit-size
    query and gst_audio_convert_set_caps return FALSE in turn, the element
    staying as it was.  The parser does not empty the caller's format
    itself: when the other fields are there, so that the depth test is
    reached, it has written the channels, the positions, the width, the
    rate, the endianness, the signedness and the depth, and it returns what
    audio_convert_clean_fmt leaves of that format.  With a depth of at most
    the width the parser never fails at the label for that test, and it
    succeeds, both forms of it, when the other fields it reads are there. *)
Theorem parse_caps_depth_exceeds_width
    get_positions byte_order clean prepare this structure other fmt0 w d :
  gst_caps_is_fixed [structure] = true →
  name structure = "audio/x-raw-int" →
  gst_structure_get_int structure "width" = Some w →
  gst_structure_get_int structure "depth" = Some d →
  (w < d →
   (gst_audio_convert_parse_caps_fmt get_positions byte_order clean [structure] fmt0).1
   = false
   ∧ (∃ e, gst_audio_convert_parse_caps get_positions byte_order [structure] = inr e)
   ∧ gst_audio_convert_get_unit_size get_positions byte_order [structure] = None
   ∧ gst_audio_convert_set_caps get_positions byte_order prepare this [structure] other
     = (false, this)
   ∧ gst_audio_convert_set_caps get_positions byte_order prepare this other [structure]
     = (false, this)
   ∧ ∀ c p r b e,
       gst_structure_get_int structure "channels" = Some c →
       get_positions structure = Some p →
       gst_structure_get_int structure "rate" = Some r →
       (if w =? 8 then e = byte_order
        else gst_structure_get_int structure "endianness" = Some e) →
       gst_structure_get_boolean structure "signed" = Some b →
       gst_audio_convert_parse_caps get_positions byte_order [structure]
       = inr not_allowed
       ∧ gst_audio_convert_parse_caps_fmt get_positions byte_order clean
           [structure] fmt0
         = (false,
            clean (mkFmt true e w r c p
                     (default false
                        (structure_has_fixed_channel_positions get_positions structure))
                     b d (unit_size (clean fmt0)))))
  ∧ (d ≤ w →
     gst_audio_convert_parse_caps get_positions byte_order [structure] ≠ inr not_allowed)
  ∧ (d ≤ w →
     is_Some (gst_structure_get_int structure "channels") →
     is_Some (get_positions structure) →
     is_Some (gst_structure_get_int structure "rate") →
     w = 8 ∨ is_Some (gst_structure_get_int structure "endianness") →
     is_Some (gst_structure_get_boolean structure "signed") →
     ∃ fmt, gst_audio_convert_parse_caps get_positions byte_order [structure] = inl fmt
            ∧ gst_audio_convert_parse_caps_fmt get_positions byte_order clean
                [structure] fmt0 = (true, fmt)
            ∧ is_int fmt = true ∧ width fmt = w ∧ depth fmt = d).
Proof.
  intros Hfix Hname Hw Hd. split; [|split].
  - intros Hlt.
    assert (∃ e, gst_audio_convert_parse_caps get_positions byte_order [structure]
                 = inr e) as [err Herr].
    { unfold gst_audio_convert_parse_caps. rewrite Hfix, Hname, Hw, Hd. simpl.
      destruct (Z.gtb_spec d w); [|lia]. repeat case_match; simplify_eq; eauto. }
    split.
    { pose proof (parse_caps_fmt_agrees get_positions byte_order clean
                    [structure] fmt0) as Hagree.
      by rewrite Herr in Hagree. }
    split; [by exists err|]. split.
    { unfold gst_audio_convert_get_unit_size. by rewrite Herr. }
    split.
    { unfold gst_audio_convert_set_caps. by rewrite Herr. }
    split.
    { unfold gst_audio_convert_set_caps. rewrite Herr.
      by destruct (gst_audio_convert_parse_caps _ _ other). }
    intros c p r b e Hc Hp Hr He Hb.
    unfold gst_audio_convert_parse_caps, gst_audio_convert_parse_caps_fmt.
    rewrite Hfix, Hname, Hc, Hp, Hw, Hr, Hd, Hb. cbn [negb]. cbv zeta.
    destruct (Z.gtb_spec d w); [|lia].
    destruct (Z.eqb_spec w 8) as [->|Hne]; cbn [negb].
    + subst e.
      by destruct (structure_has_fixed_channel_positions get_positions structure).
    + rewrite He.
      by destruct (structure_has_fixed_channel_positions get_positions structure).
  - intros Hle. unfold gst_audio_convert_parse_caps. rewrite Hfix, Hname, Hw, Hd.
    simpl. destruct (Z.gtb_spec d w); [lia|]. by repeat case_match.
  - intros Hle [c Hc] [p Hp] [r Hr] Hend [sg Hsg].
    assert (∃ fmt, gst_audio_convert_parse_caps get_positions byte_order [structure]
                   = inl fmt ∧ is_int fmt = true ∧ width fmt = w ∧ depth fmt = d)
      as (fmt & Hfmt & Hint & Hwf & Hdf).
    { unfold gst_audio_convert_parse_caps. rewrite Hfix, Hname, Hc, Hp, Hw, Hr, Hd, Hsg.
      simpl. destruct (Z.gtb_spec d w); [lia|].
      destruct (Z.eqb_spec w 8); simpl; [by eexists|].
      destruct Hend as [?|[e ->]]; [done|]. by eexists. }
    exists fmt. split; [done|]. split; [|done].
    pose proof (parse_caps_fmt_agrees get_positions byte_order clean
                  [structure] fmt0) as Hagree.
    rewrite Hfmt, Hint in Hagree. rewrite Hagree. f_equal.
    rewrite <- Hint. by destruct fmt.
Qed.

Lemma parse_caps_depth_exceeds_width_witness :
  (gst_audio_convert_parse_caps_fmt mono_positions G_LITTLE_ENDIAN release_positions
     [cd_mono_bad_depth] zero_fmt).1 = false
  ∧ (∃ e, gst_audio_convert_parse_caps mono_positions G_LITTLE_ENDIAN
            [cd_mono_bad_depth] = inr e)
  ∧ gst_audio_convert_get_unit_size mono_positions G_LITTLE_ENDIAN
      [cd_mono_bad_depth] = None
  ∧ gst_audio_convert_set_caps mono_positions G_LITTLE_ENDIAN prepare_formats
      stereo_convert [cd_mono_bad_depth] [cd_stereo] = (false, stereo_convert)
  ∧ gst_audio_convert_set_caps mono_positions G_LITTLE_ENDIAN prepare_formats
      stereo_convert [cd_stereo] [cd_mono_bad_depth] = (false, stereo_convert)
  ∧ gst_audio_convert_parse_caps mono_positions G_LITTLE_ENDIAN [cd_mono_bad_depth]
    = inr not_allowed
  ∧ gst_audio_convert_parse_caps_fmt mono_positions G_LITTLE_ENDIAN
      release_positions [cd_mono_bad_depth] zero_fmt
    = (false,
       release_positions
         (mkFmt true 1234 16 44100 1 [GST_AUDIO_CHANNEL_POSITION_FRONT_MONO]
            (default false
               (structure_has_fixed_channel_positions mono_positions
                  cd_mono_bad_depth))
            true 24 (unit_size (release_positions zero_fmt)))).
Proof.
  pose proof (proj1 (parse_caps_depth_exceeds_width mono_positions G_LITTLE_ENDIAN
                       release_positions prepare_formats stereo_convert
                       cd_mono_bad_depth [cd_stereo] zero_fmt 16 24
                       ltac:(vm_compute; reflexivity) ltac:(reflexivity)
                       ltac:(vm_compute; reflexivity) ltac:(vm_compute; reflexivity))
                ltac:(lia))
    as (Hfalse & Herr & Hsize & Hin & Hout & Hfmt).
  split; [exact Hfalse|]. split; [exact Herr|]. split; [exact Hsize|].
  split; [exact Hin|]. split; [exact Hout|].
  apply (Hfmt 1 [GST_AUDIO_CHANNEL_POSITION_FRONT_MONO] 44100 true 1234);
    vm_compute; reflexivity.
Defined.

(** C6 as stated fails on "no format state retained".  The descriptor has
    every field the parser reads and a depth of 24 in a width of 16, and the
    caller hands in a zeroed format.  The parse fails at the depth test,
    and, whatever audio_convert_clean_fmt is, the parser hands it a format
    in which the width 16, the depth 24, the rate, the signedness and the
    channel count are written, and returns what it leaves; with a cleaner
    that only releases the positions the format comes back with them.  With
    the depth 16 the same descriptor is parsed. *)
Lemma parse_caps_failure_keeps_fields :
  gst_caps_is_fixed [cd_mono_bad_depth] = true
  ∧ gst_structure_get_int cd_mono_bad_depth "width" = Some 16
  ∧ gst_structure_get_int cd_mono_bad_depth "depth" = Some 24
  ∧ gst_audio_convert_parse_caps mono_positions G_LITTLE_ENDIAN [cd_mono_bad_depth]
    = inr not_allowed
  ∧ (∀ clean, ∃ written,
       gst_audio_convert_parse_caps_fmt mono_positions G_LITTLE_ENDIAN clean
         [cd_mono_bad_depth] zero_fmt = (false, clean written)
       ∧ width written = 16 ∧ depth written = 24 ∧ rate written = 44100
       ∧ sign written = true ∧ channels written = 1)
  ∧ gst_audio_convert_parse_caps_fmt mono_positions G_LITTLE_ENDIAN release_positions
      [cd_mono_bad_depth] zero_fmt
    = (false, mkFmt true 1234 16 44100 1 [] false true 24 0)
  ∧ gst_audio_convert_parse_caps_fmt mono_positions G_LITTLE_ENDIAN release_positions
      [gst_structure_set_value cd_mono_bad_depth "depth" (VInt 16)] zero_fmt
    = (true, mkFmt true 1234 16 44100 1 [GST_AUDIO_CHANNEL_POSITION_FRONT_MONO]
               false true 16 2).
Proof.
  split; [by vm_compute|]. split; [by vm_compute|]. split; [by vm_compute|].
  split; [by vm_compute|]. split; [|split; by vm_compute].
  intros clean. eexists. split; [reflexivity|]. by vm_compute.
Qed.

(** C7.  For caps that parse, the unit size of the format is the width of
    the structure times its channels, divided by 8, in the arithmetic of a
    [gint]; the unit-size query stores it in a [gsize]; with the product
    between 0 and the largest [gint] both are (width * channels) / 8.  The
    number of samples of a buffer is its size divided by the unit size,
    rounded down, for a positive unit size and a quotient within the range
    of a [gint], and gst_audio_convert_transform asks the converter for the
    sizes of, and converts, that number of samples and no other.  Width 16
    and two channels give a unit size of 4, and a buffer of 10 bytes then
    holds 2 samples. *)
Theorem unit_size_and_samples :
  (∀ get_positions byte_order structure fmt w c,
      gst_audio_convert_parse_caps get_positions byte_order [structure] = inl fmt →
      gst_structure_get_int structure "width" = Some w →
      gst_structure_get_int structure "channels" = Some c →
      unit_size fmt = gint_wrap (w * c) ÷ 8
      ∧ gst_audio_convert_get_unit_size get_positions byte_order [structure]
        = Some (gsize_of_gint (gint_wrap (w * c) ÷ 8))
      ∧ (0 ≤ w * c ≤ G_MAXINT →
         unit_size fmt = (w * c) / 8
         ∧ gst_audio_convert_get_unit_size get_positions byte_order [structure]
           = Some ((w * c) / 8)))
  ∧ (∀ buffer_size unit,
        0 ≤ buffer_size → 0 < unit ≤ G_MAXINT → buffer_size / unit ≤ G_MAXINT →
        ∃ samples,
          transform_samples buffer_size unit = Some samples
          ∧ samples = buffer_size / unit
          ∧ samples * unit ≤ buffer_size < (samples + 1) * unit)
  ∧ (∀ host get_sizes get_sizes' convert convert' this inbuf outbuf samples,
        transform_samples (Z.of_nat (length (buf_data inbuf)))
          (unit_size (ctx_in (ctx this))) = Some samples →
        get_sizes (ctx this) samples = get_sizes' (ctx this) samples →
        (∀ src dst writable,
           convert (ctx this) src dst samples writable
           = convert' (ctx this) src dst samples writable) →
        gst_audio_convert_transform host get_sizes convert this inbuf outbuf
        = gst_audio_convert_transform host get_sizes' convert' this inbuf outbuf)
  ∧ (∀ get_positions byte_order structure fmt,
        gst_audio_convert_parse_caps get_positions byte_order [structure] = inl fmt →
        gst_structure_get_int structure "width" = Some 16 →
        gst_structure_get_int structure "channels" = Some 2 →
        unit_size fmt = 4
        ∧ gst_audio_convert_get_unit_size get_positions byte_order [structure] = Some 4
        ∧ transform_samples 10 (unit_size fmt) = Some 2).
Proof.
  assert (∀ get_positions byte_order structure fmt w c,
            gst_audio_convert_parse_caps get_positions byte_order [structure] = inl fmt →
            gst_structure_get_int structure "width" = Some w →
            gst_structure_get_int structure "channels" = Some c →
            unit_size fmt = gint_wrap (w * c) ÷ 8) as Hunit.
  { intros gp bo structure fmt w c Hparse Hw Hc.
    destruct (parse_caps_inv gp bo _ fmt Hparse) as (s & [= <-] & Hw' & Hc' & Hu & _).
    rewrite Hu. congruence. }
  split; [|split; [|split]].
  - intros gp bo structure fmt w c Hparse Hw Hc.
    pose proof (Hunit _ _ _ _ _ _ Hparse Hw Hc) as Hu.
    assert (gst_audio_convert_get_unit_size gp bo [structure]
            = Some (gsize_of_gint (gint_wrap (w * c) ÷ 8))) as Hsize.
    { unfold gst_audio_convert_get_unit_size. by rewrite Hparse, Hu. }
    split; [done|]. split; [done|]. intros Hrange.
    rewrite Hu, Hsize. unfold G_MAXINT in Hrange.
    rewrite gint_wrap_small by (unfold G_MININT, G_MAXINT; lia).
    rewrite Z.quot_div_nonneg by lia. split; [done|].
    unfold gsize_of_gint. rewrite Z.mod_small; [done|].
    pose proof (Z.div_pos (w * c) 8). pose proof (Z.div_le_upper_bound (w * c) 8 (2 ^ 31)).
    lia.
  - intros size unit Hsize Hunit' Hq. unfold transform_samples, gsize_of_gint.
    unfold G_MAXINT in *.
    rewrite Z.mod_small by lia.
    destruct (Z.eqb_spec unit 0); [lia|].
    exists (size / unit). split.
    + rewrite gint_wrap_small; [done|]. unfold G_MININT, G_MAXINT.
      pose proof (Z.div_pos size unit). lia.
    + split; [done|].
      pose proof (Z.mul_div_le size unit). pose proof (Z.mul_succ_div_gt size unit). lia.
  - intros host gs gs' cv cv' this inbuf outbuf samples Hsamples Hgs Hcv.
    unfold gst_audio_convert_transform. rewrite Hsamples, Hgs.
    destruct (gs' (ctx this) samples) as [[insize outsize]|]; [|done].
    repeat case_match; try done; congruence.
  - intros gp bo structure fmt Hparse Hw Hc.
    pose proof (Hunit _ _ _ _ _ _ Hparse Hw Hc) as Hu.
    change (gint_wrap (16 * 2) ÷ 8) with 4 in Hu.
    unfold gst_audio_convert_get_unit_size. rewrite Hparse, Hu. by vm_compute.
Qed.

Lemma unit_size_and_samples_witness :
  unit_size s16_stereo_format = 4
  ∧ gst_audio_convert_get_unit_size (λ s, default_positions !! 1%nat) G_LITTLE_ENDIAN
      [cd_stereo] = Some 4
  ∧ transform_samples 10 (unit_size s16_stereo_format) = Some 2.
Proof.
  apply (proj2 (proj2 (proj2 unit_size_and_samples))
           (λ s, default_positions !! 1%nat) G_LITTLE_ENDIAN
           cd_stereo s16_stereo_format); vm_compute; reflexivity.
Defined.

(** ** Results on the expansion *)

(** C3.  For an integer structure with fixed width, depth, rate and
    channels, the first structure handed to the merge, which is also the
    first structure of the result, offers both byte orders and both
    signednesses and keeps the width, depth, rate and channels of the
    input. *)
Theorem tierA_lossless_integer
    get_positions subset caps_subset intersect structure w d r c :
  name structure = "audio/x-raw-int" →
  gst_structure_get_int structure "width" = Some w →
  gst_structure_get_int structure "depth" = Some d →
  gst_structure_get_int structure "rate" = Some r →
  gst_structure_get_int structure "channels" = Some c →
  transform_structure get_positions 0 structure !! 0%nat
    = Some (TierA, tierA_structure structure)
  ∧ head (gst_audio_convert_transform_caps get_positions subset caps_subset intersect
            [structure] None) = Some (tierA_structure structure)
  ∧ name (tierA_structure structure) = "audio/x-raw-int"
  ∧ gst_structure_get_value (tierA_structure structure) "endianness"
    = Some (VList [VInt G_LITTLE_ENDIAN; VInt G_BIG_ENDIAN])
  ∧ gst_structure_get_value (tierA_structure structure) "signed"
    = Some (VList [VBoolean true; VBoolean false])
  ∧ gst_structure_get_value (tierA_structure structure) "width" = Some (VInt w)
  ∧ gst_structure_get_value (tierA_structure structure) "depth" = Some (VInt d)
  ∧ gst_structure_get_value (tierA_structure structure) "rate" = Some (VInt r)
  ∧ gst_structure_get_value (tierA_structure structure) "channels" = Some (VInt c).
Proof.
  intros Hname Hw Hd Hr Hc.
  assert (∀ f v, gst_structure_get_int structure f = Some v →
                 fields structure !! f = Some (VInt v)) as Hint.
  { intros f v. unfold gst_structure_get_int. by repeat case_match; intros [= ->]. }
  apply Hint in Hw, Hd, Hr, Hc.
  assert (String.eqb (name structure) "audio/x-raw-float" = false) as Hfloat
    by by rewrite Hname.
  split; [done|]. split.
  { rewrite transform_caps_single.
    destruct (merge_first_head subset (tierA_structure structure)
                (tail (transform_structure get_positions 0 structure).*2)) as [l' Hl'].
    unfold transform_structure in *. cbn [fmap list_fmap app snd tail] in *.
    by rewrite Hl'. }
  unfold gst_structure_get_value, tierA_structure.
  rewrite Hfloat. split; [by rewrite make_lossless_changes_name, stripped_name|].
  split; [by apply make_lossless_changes_endianness|].
  split; [by apply make_lossless_changes_signed|].
  rewrite !make_lossless_changes_int_lookup_ne by done.
  rewrite (stripped_lookup_depth _ _ Hd), !stripped_lookup by done.
  rewrite !decide_True by (unfold fields_used; set_solver).
  by rewrite Hw, Hr, Hc.
Qed.

Lemma tierA_lossless_integer_witness :
  transform_structure read_channel_positions 0 cd_stereo !! 0%nat
    = Some (TierA, tierA_structure cd_stereo)
  ∧ head (gst_audio_convert_transform_caps read_channel_positions
            (λ _ _, false) (λ _ _, false) (λ filter _, filter) [cd_stereo] None)
    = Some (tierA_structure cd_stereo)
  ∧ name (tierA_structure cd_stereo) = "audio/x-raw-int"
  ∧ gst_structure_get_value (tierA_structure cd_stereo) "endianness"
    = Some (VList [VInt G_LITTLE_ENDIAN; VInt G_BIG_ENDIAN])
  ∧ gst_structure_get_value (tierA_structure cd_stereo) "signed"
    = Some (VList [VBoolean true; VBoolean false])
  ∧ gst_structure_get_value (tierA_structure cd_stereo) "width" = Some (VInt 16)
  ∧ gst_structure_get_value (tierA_structure cd_stereo) "depth" = Some (VInt 16)
  ∧ gst_structure_get_value (tierA_structure cd_stereo) "rate" = Some (VInt 44100)
  ∧ gst_structure_get_value (tierA_structure cd_stereo) "channels" = Some (VInt 2).
Proof.
  apply (tierA_lossless_integer read_channel_positions
           (λ _ _, false) (λ _ _, false) (λ filter _, filter) cd_stereo 16 16 44100 2);
    vm_compute; reflexivity.
Defined.

(** Tier B when mixing is allowed, for the count [c] that the local
    [channels] holds once the structure has been read: the structures of
    tier B (the one of the input's kind and its float/int counterpart)
    constrain the channels to [1, 11] if [c] is 0, to 11 if it is 11 and to
    [c, 11] otherwise; the constraint allows no value below [c], and the
    structures carry no layout.  [c] is the fixed channel count of the
    structure; for a structure without one it is [channels0], what the
    local held before: 0 for the first structure of the caps. *)
Lemma tierB_channels_grow get_positions channels0 structure t d :
  allow_mixing get_positions structure = true →
  (t, d) ∈ transform_structure get_positions channels0 structure →
  t = TierB ∨ t = TierB' →
  gst_structure_get_value d "channels"
    = Some (if channels_of channels0 structure =? 0 then VIntRange 1 11
            else if channels_of channels0 structure =? 11 then VInt 11
            else VIntRange (channels_of channels0 structure) 11)
  ∧ (∀ c', gst_structure_get_value d "channels" = Some c' →
           ∀ x, allowed c' x → channels_of channels0 structure ≤ x)
  ∧ gst_structure_get_value d "channel-positions" = None
  ∧ (TierB, tierB_structure get_positions channels0 structure)
      ∈ transform_structure get_positions channels0 structure.
Proof.
  intros Hmix Hin Ht. unfold gst_structure_get_value.
  set (c := channels_of channels0 structure).
  destruct (tierB_mixing get_positions channels0 structure Hmix) as [Hch Hpos].
  destruct (transform_structure_tiers _ _ _ _ _ Hin) as (HB & HB' & _).
  assert (fields d !! "channels" = Some (grown_channels c)
          ∧ fields d !! "channel-positions" = None) as [Hd Hp].
  { destruct Ht as [->| ->].
    - by rewrite (HB eq_refl).
    - by rewrite (HB' eq_refl), !other_format_lookup_ne. }
  split; [done|]. split; [|split; [done|]].
  - intros c' Hc' x. rewrite Hd in Hc'. injection Hc' as <-.
    unfold grown_channels.
    destruct (Z.eqb_spec c 0); [simpl; lia|].
    destruct (Z.eqb_spec c 11); simpl; lia.
  - apply transform_structure_emits.
Qed.

(** A structure without a channel count allows mixing, and its tier B grows
    from the count the local [channels] was left with. *)
Lemma tierB_channels_carried get_positions channels0 structure :
  gst_structure_get_int structure "channels" = None →
  allow_mixing get_positions structure = true
  ∧ gst_structure_get_value (tierB_structure get_positions channels0 structure) "channels"
    = Some (grown_channels channels0).
Proof.
  intros Hnone.
  assert (allow_mixing get_positions structure = true) as Hmix.
  { unfold allow_mixing. by rewrite Hnone. }
  split; [done|].
  destruct (tierB_mixing get_positions channels0 structure Hmix) as [Hch _].
  unfold gst_structure_get_value. rewrite Hch. unfold channels_of. by rewrite Hnone.
Qed.

Lemma merge_all_append l : ∀ ret,
  foldl (gst_caps_merge_structure (λ _ _, false)) ret l = ret ++ l.
Proof.
  induction l as [|s l IH]; intros ret; simpl; [by rewrite app_nil_r|].
  rewrite IH. unfold gst_caps_merge_structure.
  assert (existsb (λ _, false) ret = false) as -> by by induction ret.
  by rewrite <- app_assoc.
Qed.

(** The expansion of caps of two structures, when nothing is found to be a
    subset of anything: the second structure is expanded with the local
    [channels] as the first has left it. *)
Lemma transform_caps_pair get_positions intersect first second :
  gst_audio_convert_transform_caps get_positions (λ _ _, false) (λ _ _, false)
    intersect [first; second] None
  = (transform_structure get_positions 0 first).*2
    ++ (transform_structure get_positions (channels_of 0 first) second).*2.
Proof.
  unfold gst_audio_convert_transform_caps. cbn [transform_loop].
  rewrite !andb_false_r. by rewrite !merge_all_append.
Qed.

(** C4: the claim fails on a structure that follows another.  The caps hold
    a structure with six channels and, after it, one without a channel
    count (an unconstrained count); mixing is allowed for the second
    structure.  Its tier B is in the result with the channels [6, 11]: the
    local [channels], declared once before the loop over the structures,
    still holds the 6 of the first structure.  The claim has [1, 11] there,
    which the same structure gets when it comes first or alone. *)
Theorem tierB_channels_stale_count :
  gst_structure_get_int six_channels "channels" = Some 6
  ∧ gst_structure_get_int no_channel_count "channels" = None
  ∧ allow_mixing read_channel_positions no_channel_count = true
  ∧ gst_audio_convert_transform_caps read_channel_positions (λ _ _, false)
      (λ _ _, false) (λ filter _, filter) [six_channels; no_channel_count] None
    = (transform_structure read_channel_positions 0 six_channels).*2
      ++ (transform_structure read_channel_positions 6 no_channel_count).*2
  ∧ (TierB, tierB_structure read_channel_positions 6 no_channel_count)
      ∈ transform_structure read_channel_positions 6 no_channel_count
  ∧ tierB_structure read_channel_positions 6 no_channel_count
      ∈ gst_audio_convert_transform_caps read_channel_positions (λ _ _, false)
          (λ _ _, false) (λ filter _, filter) [six_channels; no_channel_count] None
  ∧ gst_structure_get_value
      (tierB_structure read_channel_positions 6 no_channel_count) "channels"
    = Some (VIntRange 6 11)
  ∧ gst_structure_get_value
      (tierB_structure read_channel_positions 6 no_channel_count) "rate"
    = Some (VInt 8000)
  ∧ tierB_structure read_channel_positions 0 no_channel_count
      ∈ gst_audio_convert_transform_caps read_channel_positions (λ _ _, false)
          (λ _ _, false) (λ filter _, filter) [no_channel_count] None
  ∧ gst_structure_get_value
      (tierB_structure read_channel_positions 0 no_channel_count) "channels"
    = Some (VIntRange 1 11).
Proof.
  assert (gst_structure_get_int no_channel_count "channels" = None) as Hnone
    by by vm_compute.
  assert (channels_of 0 six_channels = 6) as Hsix by by vm_compute.
  pose proof (transform_caps_pair read_channel_positions (λ filter _, filter)
                six_channels no_channel_count) as Hpair.
  rewrite Hsix in Hpair.
  destruct (tierB_channels_carried read_channel_positions 6 no_channel_count Hnone)
    as [Hmix Hstale].
  destruct (tierB_channels_carried read_channel_positions 0 no_channel_count Hnone)
    as [_ Hfirst].
  pose proof (proj1 (proj2 (transform_structure_emits read_channel_positions 6
                                no_channel_count))) as Hemit6.
  pose proof (proj1 (proj2 (transform_structure_emits read_channel_positions 0
                                no_channel_count))) as Hemit0.
  split; [by vm_compute|]. split; [done|]. split; [done|]. split; [done|].
  split; [done|]. split.
  { rewrite Hpair. apply elem_of_app. right.
    by apply (list_elem_of_fmap_2 snd _ (TierB, _)). }
  split; [done|]. split; [by vm_compute|]. split; [|done].
  rewrite transform_caps_single, merge_all_append, app_nil_l.
  by apply (list_elem_of_fmap_2 snd _ (TierB, _)).
Qed.

(** C5.  For an input with a fixed channel count [c] whose layout is found
    unpositioned, every structure of tiers B and D, of the input's kind or
    its counterpart, has its channels fixed to [c] and carries the input's
    layout field as it is (none if the input has none). *)
Theorem unpositioned_pins_channels get_positions channels0 structure c t d :
  gst_structure_get_int structure "channels" = Some c →
  structure_has_fixed_channel_positions get_positions structure = Some true →
  (t, d) ∈ transform_structure get_positions channels0 structure →
  t ∈ [TierB; TierB'; TierD; TierD'] →
  gst_structure_get_value d "channels" = Some (VInt c)
  ∧ gst_structure_get_value d "channel-positions"
    = gst_structure_get_value structure "channel-positions".
Proof.
  intros Hc Hu Hin Ht.
  pose proof (allow_mixing_unpositioned _ _ _ Hc Hu) as Hmix.
  destruct (transform_structure_pinned _ _ _ _ _ Hmix Hin Ht) as [Hch Hpos].
  split; [|done]. rewrite Hch. unfold channels_of. by rewrite Hc.
Qed.

Lemma unpositioned_pins_channels_witness :
  gst_structure_get_value
    (tierD_structure read_channel_positions 0 unpositioned_five) "channels"
    = Some (VInt 5)
  ∧ gst_structure_get_value
      (tierD_structure read_channel_positions 0 unpositioned_five) "channel-positions"
    = gst_structure_get_value unpositioned_five "channel-positions".
Proof.
  apply (unpositioned_pins_channels read_channel_positions 0 unpositioned_five 5 TierD
           (tierD_structure read_channel_positions 0 unpositioned_five)).
  - vm_compute. reflexivity.
  - vm_compute. reflexivity.
  - apply transform_structure_emits.
  - set_solver.
Defined.

(** C10.  For a structure with a fixed channel count [c] and no fixed
    layout field: with [c] at most 8 the check reports no fixed positions
    and mixing is allowed; with [c] above 8 it reports an unpositioned
    layout, mixing is not allowed, and the structures of tiers B and D have
    their channels fixed to [c].  A fixed layout whose first position is
    the none-position is reported unpositioned, whatever [c] is. *)
Theorem mixing_eligibility get_positions structure c :
  gst_structure_get_int structure "channels" = Some c →
  (fixed_channel_positions_value
     (gst_structure_get_value structure "channel-positions") = false →
   (c ≤ 8 →
    structure_has_fixed_channel_positions get_positions structure = None
    ∧ allow_mixing get_positions structure = true)
   ∧ (8 < c →
      structure_has_fixed_channel_positions get_positions structure = Some true
      ∧ allow_mixing get_positions structure = false
      ∧ ∀ channels0 t d,
          (t, d) ∈ transform_structure get_positions channels0 structure →
          t ∈ [TierB; TierB'; TierD; TierD'] →
          gst_structure_get_value d "channels" = Some (VInt c)))
  ∧ (∀ v rest,
       gst_structure_get_value structure "channel-positions" = Some v →
       gst_value_is_fixed v = true →
       get_positions structure = Some (GST_AUDIO_CHANNEL_POSITION_NONE :: rest) →
       structure_has_fixed_channel_positions get_positions structure = Some true
       ∧ allow_mixing get_positions structure = false).
Proof.
  intros Hc. split.
  - intros Hval.
    assert (8 < c → structure_has_fixed_channel_positions get_positions structure
                    = Some true) as Hbig.
    { intros Hgt. unfold structure_has_fixed_channel_positions. rewrite Hc. cbv zeta.
      rewrite Hval. destruct (Z.leb_spec c 8); [lia|done]. }
    split.
    + intros Hle. unfold allow_mixing, structure_has_fixed_channel_positions.
      rewrite Hc. cbv zeta. rewrite Hval. by destruct (Z.leb_spec c 8); [|lia].
    + intros Hgt. split; [by apply Hbig|].
      split; [by eapply allow_mixing_unpositioned; [|apply Hbig]|].
      intros channels0 t d Hin Ht.
      pose proof (allow_mixing_unpositioned _ _ _ Hc (Hbig Hgt)) as Hmix.
      destruct (transform_structure_pinned _ _ _ _ _ Hmix Hin Ht) as [Hch _].
      rewrite Hch. unfold channels_of. by rewrite Hc.
  - intros v rest Hv Hfix Hpos.
    assert (structure_has_fixed_channel_positions get_positions structure = Some true)
      as Hu.
    { unfold structure_has_fixed_channel_positions. rewrite Hc. cbv zeta.
      rewrite Hv. simpl. by rewrite Hfix, Hpos. }
    split; [done|]. by eapply allow_mixing_unpositioned.
Qed.

Lemma mixing_eligibility_witness :
  structure_has_fixed_channel_positions read_channel_positions ten_channels = Some true
  ∧ allow_mixing read_channel_positions ten_channels = false
  ∧ ∀ channels0 t d,
      (t, d) ∈ transform_structure read_channel_positions channels0 ten_channels →
      t ∈ [TierB; TierB'; TierD; TierD'] →
      gst_structure_get_value d "channels" = Some (VInt 10).
Proof.
  apply (proj2 (proj1 (mixing_eligibility read_channel_positions ten_channels 10
                         ltac:(vm_compute; reflexivity))
                  ltac:(vm_compute; reflexivity))).
  lia.
Defined.

(** ** Further results on the expansion *)

(** *** Every structure the expansion emits *)

Lemma transform_structure_cases get_positions channels0 structure t d :
  (t, d) ∈ transform_structure get_positions channels0 structure →
  let isfloat := String.eqb (name structure) "audio/x-raw-float" in
  let b := tierB_structure get_positions channels0 structure in
  let dd := tierD_structure get_positions channels0 structure in
  (t = TierA ∧ d = tierA_structure structure)
  ∨ (t = TierA' ∧ d = other_format (tierA_structure structure) isfloat)
  ∨ (t = TierB ∧ d = b)
  ∨ (t = TierB' ∧ d = other_format b isfloat)
  ∨ (t = TierC ∧ isfloat = true
     ∧ d = other_format (set_structure_widths_32_and_64 b) true)
  ∨ (t = TierC ∧ isfloat = false
     ∧ d = gst_structure_set_value (set_structure_widths b 16 32) "depth" (VIntRange 16 32))
  ∨ (t = TierD ∧ d = dd)
  ∨ (t = TierD' ∧ d = other_format dd isfloat)
  ∨ (t = TierE ∧ d = tierE_structure get_positions channels0 structure).
Proof.
  unfold transform_structure, tierC_structures. cbv zeta.
  rewrite !elem_of_app, !elem_of_cons.
  intros Hin.
  destruct (String.eqb (name structure) "audio/x-raw-float") eqn:Hf;
    repeat case_match; rewrite ?elem_of_cons, ?elem_of_nil in Hin;
    destruct_or!; simplify_eq; tauto.
Qed.

Lemma set_widths_32_64_lookup_ne s f :
  f ≠ "width" → fields (set_structure_widths_32_and_64 s) !! f = fields s !! f.
Proof. intros. simpl. by rewrite lookup_insert_ne. Qed.

Lemma pin_channels_lookup_ne s structure c f :
  f ≠ "channels" → f ≠ "channel-positions" →
  fields (pin_channels s structure c) !! f = fields s !! f.
Proof.
  intros. unfold pin_channels. case_match; simpl; by lookup_other.
Qed.

Lemma tierB_lookup_ne get_positions channels0 structure f :
  f ≠ "width" → f ≠ "depth" → f ≠ "channels" → f ≠ "channel-positions" →
  fields (tierB_structure get_positions channels0 structure) !! f
  = fields (tierA_structure structure) !! f.
Proof.
  intros. unfold tierB_structure. cbv zeta.
  repeat case_match; simpl; rewrite ?pin_channels_lookup_ne by done; lookup_other;
    by rewrite ?grow_width_depth_lookup_ne.
Qed.

Lemma tierD_lookup_ne get_positions channels0 structure f :
  f ≠ "channels" → f ≠ "channel-positions" →
  fields (tierD_structure get_positions channels0 structure) !! f
  = fields (tierB_structure get_positions channels0 structure) !! f.
Proof.
  intros. unfold tierD_structure. cbv zeta.
  case_match; simpl; rewrite ?pin_channels_lookup_ne by done; by lookup_other.
Qed.

Lemma tierE_lookup_ne get_positions channels0 structure f :
  f ≠ "width" → f ≠ "depth" → f ≠ "endianness" → f ≠ "signed" →
  fields (tierE_structure get_positions channels0 structure) !! f
  = fields (tierD_structure get_positions channels0 structure) !! f.
Proof.
  intros. unfold tierE_structure. cbv zeta.
  case_match; rewrite ?other_format_lookup_ne by done;
    unfold gst_structure_set_value; cbn [fields]; lookup_other;
    by rewrite set_structure_widths_lookup_ne.
Qed.

(** A field that no step of the expansion writes comes from the stripped
    copy of the input: it is the input's field if the field is one of
    [fields_used], and absent otherwise. *)
Lemma emitted_lookup_untouched get_positions channels0 structure t d f :
  (t, d) ∈ transform_structure get_positions channels0 structure →
  f ≠ "width" → f ≠ "depth" → f ≠ "channels" → f ≠ "channel-positions" →
  f ≠ "endianness" → f ≠ "signed" →
  fields d !! f = if decide (f ∈ fields_used) then fields structure !! f else None.
Proof.
  intros Hin ? ? ? ? ? ?.
  pose proof (tierA_lookup structure f) as HA.
  pose proof (tierB_lookup_ne get_positions channels0 structure f) as HB.
  pose proof (tierD_lookup_ne get_positions channels0 structure f) as HD.
  pose proof (tierE_lookup_ne get_positions channels0 structure f) as HE.
  destruct (transform_structure_cases _ _ _ _ _ Hin)
    as [[_ ->]|[[_ ->]|[[_ ->]|[[_ ->]|[(_ & _ & ->)|[(_ & _ & ->)|[[_ ->]|[[_ ->]|[_ ->]]]]]]]]];
    rewrite ?other_format_lookup_ne by done;
    unfold gst_structure_set_value; cbn [fields]; lookup_other;
    rewrite ?set_structure_widths_lookup_ne, ?set_widths_32_64_lookup_ne by done;
    rewrite ?HE by done; rewrite ?HD by done; rewrite ?HB by done; by rewrite ?HA.
Qed.

(** X1.  Every structure the expansion emits for an input structure has
    the input's rate field as it is (none if the input has none), and has no
    field besides width, depth, rate, channels, endianness, signed and
    channel-positions: the other fields of the input are dropped. *)
Theorem transform_keeps_rate_drops_other_fields
    get_positions channels0 structure t d :
  (t, d) ∈ transform_structure get_positions channels0 structure →
  gst_structure_get_value d "rate" = gst_structure_get_value structure "rate"
  ∧ ∀ f, f ∉ fields_used → f ≠ "channel-positions" →
         gst_structure_has_field d f = false.
Proof.
  intros Hin. unfold gst_structure_get_value, gst_structure_has_field. split.
  - rewrite (emitted_lookup_untouched _ _ _ _ _ "rate" Hin) by done.
    by rewrite decide_True by (unfold fields_used; set_solver).
  - intros f Hf Hcp.
    rewrite (emitted_lookup_untouched _ _ _ _ _ f Hin);
      [by rewrite decide_False| | | | | |]; try done;
      intros ->; apply Hf; unfold fields_used; set_solver.
Qed.

Lemma transform_keeps_rate_drops_other_fields_witness :
  gst_structure_get_value
    (tierB_structure read_channel_positions 0 cd_stereo_tagged) "rate"
  = gst_structure_get_value cd_stereo_tagged "rate"
  ∧ ∀ f, f ∉ fields_used → f ≠ "channel-positions" →
         gst_structure_has_field
           (tierB_structure read_channel_positions 0 cd_stereo_tagged) f = false.
Proof.
  apply (transform_keeps_rate_drops_other_fields read_channel_positions 0
           cd_stereo_tagged TierB).
  apply transform_structure_emits.
Defined.

(** *** The widths set_structure_widths offers *)

Lemma widths_loop_sound fuel : ∀ width max x,
  VInt x ∈ widths_loop fuel width max →
  width ≤ x ≤ max ∧ (x - width) `mod` 8 = 0.
Proof.
  induction fuel as [|fuel IH]; intros width max x; simpl.
  - by intros ?%elem_of_nil.
  - destruct (Z.leb_spec width max); [|by intros ?%elem_of_nil].
    intros [Heq|Hin]%elem_of_cons.
    + injection Heq as ->. rewrite Z.sub_diag. split; [lia|done].
    + apply IH in Hin as [? Hmod]. split; [lia|].
      replace (x - width) with (x - (width + 8) + 1 * 8) by lia.
      by rewrite Z.mod_add.
Qed.

Lemma widths_loop_complete fuel : ∀ width max x,
  (Z.to_nat (max - width + 1) ≤ fuel)%nat →
  width ≤ x ≤ max → (x - width) `mod` 8 = 0 →
  VInt x ∈ widths_loop fuel width max.
Proof.
  induction fuel as [|fuel IH]; intros width max x Hfuel Hx Hmod; [lia|].
  simpl. destruct (Z.leb_spec width max); [|lia].
  destruct (decide (x = width)) as [->|Hne]; [by left|].
  right. assert (width + 8 ≤ x).
  { apply Z.mod_divide in Hmod as [k Hk]; lia. }
  apply IH; [lia|lia|].
  replace (x - (width + 8)) with (x - width + (-1) * 8) by lia.
  by rewrite Z.mod_add.
Qed.

Lemma set_structure_widths_offers s min max :
  ∃ c, gst_structure_get_value (set_structure_widths s min max) "width" = Some c
       ∧ ∀ x, allowed c x ↔ min ≤ x ≤ max ∧ (x - min) `mod` 8 = 0.
Proof.
  unfold set_structure_widths, gst_structure_get_value.
  destruct (Z.eqb_spec min max) as [->|Hne]; simpl; rewrite lookup_insert_eq.
  - eexists; split; [done|]. intros x; simpl. split.
    + intros ->. rewrite Z.sub_diag. split; [lia|done].
    + intros [? _]. lia.
  - eexists; split; [done|]. intros x; simpl. split.
    + apply widths_loop_sound.
    + intros [? ?]. by apply widths_loop_complete.
Qed.

(** *** Names *)

Lemma set_structure_widths_name s min max :
  name (set_structure_widths s min max) = name s.
Proof. unfold set_structure_widths. by case_match. Qed.

(** X2.  set_structure_widths (s, min, max) leaves a width field that
    allows exactly min, min + 8, min + 16, ... up to max: a value [x] is
    allowed if and only if [min ≤ x ≤ max] and [x - min] is a multiple
    of 8.  The name and the other fields of the structure stay as they
    are. *)
Theorem set_structure_widths_allowed s min max :
  (∃ c, gst_structure_get_value (set_structure_widths s min max) "width" = Some c
        ∧ ∀ x, allowed c x ↔ min ≤ x ≤ max ∧ (x - min) `mod` 8 = 0)
  ∧ name (set_structure_widths s min max) = name s
  ∧ ∀ f, f ≠ "width" →
         gst_structure_get_value (set_structure_widths s min max) f
         = gst_structure_get_value s f.
Proof.
  split; [apply set_structure_widths_offers|].
  split; [apply set_structure_widths_name|].
  intros f Hf. unfold gst_structure_get_value.
  by apply set_structure_widths_lookup_ne.
Qed.

Lemma grow_width_depth_name structure s :
  name (grow_width_depth structure s) = name s.
Proof.
  unfold grow_width_depth. repeat case_match; simpl;
    by rewrite ?set_structure_widths_name.
Qed.

Lemma pin_channels_name s structure c : name (pin_channels s structure c) = name s.
Proof. unfold pin_channels. by case_match. Qed.

Lemma tierA_name structure : name (tierA_structure structure) = name structure.
Proof.
  unfold tierA_structure. by rewrite make_lossless_changes_name, stripped_name.
Qed.

Lemma tierB_name get_positions channels0 structure :
  name (tierB_structure get_positions channels0 structure) = name structure.
Proof.
  unfold tierB_structure. cbv zeta.
  repeat case_match; simpl;
    by rewrite ?pin_channels_name, ?grow_width_depth_name, ?tierA_name.
Qed.

Lemma tierD_name get_positions channels0 structure :
  name (tierD_structure get_positions channels0 structure) = name structure.
Proof.
  unfold tierD_structure. cbv zeta.
  case_match; simpl; by rewrite ?pin_channels_name, ?tierB_name.
Qed.

Lemma strip_width_64_name s : name (strip_width_64 s) = name s.
Proof. unfold strip_width_64. by repeat case_match. Qed.

Lemma other_format_name s isfloat :
  name (other_format s isfloat)
  = if isfloat then "audio/x-raw-int" else "audio/x-raw-float".
Proof.
  unfold other_format. destruct isfloat.
  - by rewrite strip_width_64_name, make_lossless_changes_name.
  - by rewrite make_lossless_changes_name.
Qed.

(** *** Byte orders *)

Lemma other_format_endianness s isfloat :
  fields (other_format s isfloat) !! "endianness"
  = Some (VList [VInt G_LITTLE_ENDIAN; VInt G_BIG_ENDIAN]).
Proof.
  unfold other_format. destruct isfloat;
    rewrite ?strip_width_64_lookup_ne by done; apply make_lossless_changes_endianness.
Qed.

Lemma tierA_endianness structure :
  fields (tierA_structure structure) !! "endianness"
  = Some (VList [VInt G_LITTLE_ENDIAN; VInt G_BIG_ENDIAN]).
Proof. apply make_lossless_changes_endianness. Qed.

(** X3.  Every structure the expansion emits offers both byte orders: its
    endianness field is the list of G_LITTLE_ENDIAN and G_BIG_ENDIAN,
    whatever the endianness of the input. *)
Theorem transform_offers_both_byte_orders get_positions channels0 structure t d :
  (t, d) ∈ transform_structure get_positions channels0 structure →
  gst_structure_get_value d "endianness"
  = Some (VList [VInt G_LITTLE_ENDIAN; VInt G_BIG_ENDIAN]).
Proof.
  intros Hin. unfold gst_structure_get_value.
  pose proof (tierA_endianness structure) as HA.
  pose proof (tierB_lookup_ne get_positions channels0 structure "endianness") as HB.
  pose proof (tierD_lookup_ne get_positions channels0 structure "endianness") as HD.
  destruct (transform_structure_cases _ _ _ _ _ Hin)
    as [[_ ->]|[[_ ->]|[[_ ->]|[[_ ->]|[(_ & _ & ->)|[(_ & _ & ->)|[[_ ->]|[[_ ->]|[_ ->]]]]]]]]];
    rewrite ?other_format_endianness; try done.
  - by rewrite HB.
  - unfold gst_structure_set_value; cbn [fields]; lookup_other.
    rewrite set_structure_widths_lookup_ne by done. by rewrite HB.
  - rewrite HD, HB by done. done.
  - unfold tierE_structure. cbv zeta. case_match; [apply other_format_endianness|].
    unfold gst_structure_set_value; cbn [fields]; lookup_other.
    rewrite set_structure_widths_lookup_ne by done. by rewrite HD, HB.
Qed.

Lemma transform_offers_both_byte_orders_witness :
  gst_structure_get_value
    (tierD_structure read_channel_positions 0 cd_stereo) "endianness"
  = Some (VList [VInt G_LITTLE_ENDIAN; VInt G_BIG_ENDIAN]).
Proof.
  apply (transform_offers_both_byte_orders read_channel_positions 0 cd_stereo TierD).
  apply transform_structure_emits.
Defined.

(** *** Float structures *)

Lemma make_lossless_changes_float_shape s :
  float_shape (make_lossless_changes s true).
Proof.
  unfold float_shape, gst_structure_get_value, gst_structure_has_field,
    make_lossless_changes, set_structure_widths_32_and_64. simpl.
  rewrite lookup_insert_eq. lookup_other. by rewrite !lookup_delete_eq.
Qed.

Lemma float_shape_ext d d' :
  fields d' !! "width" = fields d !! "width" →
  fields d' !! "depth" = fields d !! "depth" →
  fields d' !! "signed" = fields d !! "signed" →
  float_shape d → float_shape d'.
Proof.
  unfold float_shape, gst_structure_get_value, gst_structure_has_field.
  by intros -> -> ->.
Qed.

Lemma tierB_float_lookup get_positions channels0 structure f :
  String.eqb (name structure) "audio/x-raw-float" = true →
  f ≠ "channels" → f ≠ "channel-positions" →
  fields (tierB_structure get_positions channels0 structure) !! f
  = fields (tierA_structure structure) !! f.
Proof.
  intros Hf ? ?. unfold tierB_structure. cbv zeta. rewrite Hf. cbn [negb].
  repeat case_match; simpl; rewrite ?pin_channels_lookup_ne by done; by lookup_other.
Qed.

(** X4.  Every float structure the expansion emits has the widths 32 and
    64 and neither a depth nor a signed field. *)
Theorem transform_float_structures get_positions channels0 structure t d :
  (t, d) ∈ transform_structure get_positions channels0 structure →
  name d = "audio/x-raw-float" →
  float_shape d.
Proof.
  intros Hin Hname.
  destruct (String.eqb (name structure) "audio/x-raw-float") eqn:Hf.
  - assert (float_shape (tierA_structure structure)) as HA.
    { unfold tierA_structure. rewrite Hf. apply make_lossless_changes_float_shape. }
    assert (float_shape (tierB_structure get_positions channels0 structure)) as HB.
    { eapply float_shape_ext; [..|exact HA]; by apply tierB_float_lookup. }
    destruct (transform_structure_cases _ _ _ _ _ Hin)
      as [[_ ->]|[[_ ->]|[[_ ->]|[[_ ->]|[(_ & _ & ->)|[(_ & ? & _)|[[_ ->]|[[_ ->]|[_ ->]]]]]]]]];
      rewrite ?Hf in *; rewrite ?other_format_name in Hname; try done.
    + eapply float_shape_ext; [..|exact HB]; by apply tierD_lookup_ne.
    + unfold tierE_structure in Hname. rewrite Hf in Hname.
      by rewrite other_format_name in Hname.
  - assert (name structure ≠ "audio/x-raw-float") as Hne.
    { intros Heq. by rewrite Heq in Hf. }
    destruct (transform_structure_cases _ _ _ _ _ Hin)
      as [[_ ->]|[[_ ->]|[[_ ->]|[[_ ->]|[(_ & ? & _)|[(_ & _ & ->)|[[_ ->]|[[_ ->]|[_ ->]]]]]]]]];
      rewrite ?Hf in *; try done;
      try (unfold other_format; apply make_lossless_changes_float_shape).
    + by rewrite tierA_name in Hname.
    + by rewrite tierB_name in Hname.
    + unfold gst_structure_set_value in Hname. cbn [name] in Hname.
      by rewrite set_structure_widths_name, tierB_name in Hname.
    + by rewrite tierD_name in Hname.
    + unfold tierE_structure in Hname. rewrite Hf in Hname.
      unfold gst_structure_set_value in Hname. cbn [name] in Hname.
      by rewrite set_structure_widths_name, tierD_name in Hname.
Qed.

Lemma transform_float_structures_witness :
  float_shape (other_format (tierA_structure cd_stereo) false).
Proof.
  apply (transform_float_structures read_channel_positions 0 cd_stereo TierA').
  - apply (list_elem_of_lookup_2 _ 1%nat). vm_compute. reflexivity.
  - vm_compute. reflexivity.
Defined.

(** *** Integer structures offered for a float input *)

(** X5.  For a float input, every integer structure the expansion emits
    has the list of widths {32} or {8, 16, 24, 32}; none of them allows the
    width 64. *)
Theorem transform_float_input_integer_widths get_positions channels0 structure t d :
  name structure = "audio/x-raw-float" →
  (t, d) ∈ transform_structure get_positions channels0 structure →
  name d = "audio/x-raw-int" →
  (gst_structure_get_value d "width" = Some (VList [VInt 32])
   ∨ gst_structure_get_value d "width"
     = Some (VList [VInt 8; VInt 16; VInt 24; VInt 32]))
  ∧ ∀ c, gst_structure_get_value d "width" = Some c → ¬ allowed c 64.
Proof.
  intros Hn Hin Hname.
  assert (String.eqb (name structure) "audio/x-raw-float" = true) as Hf
    by by rewrite Hn.
  assert (∀ s, fields s !! "width" = Some (VList [VInt 32; VInt 64]) →
               fields (other_format s true) !! "width" = Some (VList [VInt 32])) as Hstrip.
  { intros s Hs. unfold other_format, strip_width_64, gst_structure_get_value.
    rewrite make_lossless_changes_int_lookup_ne by done. simpl. rewrite Hs.
    simpl. by rewrite lookup_insert_eq. }
  assert (fields (tierA_structure structure) !! "width"
          = Some (VList [VInt 32; VInt 64])) as HA.
  { unfold tierA_structure. rewrite Hf. apply make_lossless_changes_float_shape. }
  assert (fields (tierB_structure get_positions channels0 structure) !! "width"
          = Some (VList [VInt 32; VInt 64])) as HB
    by by rewrite tierB_float_lookup.
  assert (fields (tierD_structure get_positions channels0 structure) !! "width"
          = Some (VList [VInt 32; VInt 64])) as HD
    by by rewrite tierD_lookup_ne.
  unfold gst_structure_get_value.
  assert (fields d !! "width" = Some (VList [VInt 32])
          ∨ fields d !! "width" = Some (VList [VInt 8; VInt 16; VInt 24; VInt 32]))
    as Hcases.
  { destruct (transform_structure_cases _ _ _ _ _ Hin)
      as [[_ ->]|[[_ ->]|[[_ ->]|[[_ ->]|[(_ & _ & ->)|[(_ & ? & _)|[[_ ->]|[[_ ->]|[_ ->]]]]]]]]];
      rewrite ?Hf in *; try done;
      rewrite ?tierA_name, ?tierB_name, ?tierD_name, ?Hn in Hname; try done;
      try (left; by apply Hstrip).
    - left. apply Hstrip. simpl. by rewrite lookup_insert_eq.
    - right. unfold tierE_structure. rewrite Hf. cbv zeta.
      unfold other_format, strip_width_64, gst_structure_get_value.
      rewrite make_lossless_changes_int_lookup_ne by done. simpl.
      lookup_other. rewrite lookup_insert_eq. simpl. by rewrite lookup_insert_eq. }
  split; [done|].
  intros c Hc. destruct Hcases as [Hw|Hw]; rewrite Hw in Hc; injection Hc as <-;
    simpl; rewrite !elem_of_cons, elem_of_nil; intros Hin64; destruct_or!; done.
Qed.

Lemma transform_float_input_integer_widths_witness :
  (gst_structure_get_value (other_format (tierA_structure float_stereo) true) "width"
   = Some (VList [VInt 32])
   ∨ gst_structure_get_value (other_format (tierA_structure float_stereo) true) "width"
     = Some (VList [VInt 8; VInt 16; VInt 24; VInt 32]))
  ∧ ∀ c, gst_structure_get_value
           (other_format (tierA_structure float_stereo) true) "width" = Some c →
         ¬ allowed c 64.
Proof.
  apply (transform_float_input_integer_widths read_channel_positions 0
           float_stereo TierA').
  - reflexivity.
  - apply (list_elem_of_lookup_2 _ 1%nat). vm_compute. reflexivity.
  - vm_compute. reflexivity.
Defined.

(** *** Growth in tier B *)

(** X6.  For an input that is not float and has a fixed width [w] and a
    fixed depth [dp], the structure of tier B allows the widths w, w + 8,
    ... up to 32, and its depth is 32 if [dp] is 32 and the range [dp, 32]
    otherwise: it allows no depth below the input's. *)
Theorem tierB_width_depth_grow get_positions channels0 structure w dp :
  name structure ≠ "audio/x-raw-float" →
  gst_structure_get_int structure "width" = Some w →
  gst_structure_get_int structure "depth" = Some dp →
  ∃ cw cd,
    gst_structure_get_value
      (tierB_structure get_positions channels0 structure) "width" = Some cw
    ∧ gst_structure_get_value
        (tierB_structure get_positions channels0 structure) "depth" = Some cd
    ∧ (∀ x, allowed cw x ↔ w ≤ x ≤ 32 ∧ (x - w) `mod` 8 = 0)
    ∧ cd = (if dp =? 32 then VInt 32 else VIntRange dp 32)
    ∧ (∀ x, allowed cd x → dp ≤ x ≤ 32).
Proof.
  intros Hne Hw Hd.
  assert (String.eqb (name structure) "audio/x-raw-float" = false) as Hf.
  { by apply String.eqb_neq. }
  destruct (set_structure_widths_offers (tierA_structure structure) w 32)
    as (cw & Hcw & Hall).
  exists cw, (if dp =? 32 then VInt 32 else VIntRange dp 32).
  unfold gst_structure_get_value in *.
  assert (∀ f, f ≠ "channels" → f ≠ "channel-positions" →
            fields (tierB_structure get_positions channels0 structure) !! f
            = fields (grow_width_depth structure (tierA_structure structure)) !! f) as HB.
  { intros f ? ?. unfold tierB_structure. cbv zeta. rewrite Hf. cbn [negb].
    repeat case_match; simpl; rewrite ?pin_channels_lookup_ne by done; by lookup_other. }
  rewrite !HB by done. unfold grow_width_depth. rewrite Hw, Hd. cbv zeta.
  split; [|split; [|split; [done|split; [done|]]]].
  - destruct (dp =? 32); simpl; by lookup_other.
  - destruct (dp =? 32); simpl; by rewrite lookup_insert_eq.
  - intros x. destruct (Z.eqb_spec dp 32); simpl; lia.
Qed.

Lemma tierB_width_depth_grow_witness :
  ∃ cw cd,
    gst_structure_get_value
      (tierB_structure read_channel_positions 0 cd_stereo) "width" = Some cw
    ∧ gst_structure_get_value
        (tierB_structure read_channel_positions 0 cd_stereo) "depth" = Some cd
    ∧ (∀ x, allowed cw x ↔ 16 ≤ x ≤ 32 ∧ (x - 16) `mod` 8 = 0)
    ∧ cd = (if 16 =? 32 then VInt 32 else VIntRange 16 32)
    ∧ (∀ x, allowed cd x → 16 ≤ x ≤ 32).
Proof.
  apply (tierB_width_depth_grow read_channel_positions 0 cd_stereo 16 16).
  - vm_compute. discriminate.
  - vm_compute. reflexivity.
  - vm_compute. reflexivity.
Defined.

(** *** The last tier *)

(** X7.  The last structure the expansion emits for an input structure is
    the one of tier E: it is named audio/x-raw-int for a float input and
    like the input otherwise, and it has the widths 8, 16, 24 and 32 and the
    depth range [1, 32]. *)
Theorem tierE_full_integer_range get_positions channels0 structure :
  let e := tierE_structure get_positions channels0 structure in
  last (transform_structure get_positions channels0 structure) = Some (TierE, e)
  ∧ name e = (if String.eqb (name structure) "audio/x-raw-float"
              then "audio/x-raw-int" else name structure)
  ∧ gst_structure_get_value e "width"
    = Some (VList [VInt 8; VInt 16; VInt 24; VInt 32])
  ∧ gst_structure_get_value e "depth" = Some (VIntRange 1 32).
Proof.
  cbv zeta. split.
  { unfold transform_structure. cbv zeta. by rewrite !last_app. }
  unfold tierE_structure, gst_structure_get_value. cbv zeta.
  destruct (String.eqb (name structure) "audio/x-raw-float").
  - rewrite other_format_name. split; [done|]. split.
    + unfold other_format, strip_width_64, gst_structure_get_value.
      rewrite make_lossless_changes_int_lookup_ne by done. simpl.
      lookup_other. rewrite lookup_insert_eq. simpl. by rewrite lookup_insert_eq.
    + unfold other_format. rewrite strip_width_64_lookup_ne by done.
      rewrite make_lossless_changes_int_lookup_ne by done. simpl.
      by rewrite lookup_insert_eq.
  - simpl. rewrite tierD_name. split; [done|].
    lookup_other. by rewrite !lookup_insert_eq.
Qed.

(** ** Further results on parsing and on setting the caps *)

(** *** What the parser needs and what it reads *)

(** X8.  On fixed caps of one structure gst_audio_convert_parse_caps
    succeeds exactly if the structure has integer channels, rate and width
    fields, its channel positions can be read, it has an integer endianness
    field unless the width is 8, and, when it is named audio/x-raw-int, it
    has a boolean signed field and an integer depth that does not exceed
    the width. *)
Theorem parse_caps_succeeds_iff get_positions byte_order structure :
  gst_caps_is_fixed [structure] = true →
  (∃ fmt, gst_audio_convert_parse_caps get_positions byte_order [structure] = inl fmt)
  ↔ is_Some (gst_structure_get_int structure "channels")
    ∧ is_Some (get_positions structure)
    ∧ is_Some (gst_structure_get_int structure "rate")
    ∧ (∃ w, gst_structure_get_int structure "width" = Some w
            ∧ (w = 8 ∨ is_Some (gst_structure_get_int structure "endianness"))
            ∧ (name structure = "audio/x-raw-int" →
               is_Some (gst_structure_get_boolean structure "signed")
               ∧ ∃ d, gst_structure_get_int structure "depth" = Some d ∧ d ≤ w)).
Proof.
  intros Hfix. unfold gst_audio_convert_parse_caps. rewrite Hfix. cbn [negb].
  split.
  - intros [fmt Hparse].
    destruct (gst_structure_get_int structure "channels") as [c|]; [|done].
    destruct (get_positions structure) as [p|]; [|done].
    destruct (gst_structure_get_int structure "width") as [w|]; [|done].
    destruct (gst_structure_get_int structure "rate") as [r|]; [|done].
    do 3 (split; [by eexists|]). exists w. split; [done|].
    assert (w = 8 ∨ is_Some (gst_structure_get_int structure "endianness")) as Hend.
    { destruct (Z.eqb_spec w 8); [by left|]. right. simpl in Hparse.
      by destruct (gst_structure_get_int structure "endianness"). }
    split; [done|]. intros Hint. rewrite Hint in Hparse. simpl in Hparse.
    destruct (if negb (w =? 8) then _ else _); [|done].
    destruct (gst_structure_get_boolean structure "signed"); [|done].
    destruct (gst_structure_get_int structure "depth") as [d|]; [|done].
    split; [by eexists|]. exists d. split; [done|].
    destruct (Z.gtb_spec d w); [done|lia].
  - intros ([c ->] & [p ->] & [r ->] & w & -> & Hend & Hrest).
    assert (∃ e, (if negb (w =? 8)
                  then gst_structure_get_int structure "endianness"
                  else Some byte_order) = Some e) as [e ->].
    { destruct (Z.eqb_spec w 8); simpl; [by eexists|].
      destruct Hend as [?|[e ->]]; [done|]. by eexists. }
    destruct (String.eqb_spec (name structure) "audio/x-raw-int") as [Hint|Hnint];
      [|by eexists].
    destruct (Hrest Hint) as ([sg ->] & d & -> & Hle).
    destruct (Z.gtb_spec d w); [lia|]. by eexists.
Qed.

Lemma parse_caps_succeeds_iff_witness :
  (∃ fmt, gst_audio_convert_parse_caps (λ s, default_positions !! 1%nat)
            G_LITTLE_ENDIAN [cd_stereo] = inl fmt)
  ↔ is_Some (gst_structure_get_int cd_stereo "channels")
    ∧ is_Some (default_positions !! 1%nat)
    ∧ is_Some (gst_structure_get_int cd_stereo "rate")
    ∧ (∃ w, gst_structure_get_int cd_stereo "width" = Some w
            ∧ (w = 8 ∨ is_Some (gst_structure_get_int cd_stereo "endianness"))
            ∧ (name cd_stereo = "audio/x-raw-int" →
               is_Some (gst_structure_get_boolean cd_stereo "signed")
               ∧ ∃ d, gst_structure_get_int cd_stereo "depth" = Some d ∧ d ≤ w)).
Proof.
  apply (parse_caps_succeeds_iff (λ s, default_positions !! 1%nat) G_LITTLE_ENDIAN
           cd_stereo).
  vm_compute. reflexivity.
Defined.

(** X9.  When gst_audio_convert_parse_caps succeeds, the caps are one
    structure and the format holds what the structure says: [is_int] tells
    whether it is named audio/x-raw-int; channels, positions, width and rate
    are the structure's; the endianness is the structure's, and the byte
    order of the host for the width 8; an integer format has the
    structure's signedness and depth, the depth within the width. *)
Theorem parse_caps_reads_fields get_positions byte_order caps fmt :
  gst_audio_convert_parse_caps get_positions byte_order caps = inl fmt →
  ∃ structure,
    caps = [structure]
    ∧ is_int fmt = String.eqb (name structure) "audio/x-raw-int"
    ∧ gst_structure_get_int structure "channels" = Some (channels fmt)
    ∧ get_positions structure = Some (pos fmt)
    ∧ gst_structure_get_int structure "width" = Some (width fmt)
    ∧ gst_structure_get_int structure "rate" = Some (rate fmt)
    ∧ (width fmt = 8 → endianness fmt = byte_order)
    ∧ (width fmt ≠ 8 →
       gst_structure_get_int structure "endianness" = Some (endianness fmt))
    ∧ (is_int fmt = true →
       gst_structure_get_boolean structure "signed" = Some (sign fmt)
       ∧ gst_structure_get_int structure "depth" = Some (depth fmt)
       ∧ depth fmt ≤ width fmt)
    ∧ unpositioned_layout fmt
      = default false (structure_has_fixed_channel_positions get_positions structure).
Proof.
  unfold gst_audio_convert_parse_caps. intros Hparse.
  destruct (gst_caps_is_fixed caps) eqn:Hfix; [|done]. cbn [negb] in Hparse.
  destruct caps as [|structure [|??]]; try done. exists structure.
  destruct (gst_structure_get_int structure "channels") as [c|]; [|done].
  destruct (get_positions structure) as [p|]; [|done].
  destruct (gst_structure_get_int structure "width") as [w|]; [|done].
  destruct (gst_structure_get_int structure "rate") as [r|]; [|done].
  destruct (Z.eqb_spec w 8) as [->|Hw8]; cbn [negb] in Hparse.
  - destruct (String.eqb (name structure) "audio/x-raw-int").
    + destruct (gst_structure_get_boolean structure "signed"); [|done].
      destruct (gst_structure_get_int structure "depth") as [d|]; [|done].
      destruct (Z.gtb_spec d 8); [done|]. injection Hparse as <-. simpl.
      repeat split; try done; try lia; try by destruct (structure_has_fixed_channel_positions _ _).
    + injection Hparse as <-. simpl.
      repeat split; try done; try lia; try by destruct (structure_has_fixed_channel_positions _ _).
  - destruct (gst_structure_get_int structure "endianness") as [e|]; [|done].
    destruct (String.eqb (name structure) "audio/x-raw-int").
    + destruct (gst_structure_get_boolean structure "signed"); [|done].
      destruct (gst_structure_get_int structure "depth") as [d|]; [|done].
      destruct (Z.gtb_spec d w); [done|]. injection Hparse as <-. simpl.
      repeat split; try done; try lia; try by destruct (structure_has_fixed_channel_positions _ _).
    + injection Hparse as <-. simpl.
      repeat split; try done; try lia; try by destruct (structure_has_fixed_channel_positions _ _).
Qed.

Lemma parse_caps_reads_fields_witness :
  ∃ structure,
    [cd_stereo] = [structure]
    ∧ is_int s16_stereo_format = String.eqb (name structure) "audio/x-raw-int"
    ∧ gst_structure_get_int structure "channels" = Some (channels s16_stereo_format)
    ∧ default_positions !! 1%nat = Some (pos s16_stereo_format)
    ∧ gst_structure_get_int structure "width" = Some (width s16_stereo_format)
    ∧ gst_structure_get_int structure "rate" = Some (rate s16_stereo_format)
    ∧ (width s16_stereo_format = 8 → endianness s16_stereo_format = G_LITTLE_ENDIAN)
    ∧ (width s16_stereo_format ≠ 8 →
       gst_structure_get_int structure "endianness"
       = Some (endianness s16_stereo_format))
    ∧ (is_int s16_stereo_format = true →
       gst_structure_get_boolean structure "signed" = Some (sign s16_stereo_format)
       ∧ gst_structure_get_int structure "depth" = Some (depth s16_stereo_format)
       ∧ depth s16_stereo_format ≤ width s16_stereo_format)
    ∧ unpositioned_layout s16_stereo_format
      = default false
          (structure_has_fixed_channel_positions (λ s, default_positions !! 1%nat)
             structure).
Proof.
  apply (parse_caps_reads_fields (λ s, default_positions !! 1%nat) G_LITTLE_ENDIAN
           [cd_stereo] s16_stereo_format).
  vm_compute. reflexivity.
Defined.

(** *** Setting the caps *)

Lemma set_caps_parse_error get_positions byte_order prepare this incaps outcaps e :
  gst_audio_convert_parse_caps get_positions byte_order incaps = inr e
  ∨ gst_audio_convert_parse_caps get_positions byte_order outcaps = inr e →
  gst_audio_convert_set_caps get_positions byte_order prepare this incaps outcaps
  = (false, this).
Proof.
  unfold gst_audio_convert_set_caps. intros [Hin|Hout].
  - by rewrite Hin.
  - rewrite Hout. by destruct (gst_audio_convert_parse_caps _ _ incaps).
Qed.

(** X10.  gst_audio_convert_set_caps returns FALSE and leaves the element
    as it is when the input caps or the output caps do not parse.  When both
    parse, it returns what audio_convert_prepare_context returns for the two
    formats and the dithering and noise shaping of the element, whose
    context is the one that call leaves. *)
Theorem set_caps_needs_both_formats
    get_positions byte_order prepare this incaps outcaps :
  (∀ e, (gst_audio_convert_parse_caps get_positions byte_order incaps = inr e
         ∨ gst_audio_convert_parse_caps get_positions byte_order outcaps = inr e) →
        gst_audio_convert_set_caps get_positions byte_order prepare this incaps outcaps
        = (false, this))
  ∧ (∀ fin fout,
       gst_audio_convert_parse_caps get_positions byte_order incaps = inl fin →
       gst_audio_convert_parse_caps get_positions byte_order outcaps = inl fout →
       gst_audio_convert_set_caps get_positions byte_order prepare this incaps outcaps
       = ((prepare (ctx this) fin fout (dither this) (ns this)).1,
          mkConvert (dither this) (ns this)
            (prepare (ctx this) fin fout (dither this) (ns this)).2)).
Proof.
  split.
  - intros e. apply set_caps_parse_error.
  - unfold gst_audio_convert_set_caps. intros fin fout -> ->.
    by destruct (prepare _ _ _ _ _).
Qed.

Lemma set_caps_needs_both_formats_witness :
  gst_audio_convert_set_caps (λ s, default_positions !! 1%nat) G_LITTLE_ENDIAN
    prepare_formats stereo_convert [cd_stereo] [cd_stereo]
  = ((prepare_formats (ctx stereo_convert) s16_stereo_format s16_stereo_format
        (dither stereo_convert) (ns stereo_convert)).1,
     mkConvert (dither stereo_convert) (ns stereo_convert)
       (prepare_formats (ctx stereo_convert) s16_stereo_format s16_stereo_format
          (dither stereo_convert) (ns stereo_convert)).2)
  ∧ gst_audio_convert_set_caps (λ s, default_positions !! 1%nat) G_LITTLE_ENDIAN
      prepare_formats stereo_convert [cd_stereo] [cd_mono_bad_depth]
    = (false, stereo_convert).
Proof.
  split.
  - apply (proj2 (set_caps_needs_both_formats (λ s, default_positions !! 1%nat)
                    G_LITTLE_ENDIAN prepare_formats stereo_convert
                    [cd_stereo] [cd_stereo])).
    + vm_compute. reflexivity.
    + vm_compute. reflexivity.
  - apply (proj1 (set_caps_needs_both_formats (λ s, default_positions !! 1%nat)
                    G_LITTLE_ENDIAN prepare_formats stereo_convert
                    [cd_stereo] [cd_mono_bad_depth]) not_allowed).
    right. vm_compute. reflexivity.
Defined.

(** ** Further results on the fixation *)

(** *** The search for a layout *)

(** Induction over values, with the elements of lists and arrays. *)
Lemma GValue_nested_ind (P : GValue → Prop) :
  (∀ n, P (VInt n)) → (∀ b, P (VBoolean b)) → (∀ lo hi, P (VIntRange lo hi)) →
  (∀ l, Forall P l → P (VList l)) → (∀ l, Forall P l → P (VArray l)) →
  (∀ p, P (VPosition p)) →
  ∀ v, P v.
Proof.
  intros Hint Hbool Hrange Hlist Harray Hpos.
  fix IH 1. intros [n|b|lo hi|l|l|p].
  - apply Hint.
  - apply Hbool.
  - apply Hrange.
  - apply Hlist. induction l as [|x l IHl]; constructor; [apply IH|exact IHl].
  - apply Harray. induction l as [|x l IHl]; constructor; [apply IH|exact IHl].
  - apply Hpos.
Qed.


(** X11.  A layout that find_suitable_channel_layout returns is an array
    of the wanted number of channels, and it is the constraint itself or is
    reached from it through lists of alternatives; when the function returns
    nothing, the constraint holds no such array. *)
Theorem find_suitable_channel_layout_spec val chans :
  (∀ r, find_suitable_channel_layout val chans = Some r →
        holds_array_of_size r chans = true ∧ layout_in r val)
  ∧ (find_suitable_channel_layout val chans = None →
     ∀ r, layout_in r val → holds_array_of_size r chans = false).
Proof.
  induction val as [n|b|lo hi|l IH|l _|p] using GValue_nested_ind;
    try (split; [done|]; intros _ r Hr; by inversion Hr).
  - (* a list of alternatives *)
    simpl. induction IH as [|v l [Hsome Hnone] _ IHl].
    + split; [done|]. intros _ r Hr. inversion Hr as [|?? Hin]; [done|].
      by apply elem_of_nil in Hin.
    + destruct (find_suitable_channel_layout v chans) as [found|] eqn:Hv.
      * split; [|done]. intros r [= <-]. destruct (Hsome found eq_refl).
        split; [done|]. eapply layout_in_list; [by left|done].
      * destruct IHl as [IHsome IHnone]. split.
        -- intros r Hr. destruct (IHsome r Hr) as [? Hin]. split; [done|].
           inversion Hin as [|?? Hel Hl]; subst; [done|].
           eapply layout_in_list; [by right|done].
        -- intros Hgo r Hr. inversion Hr as [|?? Hel Hl]; subst; [done|].
           apply elem_of_cons in Hel as [->|Hel]; [by apply Hnone|].
           apply (IHnone Hgo). by eapply layout_in_list.
  - (* an array *)
    simpl. destruct (Z.eqb_spec (Z.of_nat (length l)) chans) as [Heq|Hne].
    + split; [|done]. intros r [= <-]. split; [|constructor].
      simpl. by apply Z.eqb_eq.
    + split; [done|]. intros _ r Hr. inversion Hr; subst. simpl. by apply Z.eqb_neq.
Qed.

Lemma find_suitable_channel_layout_spec_witness :
  holds_array_of_size stereo_layout 2 = true
  ∧ layout_in stereo_layout mono_or_stereo_layout.
Proof.
  apply (proj1 (find_suitable_channel_layout_spec mono_or_stereo_layout 2)).
  vm_compute. reflexivity.
Defined.

(** *** What fixation leaves alone *)

Lemma fixate_nearest_name s f target :
  name (gst_structure_fixate_field_nearest_int s f target) = name s.
Proof. unfold gst_structure_fixate_field_nearest_int. by repeat case_match. Qed.

Lemma fixate_boolean_name s f target :
  name (gst_structure_fixate_field_boolean s f target) = name s.
Proof. unfold gst_structure_fixate_field_boolean. by repeat case_match. Qed.

Lemma fixate_channels_default_name s c : name (fixate_channels_default s c) = name s.
Proof.
  unfold fixate_channels_default, gst_audio_set_channel_positions.
  by repeat case_match.
Qed.

Lemma fixate_channels_tail_name s c ol : name (fixate_channels_tail s c ol) = name s.
Proof.
  unfold fixate_channels_tail.
  repeat case_match; simpl; by rewrite ?fixate_channels_default_name.
Qed.

Lemma fixate_channels_name intersect ins outs :
  name (gst_audio_convert_fixate_channels intersect ins outs) = name outs.
Proof.
  unfold gst_audio_convert_fixate_channels.
  repeat case_match; simpl;
    by rewrite ?fixate_channels_tail_name, ?fixate_nearest_name.
Qed.

Lemma fixate_structure_name intersect stack_width ins outs :
  name (fixate_structure intersect stack_width ins outs) = name outs.
Proof.
  rewrite fixate_structure_unfold. cbv zeta.
  destruct (gst_structure_get_int ins "rate"), (gst_structure_get_int ins "endianness"),
    (gst_structure_get_int ins "width"), (gst_structure_get_boolean ins "signed"); simpl;
    by rewrite ?fixate_boolean_name, ?fixate_nearest_name, ?fixate_channels_name.
Qed.

Lemma fixate_structure_lookup_other intersect stack_width ins outs f :
  f ∉ ["channels"; "channel-positions"; "rate"; "endianness"; "width"; "depth";
       "signed"] →
  fields (fixate_structure intersect stack_width ins outs) !! f = fields outs !! f.
Proof.
  intros Hf. rewrite !not_elem_of_cons in Hf.
  destruct Hf as (? & ? & ? & ? & ? & ? & ? & _).
  rewrite fixate_structure_unfold. cbv zeta.
  destruct (gst_structure_get_int ins "rate"), (gst_structure_get_int ins "endianness"),
    (gst_structure_get_int ins "width"), (gst_structure_get_boolean ins "signed"); simpl;
    rewrite ?fixate_boolean_lookup_ne, ?fixate_nearest_lookup_ne by done;
    by apply fixate_channels_lookup_ne.
Qed.

(** X12.  gst_audio_convert_fixate_caps leaves [othercaps] as they are when
    the input caps are not fixed; it never changes the structures after the
    first; and in the first structure it keeps the name and every field
    other than channels, channel-positions, rate, endianness, width, depth
    and signed. *)
Theorem fixate_caps_frame intersect stack_width caps othercaps :
  (gst_caps_is_fixed caps = false →
   gst_audio_convert_fixate_caps intersect stack_width caps othercaps = othercaps)
  ∧ tail (gst_audio_convert_fixate_caps intersect stack_width caps othercaps)
    = tail othercaps
  ∧ ∀ outs outs',
      head othercaps = Some outs →
      head (gst_audio_convert_fixate_caps intersect stack_width caps othercaps)
        = Some outs' →
      name outs' = name outs
      ∧ ∀ f, f ∉ ["channels"; "channel-positions"; "rate"; "endianness"; "width";
                  "depth"; "signed"] →
             gst_structure_get_value outs' f = gst_structure_get_value outs f.
Proof.
  unfold gst_audio_convert_fixate_caps. split; [by intros ->|].
  destruct (gst_caps_is_fixed caps); cbn [negb];
    [|split; [done|]; by intros outs outs' -> [= ->]].
  destruct caps as [|ins caps'], othercaps as [|outs0 rest]; simpl;
    try (split; [done|]; by intros outs outs' ?).
  - split; [done|]. by intros outs outs' [= ->] [= <-].
  - split; [done|]. intros outs outs' [= ->] [= <-].
    split; [apply fixate_structure_name|].
    intros f Hf. by apply fixate_structure_lookup_other.
Qed.

Lemma fixate_caps_frame_witness :
  gst_audio_convert_fixate_caps (λ _ _, false) 0 [six_to_eight_channels]
    [candidate_16_32] = [candidate_16_32]
  ∧ name (raw_int [("rate", VInt 44100); ("width", VInt 16)]) = name candidate_16_32
  ∧ ∀ f, f ∉ ["channels"; "channel-positions"; "rate"; "endianness"; "width";
              "depth"; "signed"] →
         gst_structure_get_value
           (raw_int [("rate", VInt 44100); ("width", VInt 16)]) f
         = gst_structure_get_value candidate_16_32 f.
Proof.
  split.
  - apply (proj1 (fixate_caps_frame (λ _ _, false) 0 [six_to_eight_channels]
                    [candidate_16_32])).
    vm_compute. reflexivity.
  - apply (proj2 (proj2 (fixate_caps_frame (λ _ _, false) 0 [input_24]
                           [candidate_16_32])) candidate_16_32).
    + reflexivity.
    + vm_compute. reflexivity.
Defined.

(** *** Which layout is taken *)




(** *** Fixation yields fixed caps *)

Lemma positions_fixed (row : list GstAudioChannelPosition) :
  gst_value_is_fixed (VArray (VPosition <$> row)) = true.
Proof. simpl. by induction row. Qed.

Lemma fixate_channels_default_layout_fixed s c v :
  (∀ v, fields s !! "channel-positions" = Some v → gst_value_is_fixed v = true) →
  fields (fixate_channels_default s c) !! "channel-positions" = Some v →
  gst_value_is_fixed v = true.
Proof.
  intros Hs. unfold fixate_channels_default, gst_audio_set_channel_positions.
  repeat case_match; try apply Hs.
  simpl. rewrite lookup_insert_eq. intros [= <-]. apply positions_fixed.
Qed.

Lemma find_suitable_fixed ol chans r :
  gst_value_is_fixed ol = true →
  find_suitable_channel_layout ol chans = Some r → r = ol.
Proof. destruct ol; simpl; try done. case_match; congruence. Qed.

Lemma fixate_channels_tail_layout_fixed s c ol v :
  (∀ v, fields s !! "channel-positions" = Some v → gst_value_is_fixed v = true) →
  (∀ o, ol = Some o → gst_value_is_fixed o = true) →
  fields (fixate_channels_tail s c ol) !! "channel-positions" = Some v →
  gst_value_is_fixed v = true.
Proof.
  intros Hs Hol. unfold fixate_channels_tail.
  destruct ol as [o|]; [|by apply fixate_channels_default_layout_fixed].
  specialize (Hol o eq_refl).
  assert (holds_list o = false) as -> by by destruct o.
  destruct (holds_array_of_size o _); [|by apply fixate_channels_default_layout_fixed].
  simpl. rewrite lookup_insert_eq. by intros [= <-].
Qed.

Lemma fixate_channels_layout_fixed intersect ins outs v :
  gst_caps_is_fixed [ins] = true →
  (∀ v, fields outs !! "channel-positions" = Some v → gst_value_is_fixed v = true) →
  fields (gst_audio_convert_fixate_channels intersect ins outs) !! "channel-positions"
    = Some v →
  gst_value_is_fixed v = true.
Proof.
  intros Hins Houts. unfold gst_audio_convert_fixate_channels, gst_structure_get_value.
  destruct (gst_structure_get_int ins "channels") as [ic|]; [|apply Houts].
  destruct (gst_structure_has_field outs "channels"); cbn [negb];
    [|simpl; by rewrite lookup_delete_eq].
  cbv zeta.
  set (o1 := gst_structure_fixate_field_nearest_int outs "channels" ic).
  assert (fields o1 !! "channel-positions" = fields outs !! "channel-positions") as Hsame
    by by apply fixate_nearest_lookup_ne.
  assert (∀ v, fields o1 !! "channel-positions" = Some v → gst_value_is_fixed v = true)
    as Ho1 by (intros ?; rewrite Hsame; apply Houts).
  destruct (gst_structure_get_int o1 "channels") as [oc|];
    [|simpl; by rewrite lookup_delete_eq].
  rewrite Hsame.
  destruct (_ && _ && _); [by apply Ho1|].
  destruct (if ic =? oc then fields ins !! "channel-positions" else None) as [il|] eqn:Hil.
  - assert (gst_value_is_fixed il = true) as Hilfix.
    { destruct (ic =? oc); [|done]. by eapply caps_is_fixed_lookup. }
    destruct (fields outs !! "channel-positions") as [ol|] eqn:Hol.
    + destruct (holds_array_of_size ol _); [by apply Ho1|].
      destruct (intersect il ol); [simpl; rewrite lookup_insert_eq; by intros [= <-]|].
      destruct (find_suitable_channel_layout ol _) as [found|] eqn:Hfound.
      * apply find_suitable_fixed in Hfound as ->; [|by apply Houts].
        simpl. rewrite lookup_insert_eq. intros [= <-]. by apply Houts.
      * by apply fixate_channels_tail_layout_fixed.
    + simpl. rewrite lookup_insert_eq. by intros [= <-].
  - apply fixate_channels_tail_layout_fixed; [done|]. intros o Ho. by apply Houts.
Qed.

Lemma fixate_channels_lookup_channels intersect ins outs :
  fields (gst_audio_convert_fixate_channels intersect ins outs) !! "channels"
  = match gst_structure_get_int ins "channels" with
    | Some ic => fields (gst_structure_fixate_field_nearest_int outs "channels" ic)
                   !! "channels"
    | None => fields outs !! "channels"
    end.
Proof.
  unfold gst_audio_convert_fixate_channels.
  destruct (gst_structure_get_int ins "channels") as [ic|]; [|done].
  unfold gst_structure_has_field.
  destruct (fields outs !! "channels") eqn:Hch; cbn [negb].
  - cbv zeta. repeat case_match; simpl;
      by rewrite ?fixate_channels_tail_lookup_ne, ?lookup_insert_ne, ?lookup_delete_ne.
  - simpl. rewrite lookup_delete_ne by done.
    unfold gst_structure_fixate_field_nearest_int. by rewrite Hch.
Qed.

Lemma fixate_nearest_lookup_settled s f target v :
  (gst_value_is_fixed v = true ∨ has_freedom v) →
  fields s !! f = Some v →
  ∃ v', fields (gst_structure_fixate_field_nearest_int s f target) !! f = Some v'
        ∧ gst_value_is_fixed v' = true.
Proof.
  intros Hv Hf. unfold gst_structure_fixate_field_nearest_int. rewrite Hf.
  destruct Hv as [Hfix|Hfree].
  - rewrite nearest_int_fixed by done. by exists v.
  - destruct (nearest_int_spec v target Hfree) as (r & -> & _).
    exists (VInt r). simpl. by rewrite lookup_insert_eq.
Qed.

Lemma fixate_boolean_lookup_settled s target v :
  (gst_value_is_fixed v = true ∨ ∃ l, v = VList l ∧ is_Some (first_boolean l)) →
  fields s !! "signed" = Some v →
  ∃ v', fields (gst_structure_fixate_field_boolean s "signed" target) !! "signed"
          = Some v'
        ∧ gst_value_is_fixed v' = true.
Proof.
  intros Hv Hf. unfold gst_structure_fixate_field_boolean. rewrite Hf.
  destruct Hv as [Hfix|(l & -> & [b Hb])].
  - destruct v; try done; by eexists.
  - rewrite Hb. destruct (has_boolean target l); eexists; simpl;
      by rewrite lookup_insert_eq.
Qed.

Lemma fixate_structure_lookup_channels intersect stack_width ins outs f :
  f = "channels" ∨ f = "channel-positions" →
  fields (fixate_structure intersect stack_width ins outs) !! f
  = fields (gst_audio_convert_fixate_channels intersect ins outs) !! f.
Proof.
  intros Hf. rewrite fixate_structure_unfold. cbv zeta.
  destruct (gst_structure_get_int ins "rate"), (gst_structure_get_int ins "endianness"),
    (gst_structure_get_int ins "width"), (gst_structure_get_boolean ins "signed");
    simpl; destruct Hf as [-> | ->];
    by rewrite ?fixate_boolean_lookup_ne, ?fixate_nearest_lookup_ne by done.
Qed.

Lemma fixate_structure_lookup_signed intersect stack_width ins outs :
  ∃ o, fields o !! "signed" = fields outs !! "signed"
       ∧ fields (fixate_structure intersect stack_width ins outs) !! "signed"
         = match gst_structure_get_boolean ins "signed" with
           | Some b => fields (gst_structure_fixate_field_boolean o "signed" b) !! "signed"
           | None => fields outs !! "signed"
           end.
Proof.
  rewrite fixate_structure_unfold. cbv zeta.
  match goal with
  | |- context [from_option (gst_structure_fixate_field_boolean ?o "signed") _ _] =>
      exists o; assert (fields o !! "signed" = fields outs !! "signed") as Ho
  end.
  { destruct (gst_structure_get_int ins "rate"),
      (gst_structure_get_int ins "endianness"), (gst_structure_get_int ins "width");
      simpl; rewrite ?fixate_nearest_lookup_ne by done;
      by apply fixate_channels_lookup_ne. }
  split; [done|]. by destruct (gst_structure_get_boolean ins "signed").
Qed.

(** X14.  For a fixed input structure and a candidate in which every field
    is fixed or can be settled (channels, rate, endianness and width: a
    range that is not empty or a list with an integer, and the input has the
    field; depth: such a range or list; signed: a list with a boolean, and
    the input has a signed field), gst_audio_convert_fixate_caps leaves a
    first structure that is fixed, and the other structures as they
    were. *)
Theorem fixate_caps_yields_fixed intersect stack_width ins outs rest :
  gst_caps_is_fixed [ins] = true →
  (∀ f v, gst_structure_get_value outs f = Some v → fixable ins f v) →
  ∃ outs',
    gst_audio_convert_fixate_caps intersect stack_width [ins] (outs :: rest)
      = outs' :: rest
    ∧ gst_caps_is_fixed [outs'] = true.
Proof.
  intros Hins Hall. unfold gst_structure_get_value in Hall.
  exists (fixate_structure intersect stack_width ins outs).
  split; [by apply fixate_caps_single|].
  apply bool_decide_eq_true. intros k v Hk.
  assert (∀ f c, fields outs !! f = Some c →
            f ∉ ["channels"; "rate"; "endianness"; "width"; "depth"; "signed"] →
            gst_value_is_fixed c = true) as Hother.
  { intros f c Hc Hf. rewrite !not_elem_of_cons in Hf.
    destruct (Hall f c Hc) as [?|[(Hin & _)|[(-> & _)|(-> & _)]]]; try done;
      [|naive_solver..].
    rewrite !elem_of_cons, elem_of_nil in Hin. naive_solver. }
  destruct (decide (k ∈ ["rate"; "endianness"; "width"; "depth"])) as [Hnum|Hnnum].
  - (* the numeric fields *)
    rewrite fixate_structure_lookup_numeric in Hk by done. cbn zeta in Hk.
    destruct (fields outs !! k) as [c|] eqn:Hc; [|by repeat case_match].
    destruct (Hall k c Hc) as [Hfix|[(Hin & Hfree & [t Ht])|[(-> & Hfree)|(-> & _)]]].
    + repeat case_match; simplify_eq; try done;
        match goal with
        | H : nearest_int _ _ = Some _ |- _ => by rewrite nearest_int_fixed in H
        end.
    + rewrite Ht in Hk. destruct (nearest_int_spec c t Hfree) as (r & Hr & _).
      rewrite Hr in Hk. by injection Hk as <-.
    + simpl in Hk.
      destruct (gst_structure_get_int ins "depth") as [t|];
        [destruct (nearest_int_spec c t Hfree) as (r & Hr & _)
        |destruct (nearest_int_spec c
                     (default stack_width (gst_structure_get_int ins "width")) Hfree)
           as (r & Hr & _)];
        rewrite Hr in Hk; by injection Hk as <-.
    + exfalso. rewrite !elem_of_cons, elem_of_nil in Hnum. naive_solver.
  - rewrite !not_elem_of_cons in Hnnum. destruct Hnnum as (? & ? & ? & ? & _).
    destruct (decide (k = "channels")) as [->|Hnch].
    { rewrite fixate_structure_lookup_channels in Hk by by left.
      rewrite fixate_channels_lookup_channels in Hk.
      destruct (fields outs !! "channels") as [c|] eqn:Hc.
      - destruct (Hall _ c Hc) as [Hfix|[(_ & Hfree & [t Ht])|[(? & _)|(? & _)]]];
          try done.
        + destruct (gst_structure_get_int ins "channels") as [ic|].
          * destruct (fixate_nearest_lookup_settled outs "channels" ic c
                        (or_introl Hfix) Hc) as (v' & Hv' & ?).
            rewrite Hv' in Hk. by injection Hk as <-.
          * rewrite ?Hc in Hk. by injection Hk as <-.
        + rewrite Ht in Hk.
          destruct (fixate_nearest_lookup_settled outs "channels" t c
                      (or_intror Hfree) Hc) as (v' & Hv' & ?).
          rewrite Hv' in Hk. by injection Hk as <-.
      - unfold gst_structure_fixate_field_nearest_int in Hk. rewrite ?Hc in Hk.
        rewrite ?Hc in Hk. by destruct (gst_structure_get_int ins "channels"). }
    destruct (decide (k = "channel-positions")) as [->|Hncp].
    { rewrite fixate_structure_lookup_channels in Hk by by right.
      eapply fixate_channels_layout_fixed; [done| |done].
      intros c Hc. apply (Hother _ c Hc). set_solver. }
    destruct (decide (k = "signed")) as [->|Hnsg].
    { destruct (fixate_structure_lookup_signed intersect stack_width ins outs)
        as (o & Ho & Hsg).
      rewrite Hsg in Hk.
      destruct (fields outs !! "signed") as [c|] eqn:Hc.
      - destruct (Hall _ c Hc) as [Hfix|[(Hin & _)|[(? & _)|(_ & Hl & [b Hb])]]];
          try done.
        + destruct (gst_structure_get_boolean ins "signed") as [b|].
          * destruct (fixate_boolean_lookup_settled o b c (or_introl Hfix) Ho)
              as (v' & Hv' & ?).
            rewrite Hv' in Hk. by injection Hk as <-.
          * by injection Hk as <-.
        + exfalso. rewrite !elem_of_cons, elem_of_nil in Hin. naive_solver.
        + rewrite Hb in Hk.
          destruct (fixate_boolean_lookup_settled o b c (or_intror Hl) Ho)
            as (v' & Hv' & ?).
          rewrite Hv' in Hk. by injection Hk as <-.
      - destruct (gst_structure_get_boolean ins "signed"); [|done].
        unfold gst_structure_fixate_field_boolean in Hk. rewrite Ho in Hk.
        by rewrite ?Ho in Hk. }
    rewrite fixate_structure_lookup_other in Hk by set_solver.
    apply (Hother _ _ Hk). set_solver.
Qed.

Lemma fixate_caps_yields_fixed_witness :
  ∃ outs',
    gst_audio_convert_fixate_caps (λ _ _, false) 0 [input_24] [candidate_16_32]
      = [outs']
    ∧ gst_caps_is_fixed [outs'] = true.
Proof.
  apply (fixate_caps_yields_fixed (λ _ _, false) 0 input_24 candidate_16_32 []).
  - vm_compute. reflexivity.
  - intros f v Hv.
    unfold gst_structure_get_value, candidate_16_32, raw_int in Hv.
    cbn [fields] in Hv. apply elem_of_list_to_map_2 in Hv.
    apply elem_of_cons in Hv as [[= -> ->]|Hv].
    { right. left. split; [set_solver|]. split; [simpl; lia|]. vm_compute. eauto. }
    apply elem_of_cons in Hv as [[= -> ->]|Hv].
    { right. left. split; [set_solver|]. split.
      - exists 16. set_solver.
      - vm_compute. eauto. }
    by apply elem_of_nil in Hv.
Defined.

(** ** Results on silence and on converting a buffer *)

(** *** Counting loops *)

(** A loop that runs [n] times is the fold of its body over the [n]
    values of its counter. *)
Lemma for_loop_seq {A} (body : Z → A → A) (start bound step : Z) :
  0 < step →
  ∀ n k fuel a,
    (n ≤ fuel)%nat →
    bound ≤ start + step * Z.of_nat (k + n) →
    (n ≠ 0%nat → start + step * (Z.of_nat (k + n) - 1) < bound) →
    for_loop fuel (start + step * Z.of_nat k) bound step body a
    = foldl (λ a t, body (start + step * Z.of_nat t) a) a (seq k n).
Proof.
  intros Hstep. induction n as [|n IH]; intros k fuel a Hfuel Hbound Hlast.
  - simpl. destruct fuel as [|fuel]; [done|]. simpl.
    destruct (Z.ltb_spec (start + step * Z.of_nat k) bound); [|done].
    rewrite Nat.add_0_r in Hbound. lia.
  - destruct fuel as [|fuel]; [lia|]. simpl.
    destruct (Z.ltb_spec (start + step * Z.of_nat k) bound) as [_|Hge].
    + replace (start + step * Z.of_nat k + step)
        with (start + step * Z.of_nat (S k)) by lia.
      apply IH; [lia| |].
      * by replace (S k + n)%nat with (k + S n)%nat by lia.
      * intros _. replace (S k + n)%nat with (k + S n)%nat by lia. by apply Hlast.
    + specialize (Hlast ltac:(done)). nia.
Qed.

(** *** Memory written block by block *)

Lemma blocks_lookup (bytes : list Z) (m : nat) :
  length bytes = m → (0 < m)%nat →
  ∀ n (mem : list Z) (j : nat),
    (n * m ≤ length mem)%nat →
    foldl (λ mem t, list_inserts (t * m) bytes mem) mem (seq 0 n) !! j
    = if decide (j < n * m)%nat then bytes !! (j `mod` m)%nat else mem !! j.
Proof.
  intros Hlen Hm. induction n as [|n IH]; intros mem j Hmem.
  - destruct (decide _) as [?|?]; [lia|done].
  - rewrite seq_S, foldl_app. cbn [foldl Nat.add].
    set (prev := foldl _ mem (seq 0 n)).
    assert (length prev = length mem) as Hprev.
    { subst prev. clear. generalize (seq 0 n). intros l. revert mem.
      induction l as [|t l IHl]; intros mem; simpl; [done|].
      by rewrite IHl, length_inserts. }
    destruct (decide (j < n * m)%nat) as [Hlt|Hge].
    + rewrite list_lookup_inserts_lt by lia. subst prev. rewrite IH by lia.
      rewrite decide_True by done. by rewrite decide_True by lia.
    + destruct (decide (j < n * m + m)%nat) as [Hin|Hout].
      * rewrite list_lookup_inserts by lia. rewrite decide_True by lia.
        f_equal. replace j with ((j - n * m) + n * m)%nat at 2 by lia.
        rewrite Nat.Div0.mod_add. by rewrite Nat.mod_small by lia.
      * rewrite list_lookup_inserts_ge by lia. subst prev. rewrite IH by lia.
        rewrite decide_False by done. by rewrite decide_False by lia.
Qed.

Lemma blocks_length (bytes : list Z) (m : nat) n (mem : list Z) :
  length (foldl (λ mem t, list_inserts (t * m) bytes mem) mem (seq 0 n)) = length mem.
Proof.
  generalize (seq 0 n). intros l. revert mem.
  induction l as [|t l IHl]; intros mem; simpl; [done|].
  by rewrite IHl, length_inserts.
Qed.

(** Every block of the part written holds the bytes written. *)
Lemma blocks_sample (bytes : list Z) (m : nat) n (mem : list Z) (k : nat) :
  length bytes = m → (0 < m)%nat → (n * m ≤ length mem)%nat → (k < n)%nat →
  take m (drop (k * m)
            (foldl (λ mem t, list_inserts (t * m) bytes mem) mem (seq 0 n)))
  = bytes.
Proof.
  intros Hlen Hm Hmem Hk. apply list_eq. intros i.
  destruct (decide (i < m)%nat) as [Hi|Hi].
  - rewrite lookup_take_lt by done. rewrite lookup_drop.
    rewrite (blocks_lookup bytes m Hlen Hm) by done.
    rewrite decide_True by nia. f_equal.
    rewrite Nat.add_comm, Nat.Div0.mod_add. by apply Nat.mod_small.
  - rewrite lookup_take_ge by lia. symmetry. apply lookup_ge_None. lia.
Qed.

Lemma blocks_beyond (bytes : list Z) (m : nat) n (mem : list Z) :
  length bytes = m → (0 < m)%nat → (n * m ≤ length mem)%nat →
  drop (n * m) (foldl (λ mem t, list_inserts (t * m) bytes mem) mem (seq 0 n))
  = drop (n * m) mem.
Proof.
  intros Hlen Hm Hmem. apply list_eq. intros i. rewrite !lookup_drop.
  rewrite (blocks_lookup bytes m Hlen Hm) by done. by rewrite decide_False by lia.
Qed.

(** *** memset *)

Lemma memset_lookup dst c n (j : nat) :
  0 ≤ n ≤ Z.of_nat (length dst) →
  memset dst c n !! j = if decide (j < Z.to_nat n)%nat then Some c else dst !! j.
Proof.
  intros Hn. unfold memset. case_decide.
  - rewrite lookup_app_l by (rewrite length_replicate; lia).
    by apply lookup_replicate_2.
  - rewrite lookup_app_r by (rewrite length_replicate; lia).
    rewrite length_replicate, lookup_drop. f_equal. lia.
Qed.

Lemma memset_length dst c n :
  0 ≤ n ≤ Z.of_nat (length dst) → length (memset dst c n) = length dst.
Proof.
  intros Hn. unfold memset. rewrite length_app, length_replicate, length_drop. lia.
Qed.

(** *** The silence loops as block writes *)

Lemma foldl_pointwise {A B} (f g : A → B → A) (l : list B) : ∀ a,
  (∀ a t, t ∈ l → f a t = g a t) → foldl f a l = foldl g a l.
Proof.
  induction l as [|t l IH]; intros a Hfg; simpl; [done|].
  rewrite Hfg by by left. apply IH. intros a' t' Ht'. apply Hfg. by right.
Qed.

Lemma host_bytes16_length host x : length (host_bytes16 host x) = 2%nat.
Proof. unfold host_bytes16. by case_match. Qed.

Lemma host_bytes32_length host x : length (host_bytes32 host x) = 4%nat.
Proof. unfold host_bytes32. by case_match. Qed.

Lemma fill16_blocks host zero (dst : list Z) n :
  0 ≤ n →
  for_loop (Z.to_nat n) 0 n 1 (λ i data, store16 host data i zero) dst
  = foldl (λ mem t, list_inserts (t * 2) (host_bytes16 host zero) mem) dst
      (seq 0 (Z.to_nat n)).
Proof.
  intros Hn.
  rewrite <- (Z.mul_0_r 1) at 1. rewrite <- (Z.add_0_l (1 * 0)).
  change 0 with (Z.of_nat 0) at 2.
  rewrite (for_loop_seq _ 0 n 1 ltac:(lia) (Z.to_nat n) 0%nat) by lia.
  apply foldl_pointwise. intros a t _. unfold store16. f_equal. lia.
Qed.

Lemma fill32_blocks host zero (dst : list Z) n :
  0 ≤ n →
  for_loop (Z.to_nat n) 0 n 1 (λ i data, store32 host data i zero) dst
  = foldl (λ mem t, list_inserts (t * 4) (host_bytes32 host zero) mem) dst
      (seq 0 (Z.to_nat n)).
Proof.
  intros Hn.
  rewrite <- (Z.mul_0_r 1) at 1. rewrite <- (Z.add_0_l (1 * 0)).
  change 0 with (Z.of_nat 0) at 2.
  rewrite (for_loop_seq _ 0 n 1 ltac:(lia) (Z.to_nat n) 0%nat) by lia.
  apply foldl_pointwise. intros a t _. unfold store32. f_equal. lia.
Qed.

Lemma store8_three (data : list Z) (t : nat) a b c :
  store8 (store8 (store8 data (0 + 3 * Z.of_nat t) a) (0 + 3 * Z.of_nat t + 1) b)
    (0 + 3 * Z.of_nat t + 2) c
  = list_inserts (t * 3) [a `mod` 256; b `mod` 256; c `mod` 256] data.
Proof.
  unfold store8. simpl.
  replace (Z.to_nat (0 + 3 * Z.of_nat t)) with (t * 3)%nat by lia.
  replace (Z.to_nat (0 + 3 * Z.of_nat t + 1)) with (S (t * 3)) by lia.
  replace (Z.to_nat (0 + 3 * Z.of_nat t + 2)) with (S (S (t * 3))) by lia.
  rewrite (list_insert_insert_ne _ (S (S (t * 3))) (S (t * 3))) by lia.
  rewrite (list_insert_insert_ne _ (S (S (t * 3))) (t * 3)%nat) by lia.
  by rewrite (list_insert_insert_ne _ (S (t * 3)) (t * 3)%nat) by lia.
Qed.

Lemma store8_three_rev (data : list Z) (t : nat) a b c :
  store8 (store8 (store8 data (0 + 3 * Z.of_nat t + 2) c) (0 + 3 * Z.of_nat t + 1) b)
    (0 + 3 * Z.of_nat t) a
  = list_inserts (t * 3) [a `mod` 256; b `mod` 256; c `mod` 256] data.
Proof.
  unfold store8. simpl.
  replace (Z.to_nat (0 + 3 * Z.of_nat t)) with (t * 3)%nat by lia.
  replace (Z.to_nat (0 + 3 * Z.of_nat t + 1)) with (S (t * 3)) by lia.
  by replace (Z.to_nat (0 + 3 * Z.of_nat t + 2)) with (S (S (t * 3))) by lia.
Qed.

Lemma fill24_blocks (body : Z → list Z → list Z) bytes (dst : list Z) size :
  0 ≤ size → size `mod` 3 = 0 →
  (∀ data (t : nat), body (0 + 3 * Z.of_nat t) data = list_inserts (t * 3) bytes data) →
  for_loop (Z.to_nat size) 0 size 3 body dst
  = foldl (λ mem t, list_inserts (t * 3) bytes mem) dst (seq 0 (Z.to_nat (size / 3))).
Proof.
  intros Hsize Hmod Hbody.
  assert (size = 3 * (size / 3)) as Hdiv by (apply Z.div_exact; lia).
  rewrite <- (Z.mul_0_r 3) at 1. rewrite <- (Z.add_0_l (3 * 0)).
  change 0 with (Z.of_nat 0) at 2.
  rewrite (for_loop_seq _ 0 size 3 ltac:(lia) (Z.to_nat (size / 3)) 0%nat) by lia.
  apply foldl_pointwise. intros a t _. apply Hbody.
Qed.

(** *** The level written for an unsigned format *)

Lemma depth_cases (f : Z → bool) n :
  forallb f (seqZ 1 n) = true → ∀ d, 1 ≤ d ≤ n → f d = true.
Proof.
  intros Hall d Hd. rewrite forallb_forall in Hall. apply Hall.
  apply list_elem_of_In, elem_of_seqZ. lia.
Qed.

Lemma silence_bytes_level (host : Z) (le : bool) (w d : Z) :
  host = G_LITTLE_ENDIAN ∨ host = G_BIG_ENDIAN →
  w ∈ [8; 16; 24; 32] → 1 ≤ d ≤ w →
  (if le then decode_le (silence_bytes host le w d)
   else decode_be (silence_bytes host le w d)) = 2 ^ (d - 1).
Proof.
  intros Hhost Hw Hd.
  apply Z.eqb_eq.
  apply (depth_cases
           (λ d, (if le then decode_le (silence_bytes host le w d)
                  else decode_be (silence_bytes host le w d)) =? 2 ^ (d - 1)) w);
    [|done].
  rewrite !elem_of_cons, elem_of_nil in Hw.
  destruct Hhost as [-> | ->], le; destruct_or!; subst w; try done; by vm_compute.
Qed.

Lemma silence_bytes_length (host : Z) (le : bool) (w d : Z) :
  w ∈ [8; 16; 24; 32] → Z.of_nat (length (silence_bytes host le w d)) = w / 8.
Proof.
  intros Hw. rewrite !elem_of_cons, elem_of_nil in Hw.
  destruct_or!; subst w; try done; unfold silence_bytes; simpl;
    rewrite ?host_bytes16_length, ?host_bytes32_length; by destruct le.
Qed.

Lemma take_one_drop {A} (l : list A) k x :
  l !! k = Some x → take 1 (drop k l) = [x].
Proof. intros Hk. by rewrite (drop_S _ _ _ Hk). Qed.

(** The buffer of silence of an unsigned format is written sample by
    sample, each sample with the bytes [silence_bytes]. *)
Lemma silence_buffer_blocks host out (dst : list Z) size (bps : nat) :
  is_int out = true → sign out = false →
  bps ∈ [1; 2; 3; 4]%nat → width out = 8 * Z.of_nat bps →
  0 ≤ size ≤ Z.of_nat (length dst) →
  (bps = 3%nat → size `mod` 3 = 0) →
  gst_audio_convert_create_silence_buffer host out dst size
  = foldl (λ mem t,
             list_inserts (t * bps)
               (silence_bytes host (endianness out =? G_LITTLE_ENDIAN)
                  (width out) (depth out)) mem)
      dst (seq 0 (Z.to_nat (size / Z.of_nat bps))).
Proof.
  intros Hint Hsign Hbps Hw Hsize Hmod.
  unfold gst_audio_convert_create_silence_buffer, silence_bytes.
  rewrite Hint, Hsign. cbn [andb negb].
  rewrite !elem_of_cons, elem_of_nil in Hbps. destruct_or!; subst bps; try done;
    [replace (width out) with 8 by lia|replace (width out) with 16 by lia
    |replace (width out) with 24 by lia|replace (width out) with 32 by lia];
    cbn [Z.eqb Pos.eqb].
  - (* 8 bits *)
    cbv zeta. change (Z.of_nat 1) with 1. rewrite Z.div_1_r.
    apply list_eq. intros j.
    rewrite memset_lookup by done.
    rewrite (blocks_lookup [_] 1%nat eq_refl ltac:(lia)) by lia.
    rewrite Nat.mul_1_r. case_decide; [|done].
    by rewrite Nat.mod_1_r.
  - (* 16 bits *)
    cbv zeta. rewrite Z.quot_div_nonneg by lia.
    rewrite fill16_blocks by (apply Z.div_pos; lia).
    by destruct (endianness out =? G_LITTLE_ENDIAN).
  - (* 24 bits *)
    cbv zeta. specialize (Hmod eq_refl).
    destruct (endianness out =? G_LITTLE_ENDIAN).
    + apply fill24_blocks; [lia|done|]. intros data t. apply store8_three.
    + apply fill24_blocks; [lia|done|]. intros data t. apply store8_three_rev.
  - (* 32 bits *)
    cbv zeta. rewrite Z.quot_div_nonneg by lia.
    rewrite fill32_blocks by (apply Z.div_pos; lia).
    by destruct (endianness out =? G_LITTLE_ENDIAN).
Qed.

(** X15.  For an unsigned integer format of width 8, 16, 24 or 32 and a
    depth [d] within the width, every sample of the silence written reads,
    in the byte order of the format, as 2^(d-1), the middle of the unsigned
    range; this holds on a little-endian and on a big-endian host. *)
Theorem silence_buffer_unsigned_level host out (dst : list Z) size (bps : nat) :
  host = G_LITTLE_ENDIAN ∨ host = G_BIG_ENDIAN →
  is_int out = true → sign out = false →
  bps ∈ [1; 2; 3; 4]%nat → width out = 8 * Z.of_nat bps →
  1 ≤ depth out ≤ width out →
  0 ≤ size ≤ Z.of_nat (length dst) → size `mod` Z.of_nat bps = 0 →
  ∀ k : nat, Z.of_nat k < size / Z.of_nat bps →
    read_sample (endianness out)
      (gst_audio_convert_create_silence_buffer host out dst size) bps k
    = 2 ^ (depth out - 1).
Proof.
  intros Hhost Hint Hsign Hbps Hw Hd Hsize Hmod k Hk.
  assert (0 < Z.of_nat bps ≤ 4) as Hbpos.
  { rewrite !elem_of_cons, elem_of_nil in Hbps. destruct_or!; subst bps; try done; lia. }
  assert (width out ∈ [8; 16; 24; 32]) as Hwin.
  { rewrite !elem_of_cons, elem_of_nil in Hbps. rewrite !elem_of_cons.
    destruct_or!; subst bps; try done; lia. }
  rewrite silence_buffer_blocks with (bps := bps); try done;
    [|intros ->; exact Hmod].
  unfold read_sample.
  pose proof (silence_bytes_length host (endianness out =? G_LITTLE_ENDIAN)
                (width out) (depth out) Hwin) as Hlen.
  rewrite Hw in Hlen at 2.
  rewrite (Z.mul_comm 8), Z.div_mul in Hlen by lia.
  assert (Z.of_nat bps * (size / Z.of_nat bps) ≤ size) by (apply Z.mul_div_le; lia).
  rewrite blocks_sample; [|lia|lia|nia|lia].
  by apply silence_bytes_level.
Qed.

Lemma silence_buffer_unsigned_level_witness :
  read_sample (endianness u12_stereo_format)
    (gst_audio_convert_create_silence_buffer G_LITTLE_ENDIAN u12_stereo_format
       (replicate 8 7) 8) 2 1
  = 2 ^ (depth u12_stereo_format - 1).
Proof.
  apply (silence_buffer_unsigned_level G_LITTLE_ENDIAN u12_stereo_format
           (replicate 8 7) 8 2).
  - by left.
  - reflexivity.
  - reflexivity.
  - set_solver.
  - reflexivity.
  - simpl. lia.
  - simpl. lia.
  - reflexivity.
  - vm_compute. reflexivity.
Defined.

(** X16.  gst_audio_convert_create_silence_buffer keeps the length of the
    memory and changes no byte at or after [size] (for the unsigned width
    24: when [size] is a multiple of 3); for a float format and for a
    signed format every byte before [size] is 0. *)
Theorem silence_buffer_frame host out (dst : list Z) size :
  0 ≤ size ≤ Z.of_nat (length dst) →
  (is_int out = true → sign out = false → width out = 24 → size `mod` 3 = 0) →
  length (gst_audio_convert_create_silence_buffer host out dst size) = length dst
  ∧ (∀ j : nat, size ≤ Z.of_nat j →
       gst_audio_convert_create_silence_buffer host out dst size !! j = dst !! j)
  ∧ (is_int out = false ∨ sign out = true →
     ∀ j : nat, Z.of_nat j < size →
       gst_audio_convert_create_silence_buffer host out dst size !! j = Some 0).
Proof.
  intros Hsize H24.
  assert (∀ c, length (memset dst c size) = length dst
               ∧ ∀ j : nat, size ≤ Z.of_nat j → memset dst c size !! j = dst !! j)
    as Hmemset.
  { intros c. split; [by apply memset_length|]. intros j Hj.
    rewrite memset_lookup by done. by rewrite decide_False by lia. }
  destruct (is_int out && negb (sign out)) eqn:Hunsigned.
  - apply andb_true_iff in Hunsigned as [Hint Hsign%negb_true_iff].
    split; [|split; [|intros [?|?]; congruence]].
    + assert (∀ bps : nat, bps ∈ [1; 2; 3; 4]%nat → width out = 8 * Z.of_nat bps →
                length (gst_audio_convert_create_silence_buffer host out dst size)
                = length dst) as Hb.
      { intros bps Hbps Hw. rewrite silence_buffer_blocks with (bps := bps); try done.
        - apply blocks_length.
        - intros ->. apply H24; [done|done|lia]. }
      destruct (decide (width out = 8)); [apply (Hb 1%nat); [set_solver|lia]|].
      destruct (decide (width out = 16)); [apply (Hb 2%nat); [set_solver|lia]|].
      destruct (decide (width out = 24)); [apply (Hb 3%nat); [set_solver|lia]|].
      destruct (decide (width out = 32)); [apply (Hb 4%nat); [set_solver|lia]|].
      unfold gst_audio_convert_create_silence_buffer. rewrite Hint, Hsign. cbn [andb negb].
      destruct (Z.eqb_spec (width out) 8); [done|].
      destruct (Z.eqb_spec (width out) 16); [done|].
      destruct (Z.eqb_spec (width out) 24); [done|].
      destruct (Z.eqb_spec (width out) 32); [done|]. apply (proj1 (Hmemset 0)).
    + intros j Hj.
      assert (∀ bps : nat, bps ∈ [1; 2; 3; 4]%nat → width out = 8 * Z.of_nat bps →
                gst_audio_convert_create_silence_buffer host out dst size !! j
                = dst !! j) as Hb.
      { intros bps Hbps Hw. rewrite silence_buffer_blocks with (bps := bps); try done;
          [|intros ->; apply H24; [done|done|lia]].
        assert (0 < Z.of_nat bps).
        { rewrite !elem_of_cons, elem_of_nil in Hbps.
          destruct_or!; subst bps; try done; lia. }
        assert (Z.of_nat bps * (size / Z.of_nat bps) ≤ size)
          by (apply Z.mul_div_le; lia).
        assert (Z.of_nat (length (silence_bytes host
                  (endianness out =? G_LITTLE_ENDIAN) (width out) (depth out)))
                = Z.of_nat bps) as Hlen.
        { rewrite silence_bytes_length.
          - rewrite Hw, (Z.mul_comm 8), Z.div_mul; lia.
          - rewrite !elem_of_cons, elem_of_nil in Hbps. rewrite !elem_of_cons.
            destruct_or!; subst bps; try done; lia. }
        rewrite (blocks_lookup _ bps); [|lia|lia|nia].
        rewrite decide_False; [done|nia]. }
      destruct (decide (width out = 8)); [apply (Hb 1%nat); [set_solver|lia]|].
      destruct (decide (width out = 16)); [apply (Hb 2%nat); [set_solver|lia]|].
      destruct (decide (width out = 24)); [apply (Hb 3%nat); [set_solver|lia]|].
      destruct (decide (width out = 32)); [apply (Hb 4%nat); [set_solver|lia]|].
      unfold gst_audio_convert_create_silence_buffer. rewrite Hint, Hsign. cbn [andb negb].
      destruct (Z.eqb_spec (width out) 8); [done|].
      destruct (Z.eqb_spec (width out) 16); [done|].
      destruct (Z.eqb_spec (width out) 24); [done|].
      destruct (Z.eqb_spec (width out) 32); [done|]. by apply (proj2 (Hmemset 0)).
  - unfold gst_audio_convert_create_silence_buffer. rewrite Hunsigned.
    split; [apply (proj1 (Hmemset 0))|]. split; [apply (proj2 (Hmemset 0))|].
    intros _ j Hj. rewrite memset_lookup by done. by rewrite decide_True by lia.
Qed.

Lemma silence_buffer_frame_witness :
  length (gst_audio_convert_create_silence_buffer G_LITTLE_ENDIAN s16_stereo_format
            (replicate 8 7) 4) = length (replicate 8 7)
  ∧ (∀ j : nat, 4 ≤ Z.of_nat j →
       gst_audio_convert_create_silence_buffer G_LITTLE_ENDIAN s16_stereo_format
         (replicate 8 7) 4 !! j = replicate 8 7 !! j)
  ∧ (is_int s16_stereo_format = false ∨ sign s16_stereo_format = true →
     ∀ j : nat, Z.of_nat j < 4 →
       gst_audio_convert_create_silence_buffer G_LITTLE_ENDIAN s16_stereo_format
         (replicate 8 7) 4 !! j = Some 0).
Proof.
  apply (silence_buffer_frame G_LITTLE_ENDIAN s16_stereo_format (replicate 8 7) 4).
  - simpl. lia.
  - intros _ Hsign. discriminate Hsign.
Defined.


(** *** Converting a buffer *)

(** X17.  gst_audio_convert_transform divides by the unit size of the
    input format, a division by zero when that is 0.  It returns
    GST_FLOW_ERROR with the output memory untouched when
    audio_convert_get_sizes fails or when a buffer is smaller than the size
    asked for, and GST_FLOW_OK with the output memory untouched when the
    input size or the output size is 0. *)
Theorem transform_leaves_output_untouched
    host get_sizes convert this inbuf (outbuf : list Z) :
  (unit_size (ctx_in (ctx this)) = 0 →
   gst_audio_convert_transform host get_sizes convert this inbuf outbuf = None)
  ∧ ∀ samples,
      transform_samples (Z.of_nat (length (buf_data inbuf)))
        (unit_size (ctx_in (ctx this))) = Some samples →
      (get_sizes (ctx this) samples = None →
       gst_audio_convert_transform host get_sizes convert this inbuf outbuf
       = Some (GST_FLOW_ERROR, outbuf))
      ∧ ∀ insize outsize,
          get_sizes (ctx this) samples = Some (insize, outsize) →
          (insize = 0 ∨ outsize = 0 →
           gst_audio_convert_transform host get_sizes convert this inbuf outbuf
           = Some (GST_FLOW_OK, outbuf))
          ∧ (insize ≠ 0 → outsize ≠ 0 →
             Z.of_nat (length (buf_data inbuf)) < gsize_of_gint insize
             ∨ Z.of_nat (length outbuf) < gsize_of_gint outsize →
             gst_audio_convert_transform host get_sizes convert this inbuf outbuf
             = Some (GST_FLOW_ERROR, outbuf)).
Proof.
  unfold gst_audio_convert_transform. split.
  - intros ->. by unfold transform_samples.
  - intros samples ->. split; [by intros ->|].
    intros insize outsize ->. split.
    + intros [-> | ->]; [done|]. by rewrite orb_true_r.
    + intros Hin Hout Hsmall.
      destruct (Z.eqb_spec insize 0); [done|].
      destruct (Z.eqb_spec outsize 0); [done|]. cbn [orb]. cbv zeta.
      destruct (Z.ltb_spec (Z.of_nat (length (buf_data inbuf))) (gsize_of_gint insize));
        [done|].
      destruct (Z.ltb_spec (Z.of_nat (length outbuf)) (gsize_of_gint outsize));
        [done|]. lia.
Qed.

Lemma transform_leaves_output_untouched_witness :
  gst_audio_convert_transform G_LITTLE_ENDIAN sizes_by_unit convert_by_copy
    stereo_convert gap_buffer (replicate 4 7)
  = Some (GST_FLOW_ERROR, replicate 4 7).
Proof.
  apply (proj2 (proj2 (proj2 (transform_leaves_output_untouched G_LITTLE_ENDIAN
                                sizes_by_unit convert_by_copy stereo_convert
                                gap_buffer (replicate 4 7))
                         2 ltac:(vm_compute; reflexivity))
                  8 8 ltac:(vm_compute; reflexivity))).
  - lia.
  - lia.
  - right. vm_compute. reflexivity.
Defined.

(** X18.  For an input buffer with the GAP flag and sizes that fit the
    buffers, gst_audio_convert_transform does not convert: it returns
    GST_FLOW_OK, and the output memory is the silence of the output format
    over [outsize] bytes; for a float or a signed format that is zeros in
    the first [outsize] bytes and the rest of the memory as it was. *)
Theorem transform_gap_writes_silence
    host get_sizes convert this inbuf (outbuf : list Z) samples insize outsize :
  transform_samples (Z.of_nat (length (buf_data inbuf)))
    (unit_size (ctx_in (ctx this))) = Some samples →
  get_sizes (ctx this) samples = Some (insize, outsize) →
  0 < insize ≤ Z.of_nat (length (buf_data inbuf)) →
  0 < outsize ≤ Z.of_nat (length outbuf) →
  outsize ≤ G_MAXINT → insize ≤ G_MAXINT →
  buf_flag_gap inbuf = true →
  ∃ dst,
    gst_audio_convert_transform host get_sizes convert this inbuf outbuf
      = Some (GST_FLOW_OK, dst)
    ∧ dst = gst_audio_convert_create_silence_buffer host (ctx_out (ctx this))
              outbuf outsize
    ∧ (is_int (ctx_out (ctx this)) = false ∨ sign (ctx_out (ctx this)) = true →
       length dst = length outbuf
       ∧ (∀ j : nat, Z.of_nat j < outsize → dst !! j = Some 0)
       ∧ (∀ j : nat, outsize ≤ Z.of_nat j → dst !! j = outbuf !! j)).
Proof.
  intros Hsamples Hsizes Hin Hout Hmaxo Hmaxi Hgap. eexists. split; [|split; [done|]].
  - unfold gst_audio_convert_transform. rewrite Hsamples, Hsizes, Hgap.
    unfold G_MAXINT in *.
    destruct (Z.eqb_spec insize 0); [lia|]. destruct (Z.eqb_spec outsize 0); [lia|].
    cbn [orb negb]. cbv zeta. unfold gsize_of_gint.
    rewrite !Z.mod_small by lia.
    destruct (Z.ltb_spec (Z.of_nat (length (buf_data inbuf))) insize); [lia|].
    destruct (Z.ltb_spec (Z.of_nat (length outbuf)) outsize); [lia|]. done.
  - intros Hfmt.
    assert (gst_audio_convert_create_silence_buffer host (ctx_out (ctx this))
              outbuf outsize = memset outbuf 0 outsize) as ->.
    { unfold gst_audio_convert_create_silence_buffer.
      destruct Hfmt as [-> | ->]; [done|]. by rewrite andb_false_r. }
    split; [apply memset_length; lia|]. split.
    + intros j Hj. rewrite memset_lookup by lia. by rewrite decide_True by lia.
    + intros j Hj. rewrite memset_lookup by lia. by rewrite decide_False by lia.
Qed.

Lemma transform_gap_writes_silence_witness :
  ∃ dst,
    gst_audio_convert_transform G_LITTLE_ENDIAN sizes_by_unit convert_by_copy
      stereo_convert gap_buffer (replicate 12 7)
      = Some (GST_FLOW_OK, dst)
    ∧ dst = gst_audio_convert_create_silence_buffer G_LITTLE_ENDIAN
              (ctx_out (ctx stereo_convert)) (replicate 12 7) 8
    ∧ (is_int (ctx_out (ctx stereo_convert)) = false
       ∨ sign (ctx_out (ctx stereo_convert)) = true →
       length dst = length (replicate 12 7)
       ∧ (∀ j : nat, Z.of_nat j < 8 → dst !! j = Some 0)
       ∧ (∀ j : nat, 8 ≤ Z.of_nat j → dst !! j = replicate 12 7 !! j)).
Proof.
  apply (transform_gap_writes_silence G_LITTLE_ENDIAN sizes_by_unit convert_by_copy
           stereo_convert gap_buffer (replicate 12 7) 2 8 8).
  - vm_compute. reflexivity.
  - vm_compute. reflexivity.
  - simpl. lia.
  - simpl. lia.
  - vm_compute. discriminate.
  - vm_compute. discriminate.
  - reflexivity.
Defined.

(** ** The set of file descriptors: facts *)

Module FDSetFacts.
Import FDSet.

Lemma pow2_bounds k : 0 ≤ k ≤ 30 → 1 ≤ 2 ^ k ≤ 2 ^ 30.
Proof.
  intros Hk. split.
  - pose proof (Z.pow_pos_nonneg 2 k). lia.
  - apply Z.pow_le_mono_r; lia.
Qed.

Lemma nearest_pow_loop_spec (m : nat) : ∀ (fuel : nat) k num,
  (m < fuel)%nat → 0 ≤ k → k = 30 - Z.of_nat m → num ≤ 2 ^ 30 →
  (k = 0 ∨ 2 ^ (k - 1) < num) →
  ∃ j, nearest_pow_loop fuel (2 ^ k) num = Some (2 ^ j)
       ∧ k ≤ j ≤ 30 ∧ num ≤ 2 ^ j ∧ (j = 0 ∨ 2 ^ (j - 1) < num).
Proof.
  induction m as [|m IH]; intros fuel k num Hfuel Hk Hm Hnum Hlow;
    (destruct fuel as [|fuel]; [lia|]); simpl.
  - replace k with 30 by lia. destruct (Z.ltb_spec (2 ^ 30) num); [lia|].
    exists 30. replace k with 30 in Hlow by lia. repeat split; try lia. 
  - destruct (Z.ltb_spec (2 ^ k) num) as [Hlt|Hge].
    + pose proof (pow2_bounds k ltac:(lia)).
      pose proof (pow2_bounds (k + 1) ltac:(lia)) as Hb.
      rewrite Z.pow_add_r in Hb by lia. change (2 ^ 1) with 2 in Hb.
      rewrite gint_wrap_small by (unfold G_MININT, G_MAXINT; lia).
      replace (2 ^ k * 2) with (2 ^ (k + 1))
        by (rewrite Z.pow_add_r by lia; done).
      destruct (IH fuel (k + 1) num) as (j & Hj & ? & ? & ?); try lia.
      { right. by replace (k + 1 - 1) with k by lia. }
      exists j. repeat split; try done; lia.
    + exists k. repeat split; try done; lia.
Qed.

Lemma nearest_pow_power num :
  num ≤ 2 ^ 30 →
  ∃ j, nearest_pow num = Some (2 ^ j)
       ∧ 0 ≤ j ≤ 30 ∧ num ≤ 2 ^ j ∧ (j = 0 ∨ 2 ^ (j - 1) < num).
Proof.
  intros Hnum. unfold nearest_pow.
  destruct (nearest_pow_loop_spec 30 64 0 num) as (j & Hj & ? & ? & ?);
    try lia.
  exists j. repeat split; try done; lia.
Qed.

(** From zero the loop never ends. *)
Lemma nearest_pow_loop_zero fuel num :
  0 < num → nearest_pow_loop fuel 0 num = None.
Proof.
  intros Hnum. induction fuel as [|fuel IH]; [done|]. simpl.
  destruct (Z.ltb_spec 0 num); [|lia]. exact IH.
Qed.

Lemma nearest_pow_loop_diverges (m : nat) : ∀ (fuel : nat) k num,
  k = 30 - Z.of_nat m → 0 ≤ k → 2 ^ 30 < num →
  nearest_pow_loop fuel (2 ^ k) num = None.
Proof.
  induction m as [|m IH]; intros fuel k num Hm Hk Hnum;
    (destruct fuel as [|fuel]; [done|]); simpl.
  - replace k with 30 by lia. destruct (Z.ltb_spec (2 ^ 30) num); [|lia].
    change (gint_wrap (2 ^ 30 * 2)) with (- 2 ^ 31).
    destruct fuel as [|fuel]; [done|]. simpl.
    destruct (Z.ltb_spec (- 2 ^ 31) num); [|lia].
    change (gint_wrap (- 2 ^ 31 * 2)) with 0.
    apply nearest_pow_loop_zero. lia.
  - pose proof (pow2_bounds k ltac:(lia)).
    pose proof (pow2_bounds (k + 1) ltac:(lia)) as Hb.
    rewrite Z.pow_add_r in Hb by lia. change (2 ^ 1) with 2 in Hb.
    destruct (Z.ltb_spec (2 ^ k) num); [|lia].
    rewrite gint_wrap_small by (unfold G_MININT, G_MAXINT; lia).
    replace (2 ^ k * 2) with (2 ^ (k + 1))
      by (rewrite Z.pow_add_r by lia; done).
    apply (IH fuel (k + 1) num); lia.
Qed.

(** The bound of 64 iterations in [nearest_pow] loses nothing: where it is
    reached, no number of iterations ends the loop. *)
Lemma nearest_pow_fuel num :
  nearest_pow num = None → ∀ fuel, nearest_pow_loop fuel 1 num = None.
Proof.
  intros Hnone fuel. destruct (Z.le_gt_cases num (2 ^ 30)) as [Hle|Hgt].
  - destruct (nearest_pow_power num Hle) as (j & Hj & _). congruence.
  - apply (nearest_pow_loop_diverges 30 fuel 0 num); lia.
Qed.

Lemma pow2_divide_8 j : 3 ≤ j → (2 ^ j) `mod` 8 = 0.
Proof.
  intros Hj. replace j with (3 + (j - 3)) by lia.
  rewrite Z.pow_add_r by lia. change (2 ^ 3) with 8.
  rewrite Z.mul_comm. apply Z.mod_mul. lia.
Qed.

Lemma pow2_lt_inv a b : 0 ≤ a → 0 ≤ b → 2 ^ a < 2 ^ b → a < b.
Proof.
  intros Ha Hb Hlt. destruct (Z.lt_ge_cases a b) as [|Hge]; [done|].
  pose proof (Z.pow_le_mono_r 2 b a ltac:(lia) Hge). lia.
Qed.

Section AllocatorFacts.

Variable uninitialized : nat → pollfd.

Lemma g_realloc_length l need :
  Z.of_nat (length l) * sizeof_pollfd ≤ need → need `mod` sizeof_pollfd = 0 →
  Z.of_nat (length (g_realloc uninitialized l need)) * sizeof_pollfd = need.
Proof.
  unfold g_realloc, sizeof_pollfd. intros Hlen Hmod.
  rewrite length_app, length_take, length_fmap, length_seq.
  pose proof (Z.div_mod need 8 ltac:(lia)) as Hdm. rewrite Hmod in Hdm.
  assert (Z.of_nat (length l) ≤ need / 8) by lia.
  lia.
Qed.

Lemma g_realloc_lookup l need (i : nat) :
  Z.of_nat (length l) * sizeof_pollfd ≤ need → (i < length l)%nat →
  g_realloc uninitialized l need !! i = l !! i.
Proof.
  unfold g_realloc, sizeof_pollfd. intros Hlen Hi.
  assert (Z.of_nat (length l) ≤ need / 8) by (apply Z.div_le_lower_bound; lia).
  rewrite take_ge by lia. by rewrite lookup_app_l.
Qed.

(** What ensure_size establishes, and what it leaves alone. *)
Lemma ensure_size_facts set len :
  0 ≤ len → len * sizeof_pollfd ≤ 2 ^ 30 →
  0 ≤ size set ≤ 2 ^ 30 →
  Z.of_nat (length (pollfds set)) * sizeof_pollfd = size set →
  ∃ set', ensure_size uninitialized set len = Some set'
    ∧ len * sizeof_pollfd ≤ size set'
    ∧ size set ≤ size set' ≤ 2 ^ 30
    ∧ Z.of_nat (length (pollfds set')) * sizeof_pollfd = size set'
    ∧ (∀ i : nat, (i < length (pollfds set))%nat →
         pollfds set' !! i = pollfds set !! i)
    ∧ mode set' = mode set ∧ last_pollfds set' = last_pollfds set
    ∧ free set' = free set
    ∧ readfds set' = readfds set ∧ writefds set' = writefds set
    ∧ testreadfds set' = testreadfds set ∧ testwritefds set' = testwritefds set.
Proof.
  intros Hlen Hmax Hsize Hcap. unfold ensure_size, guint_wrap, guint_of_gint.
  unfold sizeof_pollfd in *.
  rewrite (Z.mod_small (len * 8)) by lia.
  rewrite (Z.mod_small (size set)) by lia.
  destruct (Z.gtb_spec (len * 8) (size set)) as [Hgt|Hle].
  - rewrite gint_wrap_small by (unfold G_MININT, G_MAXINT; lia).
    destruct (nearest_pow_power (len * 8) Hmax) as (j & -> & Hj & Hge & Hlow).
    pose proof (pow2_bounds j Hj).
    rewrite (Z.mod_small (2 ^ j)) by lia.
    unfold MIN_POLLFDS. change (64 * 8) with 512.
    rewrite (Z.mod_small (Z.max _ _)) by lia.
    rewrite gint_wrap_small by (unfold G_MININT, G_MAXINT; lia).
    assert (Z.max (2 ^ j) 512 `mod` 8 = 0) as Hmod.
    { destruct (Z.max_spec (2 ^ j) 512) as [[_ ->]|[Hlt ->]]; [done|].
      apply pow2_divide_8.
      change 512 with (2 ^ 9) in Hlt.
      pose proof (pow2_lt_inv 9 j). 
      destruct (Z.eq_dec (2 ^ 9) (2 ^ j)) as [Heq|Hne].
      - apply Z.pow_inj_r in Heq; lia.
      - lia. }
    eexists. split; [done|]. cbn [size pollfds mode last_pollfds free readfds
      writefds testreadfds testwritefds].
    repeat split; try done; try lia.
    + apply g_realloc_length; unfold sizeof_pollfd; [lia|done].
    + intros i Hi. apply g_realloc_lookup; unfold sizeof_pollfd; [lia|done].
  - exists set. repeat split; try done; lia.
Qed.

Lemma read_pollfd_lookup l i :
  0 ≤ i → read_pollfd l i = l !! Z.to_nat i.
Proof. unfold read_pollfd. intros Hi. by destruct (Z.ltb_spec i 0); [lia|]. Qed.

Lemma write_pollfd_Some l i p :
  0 ≤ i < Z.of_nat (length l) →
  write_pollfd l i p = Some (<[Z.to_nat i := p]> l).
Proof.
  unfold write_pollfd. intros Hi.
  destruct (Z.ltb_spec i 0); [lia|]. by destruct (Z.leb_spec (Z.of_nat (length l)) i); [lia|].
Qed.

Lemma write_pollfd_inv l i p l' :
  write_pollfd l i p = Some l' →
  0 ≤ i < Z.of_nat (length l) ∧ l' = <[Z.to_nat i := p]> l.
Proof.
  unfold write_pollfd. intros Hw.
  destruct (Z.ltb_spec i 0); [done|].
  destruct (Z.leb_spec (Z.of_nat (length l)) i); [done|].
  simpl in Hw. split; [lia|congruence].
Qed.

(** The search ends at or before [last], on the first entry after [idx]
    whose descriptor is -1 if there is one. *)
Lemma find_free_spec l last : ∀ (fuel : nat) idx,
  -1 ≤ idx ≤ last → last < Z.of_nat (length l) →
  (Z.to_nat (last - idx) < fuel)%nat →
  ∃ j, find_free fuel idx last l = Some j
    ∧ idx ≤ j ≤ last ∧ (idx < last → idx < j)
    ∧ (j < last → ∃ p, l !! Z.to_nat j = Some p ∧ pollfd_fd p = -1)
    ∧ (∀ i p, idx < i < j → l !! Z.to_nat i = Some p → pollfd_fd p ≠ -1).
Proof.
  induction fuel as [|fuel IH]; intros idx Hidx Hlast Hfuel; [lia|]. simpl.
  destruct (Z.ltb_spec idx last) as [Hlt|Hge].
  - destruct (Z.ltb_spec (idx + 1) 0); [lia|].
    destruct (lookup_lt_is_Some_2 l (Z.to_nat (idx + 1))) as [p Hp]; [lia|].
    rewrite Hp. destruct (Z.eqb_spec (pollfd_fd p) (-1)) as [Hfree|Hused].
    + exists (idx + 1). repeat split; try lia.
      intros _. by exists p.
    + destruct (IH (idx + 1)) as (j & -> & Hj & Hadv & Hfree & Hbefore); try lia.
      exists j. repeat split; try done; try lia.
      intros i q Hi Hq. destruct (Z.eq_dec i (idx + 1)) as [->|Hne].
      * congruence.
      * apply (Hbefore i q); [lia|done].
  - exists idx. repeat split; try lia.
Qed.

(** gst_fdset_add_fd on a set in poll mode. *)
Lemma add_fd_poll_facts set fd_ :
  poll_invariant set →
  (last_pollfds set + 1) * sizeof_pollfd ≤ 2 ^ 30 →
  ∃ set' i,
    gst_fdset_add_fd uninitialized set fd_ = Some (set', mkFD (fd fd_) i)
    ∧ poll_invariant set'
    ∧ 0 ≤ i ≤ last_pollfds set
    ∧ read_pollfd (pollfds set') i = Some (mkPollfd (fd fd_) 0 0)
    ∧ last_pollfds set' = Z.max (i + 1) (last_pollfds set)
    ∧ free set' = -1
    ∧ (∀ k, 0 ≤ k < last_pollfds set → k ≠ i →
         read_pollfd (pollfds set') k = read_pollfd (pollfds set) k)
    ∧ (i < last_pollfds set → free_entry set i)
    ∧ (∀ k, 0 ≤ k < i → ¬ free_entry set k).
Proof.
  intros (Hmode & Hlast & Hfit & Hcap & Hsize & Hfree) Hroom.
  unfold gst_fdset_add_fd. rewrite Hmode.
  unfold sizeof_pollfd in *.
  destruct (ensure_size_facts set (last_pollfds set + 1))
    as (s1 & -> & Hroom1 & Hsize1 & Hcap1 & Hkeep & Hmode1 & Hlast1 & Hfree1 & Hr & Hw & Htr & Htw);
    unfold sizeof_pollfd in *; try lia.
  rewrite Hfree1, Hlast1.
  assert (∀ k, 0 ≤ k < last_pollfds set →
            pollfds s1 !! Z.to_nat k = pollfds set !! Z.to_nat k) as Hkeep'.
  { intros k Hk. apply Hkeep. lia. }
  assert (∃ i, (if free set =? -1
                then find_free (Z.to_nat (last_pollfds set + 2)) (free set)
                       (last_pollfds set) (pollfds s1)
                else Some (free set)) = Some i
            ∧ 0 ≤ i ≤ last_pollfds set
            ∧ (i < last_pollfds set → free_entry set i)
            ∧ (∀ k, 0 ≤ k < i → ¬ free_entry set k)) as (i & -> & Hi & Hfound & Hfirst).
  { destruct Hfree as [->|[-> Hzero]].
    - change (-1 =? -1) with true. cbv iota.
      destruct (find_free_spec (pollfds s1) (last_pollfds set)
                  (Z.to_nat (last_pollfds set + 2)) (-1))
        as (j & -> & Hj & Hadv & Hjfree & Hbefore); try lia.
      exists j. split; [done|]. split; [lia|]. split.
      + intros Hlt. destruct (Hjfree Hlt) as (p & Hp & Hpfd).
        exists p. split; [|done].
        rewrite read_pollfd_lookup by lia. rewrite <- Hkeep' by lia. done.
      + intros k Hk (p & Hp & Hpfd).
        rewrite read_pollfd_lookup in Hp by lia.
        rewrite <- Hkeep' in Hp by lia.
        by apply (Hbefore k p); [lia|..].
    - change (0 =? -1) with false. cbv iota. exists 0.
      split; [done|]. split; [lia|]. split; [lia|]. intros k Hk. lia. }
  rewrite write_pollfd_Some by lia.
  eexists _, i. split; [done|].
  cbn [mode pollfds last_pollfds size free readfds writefds testreadfds testwritefds].
  split.
  { unfold poll_invariant, sizeof_pollfd.
    cbn [mode pollfds last_pollfds size free].
    rewrite length_insert. repeat split; try done; try lia; try congruence. }
  split; [done|]. split.
  { rewrite read_pollfd_lookup by lia. apply list_lookup_insert_eq. lia. }
  split; [done|]. split; [done|]. split; [|done].
  intros k Hk Hne. rewrite !read_pollfd_lookup by lia.
  rewrite list_lookup_insert_ne by lia. by apply Hkeep'.
Qed.

End AllocatorFacts.

(** gst_fdset_remove_fd on a set in poll mode. *)
Lemma remove_fd_poll_facts set fd_ :
  poll_invariant set → 0 ≤ idx fd_ < last_pollfds set →
  ∃ set',
    gst_fdset_remove_fd set fd_ = Some (set', mkFD (fd fd_) (-1))
    ∧ poll_invariant set'
    ∧ read_pollfd (pollfds set') (idx fd_) = Some (mkPollfd (-1) 0 0)
    ∧ last_pollfds set' =
        (if idx fd_ + 1 =? last_pollfds set then idx fd_ else last_pollfds set)
    ∧ free set' = -1
    ∧ (∀ k, 0 ≤ k → k ≠ idx fd_ →
         read_pollfd (pollfds set') k = read_pollfd (pollfds set) k).
Proof.
  intros (Hmode & Hlast & Hfit & Hcap & Hsize & Hfree) Hidx.
  unfold gst_fdset_remove_fd. rewrite Hmode. unfold sizeof_pollfd in *.
  rewrite write_pollfd_Some by lia.
  assert ((if free set =? -1 then -1 else Z.min (free set) (-1)) = -1) as ->.
  { destruct (Z.eqb_spec (free set) (-1)); lia. }
  eexists. split; [done|].
  cbn [mode pollfds last_pollfds size free].
  split.
  { unfold poll_invariant, sizeof_pollfd.
    cbn [mode pollfds last_pollfds size free].
    rewrite length_insert.
    destruct (Z.eqb_spec (idx fd_ + 1) (last_pollfds set));
      repeat split; try done; try lia; by left. }
  split.
  { rewrite read_pollfd_lookup by lia. apply list_lookup_insert_eq. lia. }
  split.
  { destruct (Z.eqb_spec (idx fd_ + 1) (last_pollfds set)); lia. }
  split; [done|].
  intros k Hk Hne. rewrite !read_pollfd_lookup by lia.
  by rewrite list_lookup_insert_ne by lia.
Qed.

(** ** Results on the set of file descriptors *)

(** X19.  For a number up to 2^30, nearest_pow returns the smallest power
    of two that is not below it (1 for a number below 1). *)
Theorem nearest_pow_smallest_power num :
  num ≤ 2 ^ 30 →
  ∃ p, nearest_pow num = Some p
    ∧ num ≤ p
    ∧ (∃ j, 0 ≤ j ∧ p = 2 ^ j)
    ∧ (∀ j, 0 ≤ j → num ≤ 2 ^ j → p ≤ 2 ^ j).
Proof.
  intros Hnum.
  destruct (nearest_pow_power num Hnum) as (j & Hj & Hrange & Hge & Hlow).
  exists (2 ^ j). split; [done|]. split; [done|]. split.
  - exists j. split; [lia|done].
  - intros j' Hj' Hle. apply Z.pow_le_mono_r; [lia|].
    destruct Hlow as [->|Hlow]; [done|].
    assert (j - 1 < j'); [|lia].
    destruct (Z.lt_ge_cases (j - 1) 0); [lia|].
    apply pow2_lt_inv; lia.
Qed.

Lemma nearest_pow_smallest_power_witness :
  ∃ p, nearest_pow 520 = Some p
    ∧ 520 ≤ p
    ∧ (∃ j, 0 ≤ j ∧ p = 2 ^ j)
    ∧ (∀ j, 0 ≤ j → 520 ≤ 2 ^ j → p ≤ 2 ^ j).
Proof. apply (nearest_pow_smallest_power 520). lia. Defined.

Section AllocatorResults.

Variable uninitialized : nat → pollfd.

(** X20.  On an array whose allocation is at most 2^30 bytes, ensure_size
    for [len] entries that fit into 2^30 bytes leaves an array with room for
    [len] entries, never a smaller one, keeps every entry the array had,
    and changes nothing when the room was there already. *)
Theorem ensure_size_makes_room set len :
  0 ≤ len → len * sizeof_pollfd ≤ 2 ^ 30 →
  0 ≤ size set ≤ 2 ^ 30 →
  Z.of_nat (length (pollfds set)) * sizeof_pollfd = size set →
  ∃ set', ensure_size uninitialized set len = Some set'
    ∧ len ≤ Z.of_nat (length (pollfds set'))
    ∧ (length (pollfds set) ≤ length (pollfds set'))%nat
    ∧ Z.of_nat (length (pollfds set')) * sizeof_pollfd = size set'
    ∧ (∀ i : nat, (i < length (pollfds set))%nat →
         pollfds set' !! i = pollfds set !! i)
    ∧ last_pollfds set' = last_pollfds set
    ∧ (len ≤ Z.of_nat (length (pollfds set)) → set' = set).
Proof.
  intros Hlen Hmax Hsize Hcap.
  destruct (ensure_size_facts uninitialized set len Hlen Hmax Hsize Hcap)
    as (s' & Hs' & Hroom & Hgrow & Hcap' & Hkeep & _ & Hlast & _).
  exists s'. unfold sizeof_pollfd in *.
  repeat split; try done; try lia.
  intros Hfits. unfold ensure_size, guint_wrap, guint_of_gint, sizeof_pollfd in Hs'.
  rewrite (Z.mod_small (len * 8)) in Hs' by lia.
  rewrite (Z.mod_small (size set)) in Hs' by lia.
  destruct (Z.gtb_spec (len * 8) (size set)); [lia|]. congruence.
Qed.

(** X21.  The set gst_fdset_new returns has the mode asked for, no entry
    in use and watches no descriptor; in poll mode it has room for 64
    entries and satisfies the invariant of the poll operations, whatever the
    allocator left in the array. *)
Theorem new_set_is_empty m :
  ∃ set, gst_fdset_new uninitialized m = Some set
    ∧ mode set = m
    ∧ last_pollfds set = 0
    ∧ readfds set = ∅ ∧ writefds set = ∅
    ∧ (m = GST_FDSET_MODE_POLL →
         poll_invariant set ∧ length (pollfds set) = 64%nat).
Proof.
  destruct m.
  - eexists. split; [reflexivity|]. repeat split; done.
  - eexists. split; [vm_compute; reflexivity|].
    unfold poll_invariant, sizeof_pollfd.
    cbn [mode pollfds last_pollfds size free readfds writefds length].
    repeat split; try done; try lia.
  - eexists. split; [reflexivity|]. repeat split; done.
Qed.

(** X22.  In poll mode, gst_fdset_add_fd on a set that satisfies the
    invariant succeeds while the array stays within 2^30 bytes: the set
    satisfies the invariant again, the descriptor gets an entry in use that
    holds it with no events, and whose index the GstFD records, at most one
    more entry is in use, and the other entries in use are as they were. *)
Theorem add_fd_poll_registers set fd_ :
  poll_invariant set →
  (last_pollfds set + 1) * sizeof_pollfd ≤ 2 ^ 30 →
  ∃ set' fd',
    gst_fdset_add_fd uninitialized set fd_ = Some (set', fd')
    ∧ poll_invariant set'
    ∧ fd fd' = fd fd_
    ∧ 0 ≤ idx fd' < last_pollfds set'
    ∧ read_pollfd (pollfds set') (idx fd') = Some (mkPollfd (fd fd_) 0 0)
    ∧ last_pollfds set ≤ last_pollfds set' ≤ last_pollfds set + 1
    ∧ (∀ k, 0 ≤ k < last_pollfds set → k ≠ idx fd' →
         read_pollfd (pollfds set') k = read_pollfd (pollfds set) k).
Proof.
  intros Hinv Hroom.
  destruct (add_fd_poll_facts uninitialized set fd_ Hinv Hroom)
    as (s' & i & Hadd & Hinv' & Hi & Hread & Hlast & _ & Hkeep & _).
  exists s', (mkFD (fd fd_) i). cbn [fd idx].
  split; [done|]. split; [done|]. split; [done|]. split; [lia|].
  split; [done|]. split; [lia|done].
Qed.

(** X23.  In poll mode gst_fdset_add_fd puts the descriptor into the first
    free entry: no entry below the chosen one is free, the chosen entry was
    free or is the one after the entries in use, and no entry that holds a
    descriptor is overwritten. *)
Theorem add_fd_poll_first_free set fd_ set' fd' :
  poll_invariant set →
  (last_pollfds set + 1) * sizeof_pollfd ≤ 2 ^ 30 →
  gst_fdset_add_fd uninitialized set fd_ = Some (set', fd') →
  (∀ k, 0 ≤ k < idx fd' → ¬ free_entry set k)
  ∧ (free_entry set (idx fd') ∨ idx fd' = last_pollfds set)
  ∧ (∀ k p, 0 ≤ k < last_pollfds set →
       read_pollfd (pollfds set) k = Some p → pollfd_fd p ≠ -1 →
       read_pollfd (pollfds set') k = Some p).
Proof.
  intros Hinv Hroom Hadd.
  destruct (add_fd_poll_facts uninitialized set fd_ Hinv Hroom)
    as (s' & i & Hadd' & _ & Hi & _ & _ & _ & Hkeep & Hfree & Hfirst).
  rewrite Hadd' in Hadd. injection Hadd as <- <-. cbn [idx].
  split; [done|]. split.
  - destruct (Z.eq_dec i (last_pollfds set)); [by right|].
    left. apply Hfree. lia.
  - intros k p Hk Hp Hused. destruct (Z.eq_dec k i) as [->|Hne].
    + exfalso. apply Hused.
      destruct (Hfree ltac:(lia)) as (q & Hq & Hqfd). congruence.
    + by rewrite Hkeep.
Qed.

(** X24.  In poll mode a descriptor added with gst_fdset_add_fd after a
    gst_fdset_remove_fd gets an entry at or below the removed one, and no
    more entries are in use than before the removal. *)
Theorem remove_then_add_reuses_entry set fd_ new_fd :
  poll_invariant set → 0 ≤ idx fd_ < last_pollfds set →
  (last_pollfds set + 1) * sizeof_pollfd ≤ 2 ^ 30 →
  ∃ s1 fd1 s2 fd2,
    gst_fdset_remove_fd set fd_ = Some (s1, fd1)
    ∧ gst_fdset_add_fd uninitialized s1 new_fd = Some (s2, fd2)
    ∧ 0 ≤ idx fd2 ≤ idx fd_
    ∧ last_pollfds s2 ≤ last_pollfds set.
Proof.
  intros Hinv Hidx Hroom.
  destruct (remove_fd_poll_facts set fd_ Hinv Hidx)
    as (s1 & Hrem & Hinv1 & Hfreed & Hlast1 & _ & _).
  assert (last_pollfds s1 ≤ last_pollfds set) as Hle.
  { rewrite Hlast1. destruct (Z.eqb_spec (idx fd_ + 1) (last_pollfds set)); lia. }
  destruct (add_fd_poll_facts uninitialized s1 new_fd Hinv1)
    as (s2 & i & Hadd & _ & Hi & _ & Hlast2 & _ & _ & _ & Hfirst).
  { unfold sizeof_pollfd in *. lia. }
  exists s1, (mkFD (fd fd_) (-1)), s2, (mkFD (fd new_fd) i). cbn [idx].
  split; [done|]. split; [done|].
  assert (i ≤ idx fd_) as Hreuse.
  { destruct (Z.le_gt_cases i (idx fd_)) as [|Hgt]; [done|].
    exfalso. apply (Hfirst (idx fd_)); [lia|]. by eexists. }
  split; [lia|]. rewrite Hlast2, Hlast1.
  destruct (Z.eqb_spec (idx fd_ + 1) (last_pollfds set)); lia.
Qed.

End AllocatorResults.

Lemma ensure_size_makes_room_witness :
  ∃ set', ensure_size cleared_memory three_entries 100 = Some set'
    ∧ 100 ≤ Z.of_nat (length (pollfds set'))
    ∧ (length (pollfds three_entries) ≤ length (pollfds set'))%nat
    ∧ Z.of_nat (length (pollfds set')) * sizeof_pollfd = size set'
    ∧ (∀ i : nat, (i < length (pollfds three_entries))%nat →
         pollfds set' !! i = pollfds three_entries !! i)
    ∧ last_pollfds set' = last_pollfds three_entries
    ∧ (100 ≤ Z.of_nat (length (pollfds three_entries)) → set' = three_entries).
Proof.
  apply (ensure_size_makes_room cleared_memory three_entries 100).
  - lia.
  - vm_compute. discriminate.
  - vm_compute. split; discriminate.
  - reflexivity.
Defined.

Lemma add_fd_poll_registers_witness :
  ∃ set' fd',
    gst_fdset_add_fd cleared_memory three_entries (mkFD 7 0) = Some (set', fd')
    ∧ poll_invariant set'
    ∧ fd fd' = 7
    ∧ 0 ≤ idx fd' < last_pollfds set'
    ∧ read_pollfd (pollfds set') (idx fd') = Some (mkPollfd 7 0 0)
    ∧ last_pollfds three_entries ≤ last_pollfds set'
        ≤ last_pollfds three_entries + 1
    ∧ (∀ k, 0 ≤ k < last_pollfds three_entries → k ≠ idx fd' →
         read_pollfd (pollfds set') k = read_pollfd (pollfds three_entries) k).
Proof.
  apply (add_fd_poll_registers cleared_memory three_entries (mkFD 7 0)).
  - unfold poll_invariant. repeat split; try done. by left.
  - vm_compute. discriminate.
Defined.

Lemma add_fd_poll_first_free_witness :
  (∀ k, 0 ≤ k < 1 → ¬ free_entry three_entries k)
  ∧ (free_entry three_entries 1 ∨ 1 = last_pollfds three_entries)
  ∧ (∀ k p, 0 ≤ k < last_pollfds three_entries →
       read_pollfd (pollfds three_entries) k = Some p → pollfd_fd p ≠ -1 →
       read_pollfd
         (pollfds (mkSet GST_FDSET_MODE_POLL
            ([mkPollfd 5 0 0; mkPollfd 7 0 0; mkPollfd 9 POLLIN POLLHUP]
               ++ replicate 61 (mkPollfd 0 0 0))
            3 512 (-1) ∅ ∅ ∅ ∅)) k = Some p).
Proof.
  apply (add_fd_poll_first_free cleared_memory three_entries (mkFD 7 0) _ (mkFD 7 1)).
  - unfold poll_invariant. repeat split; try done. by left.
  - vm_compute. discriminate.
  - reflexivity.
Defined.

Lemma remove_then_add_reuses_entry_witness :
  ∃ s1 fd1 s2 fd2,
    gst_fdset_remove_fd three_entries (mkFD 9 2) = Some (s1, fd1)
    ∧ gst_fdset_add_fd cleared_memory s1 (mkFD 7 0) = Some (s2, fd2)
    ∧ 0 ≤ idx fd2 ≤ 2
    ∧ last_pollfds s2 ≤ last_pollfds three_entries.
Proof.
  apply (remove_then_add_reuses_entry cleared_memory three_entries (mkFD 9 2) (mkFD 7 0)).
  - unfold poll_invariant. repeat split; try done. by left.
  - simpl. lia.
  - vm_compute. discriminate.
Defined.


(** X25.  In poll mode, gst_fdset_remove_fd of a descriptor whose index is
    an entry in use keeps the invariant, frees that entry, sets the index of
    the GstFD to -1, leaves the other entries alone, lowers the number of
    entries in use by one when the entry was the last one, and always
    leaves the hint [free] at -1. *)
Theorem remove_fd_poll_frees set fd_ :
  poll_invariant set → 0 ≤ idx fd_ < last_pollfds set →
  ∃ set' fd',
    gst_fdset_remove_fd set fd_ = Some (set', fd')
    ∧ poll_invariant set'
    ∧ fd fd' = fd fd_ ∧ idx fd' = -1
    ∧ read_pollfd (pollfds set') (idx fd_) = Some (mkPollfd (-1) 0 0)
    ∧ last_pollfds set' =
        (if idx fd_ + 1 =? last_pollfds set then last_pollfds set - 1
         else last_pollfds set)
    ∧ free set' = -1
    ∧ (∀ k, 0 ≤ k → k ≠ idx fd_ →
         read_pollfd (pollfds set') k = read_pollfd (pollfds set) k).
Proof.
  intros Hinv Hidx.
  destruct (remove_fd_poll_facts set fd_ Hinv Hidx)
    as (s' & Hrem & Hinv' & Hfreed & Hlast & Hfree & Hkeep).
  exists s', (mkFD (fd fd_) (-1)). cbn [fd idx].
  split; [done|]. split; [done|]. split; [done|]. split; [done|].
  split; [done|]. split; [|done].
  rewrite Hlast. destruct (Z.eqb_spec (idx fd_ + 1) (last_pollfds set)); lia.
Qed.

Lemma remove_fd_poll_frees_witness :
  ∃ set' fd',
    gst_fdset_remove_fd three_entries (mkFD 9 2) = Some (set', fd')
    ∧ poll_invariant set'
    ∧ fd fd' = 9 ∧ idx fd' = -1
    ∧ read_pollfd (pollfds set') 2 = Some (mkPollfd (-1) 0 0)
    ∧ last_pollfds set' =
        (if 2 + 1 =? last_pollfds three_entries
         then last_pollfds three_entries - 1
         else last_pollfds three_entries)
    ∧ free set' = -1
    ∧ (∀ k, 0 ≤ k → k ≠ 2 →
         read_pollfd (pollfds set') k = read_pollfd (pollfds three_entries) k).
Proof.
  apply (remove_fd_poll_frees three_entries (mkFD 9 2)).
  - unfold poll_invariant. repeat split; try done. by left.
  - simpl. lia.
Defined.

(** X26.  In poll mode a descriptor that gst_fdset_remove_fd removed
    cannot be removed again: its index is -1, and the second removal writes
    before the start of the array. *)
Theorem remove_fd_poll_twice set fd_ set' fd' :
  mode set = GST_FDSET_MODE_POLL →
  gst_fdset_remove_fd set fd_ = Some (set', fd') →
  gst_fdset_remove_fd set' fd' = None.
Proof.
  intros Hmode Hrem. unfold gst_fdset_remove_fd in Hrem. rewrite Hmode in Hrem.
  destruct (write_pollfd (pollfds set) (idx fd_) _) as [l|]; [|done].
  injection Hrem as <- <-. unfold gst_fdset_remove_fd. cbn [mode idx pollfds].
  by rewrite ?Hmode.
Qed.

Lemma remove_fd_poll_twice_witness :
  gst_fdset_remove_fd
    (mkSet GST_FDSET_MODE_POLL
       ([mkPollfd 5 0 0; mkPollfd (-1) 0 0; mkPollfd (-1) 0 0]
          ++ replicate 61 (mkPollfd 0 0 0))
       2 512 (-1) ∅ ∅ ∅ ∅)
    (mkFD 9 (-1)) = None.
Proof.
  apply (remove_fd_poll_twice three_entries (mkFD 9 2)).
  - reflexivity.
  - reflexivity.
Defined.

Lemma set_events_facts set fd_ ev p :
  read_pollfd (pollfds set) (idx fd_) = Some p →
  ∃ set', set_events set fd_ ev = Some set'
    ∧ mode set' = mode set
    ∧ read_pollfd (pollfds set') (idx fd_)
        = Some (mkPollfd (pollfd_fd p) ev (revents p)).
Proof.
  intros Hp. unfold set_events. rewrite Hp.
  unfold read_pollfd in Hp.
  destruct (Z.ltb_spec (idx fd_) 0); [done|].
  apply lookup_lt_Some in Hp as Hlt.
  rewrite write_pollfd_Some by lia.
  eexists. split; [done|]. split; [done|]. cbn [pollfds].
  rewrite read_pollfd_lookup by lia. apply list_lookup_insert_eq. lia.
Qed.

(** X27.  In poll mode gst_fdset_fd_ctl_read and gst_fdset_fd_ctl_write
    both assign the events of the entry, and the later call wins: after
    ctl_read then ctl_write the entry asks for POLLOUT or for nothing, with
    no read event left, and after ctl_write then ctl_read it asks for POLLIN
    and POLLPRI or for nothing.  The descriptor and the returned events of
    the entry stay as they were. *)
Theorem poll_ctl_last_call_wins set fd_ p (r w : bool) :
  mode set = GST_FDSET_MODE_POLL →
  read_pollfd (pollfds set) (idx fd_) = Some p →
  (∃ s1 s2, gst_fdset_fd_ctl_read set fd_ r = Some s1
     ∧ gst_fdset_fd_ctl_write s1 fd_ w = Some s2
     ∧ read_pollfd (pollfds s2) (idx fd_)
         = Some (mkPollfd (pollfd_fd p) (if w then POLLOUT else 0) (revents p)))
  ∧ (∃ s1 s2, gst_fdset_fd_ctl_write set fd_ w = Some s1
     ∧ gst_fdset_fd_ctl_read s1 fd_ r = Some s2
     ∧ read_pollfd (pollfds s2) (idx fd_)
         = Some (mkPollfd (pollfd_fd p) (if r then Z.lor POLLIN POLLPRI else 0)
                   (revents p))).
Proof.
  intros Hmode Hp. split.
  - destruct (set_events_facts set fd_ (if r then Z.lor POLLIN POLLPRI else 0) p Hp)
      as (s1 & Hs1 & Hm1 & Hp1).
    destruct (set_events_facts s1 fd_ (if w then POLLOUT else 0) _ Hp1)
      as (s2 & Hs2 & Hm2 & Hp2).
    exists s1, s2. unfold gst_fdset_fd_ctl_read, gst_fdset_fd_ctl_write.
    rewrite Hmode, Hm1, Hmode. done.
  - destruct (set_events_facts set fd_ (if w then POLLOUT else 0) p Hp)
      as (s1 & Hs1 & Hm1 & Hp1).
    destruct (set_events_facts s1 fd_ (if r then Z.lor POLLIN POLLPRI else 0) _ Hp1)
      as (s2 & Hs2 & Hm2 & Hp2).
    exists s1, s2. unfold gst_fdset_fd_ctl_read, gst_fdset_fd_ctl_write.
    rewrite Hmode, Hm1, Hmode. done.
Qed.

Lemma poll_ctl_last_call_wins_witness :
  (∃ s1 s2, gst_fdset_fd_ctl_read three_entries (mkFD 9 2) true = Some s1
     ∧ gst_fdset_fd_ctl_write s1 (mkFD 9 2) false = Some s2
     ∧ read_pollfd (pollfds s2) 2 = Some (mkPollfd 9 0 POLLHUP))
  ∧ (∃ s1 s2, gst_fdset_fd_ctl_write three_entries (mkFD 9 2) false = Some s1
     ∧ gst_fdset_fd_ctl_read s1 (mkFD 9 2) true = Some s2
     ∧ read_pollfd (pollfds s2) 2
         = Some (mkPollfd 9 (Z.lor POLLIN POLLPRI) POLLHUP)).
Proof.
  apply (poll_ctl_last_call_wins three_entries (mkFD 9 2)
           (mkPollfd 9 POLLIN POLLHUP) true false).
  - reflexivity.
  - reflexivity.
Defined.

Lemma fd_in_range_true x : 0 ≤ x < FD_SETSIZE → fd_in_range x = true.
Proof.
  unfold fd_in_range. intros Hx.
  destruct (Z.leb_spec 0 x); [|lia]. by destruct (Z.ltb_spec x FD_SETSIZE); [|lia].
Qed.

(** X28.  In select mode, for a descriptor below FD_SETSIZE,
    gst_fdset_fd_ctl_read and gst_fdset_fd_ctl_write are independent: after
    both, in either order, the descriptor is watched for reading exactly if
    ctl_read was active and for writing exactly if ctl_write was active, and
    the other descriptors are watched as before. *)
Theorem select_ctl_independent set fd_ (r w : bool) :
  mode set = GST_FDSET_MODE_SELECT →
  0 ≤ fd fd_ < FD_SETSIZE →
  ∃ s1 s2 s1' s2',
    gst_fdset_fd_ctl_read set fd_ r = Some s1
    ∧ gst_fdset_fd_ctl_write s1 fd_ w = Some s2
    ∧ gst_fdset_fd_ctl_write set fd_ w = Some s1'
    ∧ gst_fdset_fd_ctl_read s1' fd_ r = Some s2'
    ∧ s2' = s2
    ∧ (fd fd_ ∈ readfds s2 ↔ r = true)
    ∧ (fd fd_ ∈ writefds s2 ↔ w = true)
    ∧ (∀ x, x ≠ fd fd_ →
         (x ∈ readfds s2 ↔ x ∈ readfds set)
         ∧ (x ∈ writefds s2 ↔ x ∈ writefds set)).
Proof.
  intros Hmode Hfd.
  unfold gst_fdset_fd_ctl_read, gst_fdset_fd_ctl_write.
  destruct r, w; unfold FD_SET, FD_CLR; cbn [mode readfds writefds];
    rewrite ?Hmode, ?(fd_in_range_true _ Hfd); cbn [mode readfds writefds];
    rewrite ?Hmode, ?(fd_in_range_true _ Hfd);
    (eexists _, _, _, _; split; [done|]; split; [done|]; split; [done|];
     split; [done|]; split; [done|]; cbn [readfds writefds];
     repeat split; intros; try done; set_solver).
Qed.

Lemma select_ctl_independent_witness :
  ∃ s1 s2 s1' s2',
    gst_fdset_fd_ctl_read select_set (mkFD 9 0) true = Some s1
    ∧ gst_fdset_fd_ctl_write s1 (mkFD 9 0) false = Some s2
    ∧ gst_fdset_fd_ctl_write select_set (mkFD 9 0) false = Some s1'
    ∧ gst_fdset_fd_ctl_read s1' (mkFD 9 0) true = Some s2'
    ∧ s2' = s2
    ∧ (9 ∈ readfds s2 ↔ true = true)
    ∧ (9 ∈ writefds s2 ↔ false = true)
    ∧ (∀ x, x ≠ 9 →
         (x ∈ readfds s2 ↔ x ∈ readfds select_set)
         ∧ (x ∈ writefds s2 ↔ x ∈ writefds select_set)).
Proof.
  apply (select_ctl_independent select_set (mkFD 9 0) true false).
  - reflexivity.
  - vm_compute. split; [discriminate|reflexivity].
Defined.

Section WaitResults.

Variable select : gset Z → gset Z → option (Z * Z) → Z * gset Z * gset Z.
Variable poll : list pollfd → Z → Z → Z * list pollfd.

(** select only takes descriptors out of the sets it is given. *)
Hypothesis select_clears : ∀ r w tv,
  (select r w tv).1.2 ⊆ r ∧ (select r w tv).2 ⊆ w.

(** X29.  In select mode, with a select that only takes descriptors out of
    the sets it is given, gst_fdset_wait leaves the watched descriptors as
    they were, and afterwards gst_fdset_fd_can_read and
    gst_fdset_fd_can_write report only descriptors watched for reading and
    for writing; a descriptor that gst_fdset_remove_fd removed before the
    wait is reported as neither. *)
Theorem select_wait_reports_watched set timeout fd_ res set' :
  mode set = GST_FDSET_MODE_SELECT →
  0 ≤ fd fd_ < FD_SETSIZE →
  gst_fdset_wait select poll set timeout = (res, set') →
  readfds set' = readfds set ∧ writefds set' = writefds set
  ∧ (gst_fdset_fd_can_read set' fd_ = Some true → fd fd_ ∈ readfds set)
  ∧ (gst_fdset_fd_can_write set' fd_ = Some true → fd fd_ ∈ writefds set)
  ∧ ∃ removed fd',
      gst_fdset_remove_fd set fd_ = Some (removed, fd')
      ∧ gst_fdset_fd_can_read
          (gst_fdset_wait select poll removed timeout).2 fd' = Some false
      ∧ gst_fdset_fd_can_write
          (gst_fdset_wait select poll removed timeout).2 fd' = Some false.
Proof.
  intros Hmode Hfd Hres.
  replace set' with (gst_fdset_wait select poll set timeout).2 by (by rewrite Hres).
  clear Hres.
  assert (∀ s, mode s = GST_FDSET_MODE_SELECT →
     let s' := (gst_fdset_wait select poll s timeout).2 in
     mode s' = GST_FDSET_MODE_SELECT
     ∧ readfds s' = readfds s ∧ writefds s' = writefds s
     ∧ testreadfds s' ⊆ readfds s ∧ testwritefds s' ⊆ writefds s) as Hwait.
  { intros s Hs. cbv zeta. unfold gst_fdset_wait. rewrite Hs.
    pose proof (select_clears (readfds s) (writefds s)
      (if timeout >? 0 then Some (timeout ÷ 1000, Z.rem timeout 1000) else None))
      as [Hr Hw].
    destruct (select _ _ _) as [[n r'] w']. simpl in *. done. }
  destruct (Hwait set Hmode) as (Hm & Hr & Hw & Htr & Htw).
  split; [done|]. split; [done|].
  unfold gst_fdset_fd_can_read, gst_fdset_fd_can_write, FD_ISSET.
  rewrite Hm, (fd_in_range_true _ Hfd).
  split; [|split].
  - intros [= Hin%bool_decide_eq_true]. set_solver.
  - intros [= Hin%bool_decide_eq_true]. set_solver.
  - unfold gst_fdset_remove_fd, FD_CLR. rewrite Hmode, (fd_in_range_true _ Hfd).
    eexists _, _. split; [done|].
    match goal with |- context [gst_fdset_wait select poll ?s timeout] =>
      destruct (Hwait s eq_refl) as (Hm' & _ & _ & Htr' & Htw') end.
    rewrite Hm', (fd_in_range_true _ Hfd). cbn [readfds writefds] in *.
    split; f_equal; apply bool_decide_eq_false; set_solver.
Qed.

End WaitResults.

Lemma select_wait_reports_watched_witness :
  readfds select_set_waited = readfds select_set
  ∧ writefds select_set_waited = writefds select_set
  ∧ (gst_fdset_fd_can_read select_set_waited (mkFD 5 0) = Some true →
       5 ∈ readfds select_set)
  ∧ (gst_fdset_fd_can_write select_set_waited (mkFD 5 0) = Some true →
       5 ∈ writefds select_set)
  ∧ ∃ removed fd',
      gst_fdset_remove_fd select_set (mkFD 5 0) = Some (removed, fd')
      ∧ gst_fdset_fd_can_read
          (gst_fdset_wait select_all_readable poll_nothing removed 1500).2 fd'
        = Some false
      ∧ gst_fdset_fd_can_write
          (gst_fdset_wait select_all_readable poll_nothing removed 1500).2 fd'
        = Some false.
Proof.
  apply (select_wait_reports_watched select_all_readable poll_nothing
           ltac:(intros r w tv; simpl; split; [reflexivity|apply empty_subseteq])
           select_set 1500 (mkFD 5 0) 1).
  - reflexivity.
  - vm_compute. split; [discriminate|reflexivity].
  - vm_compute. reflexivity.
Defined.

End FDSetFacts.
